(** * Relation indexer and property facet of components-na

    A shallow embedding of
    - [packages/core/src/ifc/IfcRelationsIndexer/index.ts] and
    - [packages/core/src/openbim/IDSSpecifications/src/facets/Property.ts]
    together with the properties stated about them.

    Conventions of the embedding.
    - JavaScript numbers that are identifiers, type codes or slot indices
      are integers and are represented by [Z].
    - A JavaScript [Map] is an association list in insertion order:
      [set] on a key that is present replaces the value in place, [set]
      on a new key appends.
    - Asynchronous calls are awaited one after the other in the source;
      they are embedded as ordinary calls.
    - A run ends in an [outcome]: a value, an exception, a loop that never
      ends, or a step that leaves the fragment of JavaScript values
      represented here. *)

From Stdlib Require Import ZArith List String Ascii Bool Lia.
From Stdlib Require Import DecimalString DecimalZ DecimalPos.
From Stdlib Require FinFun.
Import ListNotations.

Local Open Scope string_scope.
Local Open Scope Z_scope.
Local Open Scope list_scope.

(** ** Outcomes of a run *)

Inductive outcome (A : Type) : Type :=
| Ok (a : A)
| Throws (e : string)
| Diverges
| Unmodelled.

Arguments Ok {A} a.
Arguments Throws {A} e.
Arguments Diverges {A}.
Arguments Unmodelled {A}.

Definition bind {A B : Type} (c : outcome A) (k : A -> outcome B) : outcome B :=
  match c with
  | Ok a => k a
  | Throws e => Throws e
  | Diverges => Diverges
  | Unmodelled => Unmodelled
  end.

Notation "x <- c ;; k" := (bind c (fun x => k))
  (at level 61, c at next level, right associativity).

(** A loop [for (const x of xs) body] threading a state through a body
    that may fail. *)
Fixpoint forEach {A S : Type} (body : S -> A -> outcome S) (xs : list A) (s : S)
  : outcome S :=
  match xs with
  | [] => Ok s
  | x :: xs' => s' <- body s x ;; forEach body xs' s'
  end.

Definition TypeError : string := "TypeError".

(** ** JavaScript [Map] with integer keys *)

Module JsMap.

Definition t (V : Type) : Type := list (Z * V).

Definition empty {V : Type} : t V := [].

Fixpoint get {V : Type} (m : t V) (k : Z) : option V :=
  match m with
  | [] => None
  | (k', v) :: m' => if Z.eqb k' k then Some v else get m' k
  end.

Fixpoint set {V : Type} (m : t V) (k : Z) (v : V) : t V :=
  match m with
  | [] => [(k, v)]
  | (k', v') :: m' =>
      if Z.eqb k' k then (k', v) :: m' else (k', v') :: set m' k v
  end.

Definition keys {V : Type} (m : t V) : list Z := map fst m.

End JsMap.

(** [a ?? b] for a lookup that may be [undefined]. *)
Definition orElse {A : Type} (o : option A) (d : A) : A :=
  match o with Some a => a | None => d end.

Notation "a ?? b" := (orElse a b) (at level 45, left associativity).

(** [Array.prototype.indexOf] on an array of strings: the position of the
    first occurrence, [-1] when there is none. *)
Fixpoint indexOfFrom (i : Z) (l : list string) (x : string) : Z :=
  match l with
  | [] => -1
  | y :: l' => if String.eqb y x then i else indexOfFrom (i + 1) l' x
  end.

Definition indexOf (l : list string) (x : string) : Z := indexOfFrom 0 l x.

(** ** Number and string conversions

    [String(n)] for an integer [n], and [Number(s)] for a string [s].
    [Number s = Some z] when [s] is a decimal numeral, with an optional
    leading minus sign, denoting [z]; [None] stands for every other string:
    those JavaScript turns into [NaN] and the numerals written in another
    form (the empty string, white space, exponent, radix prefix). *)

Definition String_of_Z (z : Z) : string := NilZero.string_of_int (Z.to_int z).

Definition Number (s : string) : option Z :=
  option_map Z.of_int (NilZero.int_of_string s).

(** ** Plain JavaScript objects

    An object is the list of its own properties in the order in which
    [for ... in], [Object.keys] and [JSON.stringify] visit them: the keys
    that are array indices (canonical numerals from [0] to [2^32 - 2]) in
    ascending numeric order, then the other keys in the order of their
    creation. *)

Module JsObject.

Definition t (V : Type) : Type := list (string * V).

Definition empty {V : Type} : t V := [].

Definition arrayIndex (k : string) : option Z :=
  match Number k with
  | Some n =>
      if String.eqb (String_of_Z n) k && (0 <=? n) && (n <? 4294967295)
      then Some n else None
  | None => None
  end.

Fixpoint get {V : Type} (o : t V) (k : string) : option V :=
  match o with
  | [] => None
  | (k', v) :: o' => if String.eqb k' k then Some v else get o' k
  end.

Fixpoint replace {V : Type} (o : t V) (k : string) (v : V) : t V :=
  match o with
  | [] => []
  | (k', v') :: o' =>
      if String.eqb k' k then (k', v) :: o' else (k', v') :: replace o' k v
  end.

(** Creation of the property [k], an array index of value [n]. *)
Fixpoint insertIndex {V : Type} (o : t V) (n : Z) (k : string) (v : V) : t V :=
  match o with
  | [] => [(k, v)]
  | (k', v') :: o' =>
      match arrayIndex k' with
      | Some n' =>
          if n' <? n then (k', v') :: insertIndex o' n k v
          else (k, v) :: (k', v') :: o'
      | None => (k, v) :: (k', v') :: o'
      end
  end.

(** [o[k] = v] *)
Definition set {V : Type} (o : t V) (k : string) (v : V) : t V :=
  match get o k with
  | Some _ => replace o k v
  | None =>
      match arrayIndex k with
      | Some n => insertIndex o n k v
      | None => o ++ [(k, v)]
      end
  end.

Definition keys {V : Type} (o : t V) : list string := map fst o.

End JsObject.

(** ** JavaScript values

    Attribute bags are untyped in the source ([Record<string, any>]);
    they are values of [jsval].  Strings are sequences of characters with
    codes below 256. *)

#[warnings="-register-all"] Inductive jsval : Type :=
| JUndefined
| JNull
| JBool (b : bool)
| JNum (n : Z)
| JStr (s : string)
| JArr (els : list jsval)
| JObj (props : JsObject.t jsval).

(** Truthiness: [if (v)], [!v], [!!v]. *)
Definition truthy (v : jsval) : bool :=
  match v with
  | JUndefined | JNull => false
  | JBool b => b
  | JNum n => negb (Z.eqb n 0)
  | JStr s => negb (String.eqb s EmptyString)
  | JArr _ | JObj _ => true
  end.

Definition nullish (v : jsval) : bool :=
  match v with
  | JUndefined | JNull => true
  | _ => false
  end.

(** [v.k] and [v[k]] for the keys the source reads ([Name], [value],
    [type], [name], [GlobalId], the names of the item lists and of the
    value attribute): an own property of an object, [undefined] on arrays
    and primitives, a [TypeError] on [undefined] and [null]. *)
Definition prop (v : jsval) (k : string) : outcome jsval :=
  match v with
  | JUndefined | JNull => Throws TypeError
  | JObj props => Ok (JsObject.get props k ?? JUndefined)
  | _ => Ok JUndefined
  end.

(** [v?.k] *)
Definition optProp (v : jsval) (k : string) : outcome jsval :=
  if nullish v then Ok JUndefined else prop v k.

(** [v ?? d] *)
Definition coalesce (v d : jsval) : jsval := if nullish v then d else v.

(** [a === b].  An array or an object is identical to itself only; the
    two sides of every comparison in the source come from different
    places (the model on one side, the facet or a constant on the
    other), so they are never the same array or object. *)
Definition strictEq (a b : jsval) : bool :=
  match a, b with
  | JUndefined, JUndefined => true
  | JNull, JNull => true
  | JBool x, JBool y => Bool.eqb x y
  | JNum x, JNum y => Z.eqb x y
  | JStr x, JStr y => String.eqb x y
  | _, _ => false
  end.

(** [String(v)] *)
Fixpoint jsString (v : jsval) : string :=
  match v with
  | JUndefined => "undefined"
  | JNull => "null"
  | JBool true => "true"
  | JBool false => "false"
  | JNum n => String_of_Z n
  | JStr s => s
  | JArr els =>
      (fix join (l : list jsval) : string :=
         match l with
         | [] => EmptyString
         | [x] => if nullish x then EmptyString else jsString x
         | x :: l' =>
             ((if nullish x then EmptyString else jsString x) ++ "," ++ join l')%string
         end) els
  | JObj _ => "[object Object]"
  end.

(** [s.endsWith(suffix)] *)
Definition endsWith (suffix s : string) : bool :=
  let n := String.length s in
  let k := String.length suffix in
  (k <=? n)%nat && String.eqb (substring (n - k) k s) suffix.

(** [s.trim()] is the empty string: every character of [s] is white space or a line
    terminator. *)
Definition isWhiteSpace (c : ascii) : bool :=
  let n := nat_of_ascii c in
  existsb (Nat.eqb n) [9; 10; 11; 12; 13; 32; 160]%nat.

Definition trimsToEmpty (s : string) : bool :=
  forallb isWhiteSpace (list_ascii_of_string s).

(** An object keyed by express IDs ([FRAGS.IfcProperties]). *)
Definition IfcProperties : Type := JsObject.t jsval.

(** [{ ...a, ...b }] onto [a]; spreading [null] adds nothing. *)
Definition spread (a : IfcProperties) (b : option IfcProperties)
  : IfcProperties :=
  match b with
  | None => a
  | Some b => fold_left (fun o kv => JsObject.set o (fst kv) (snd kv)) b a
  end.

(** ** The relation indexer *)

Definition RelationsMap : Type := JsMap.t (JsMap.t (list Z)).

(** [_inverseAttributes] *)
Definition _inverseAttributes : list string :=
  [ "IsDecomposedBy"; "Decomposes"; "AssociatedTo"; "HasAssociations";
    "ClassificationForObjects"; "IsGroupedBy"; "HasAssignments";
    "IsDefinedBy"; "DefinesOcurrence"; "IsTypedBy"; "Types"; "Defines";
    "ContainedInStructure"; "ContainsElements" ].

(** The web-ifc type codes the source names. *)
Definition IFCRELAGGREGATES : Z := 160246688.
Definition IFCRELASSOCIATESMATERIAL : Z := 2655215786.
Definition IFCRELASSOCIATESCLASSIFICATION : Z := 919958153.
Definition IFCRELASSIGNSTOGROUP : Z := 1307041759.
Definition IFCRELDEFINESBYPROPERTIES : Z := 4186316022.
Definition IFCRELDEFINESBYTYPE : Z := 781010003.
Definition IFCRELDEFINESBYTEMPLATE : Z := 307848117.
Definition IFCRELCONTAINEDINSPATIALSTRUCTURE : Z := 3242617779.

(** [_ifcRels] *)
Definition _ifcRels : list Z :=
  [ IFCRELAGGREGATES; IFCRELASSOCIATESMATERIAL;
    IFCRELASSOCIATESCLASSIFICATION; IFCRELASSIGNSTOGROUP;
    IFCRELDEFINESBYPROPERTIES; IFCRELDEFINESBYTYPE;
    IFCRELDEFINESBYTEMPLATE; IFCRELCONTAINEDINSPATIALSTRUCTURE ].

(** An entry of [relToAttributesMap]. *)
Record RelAttributes : Type := {
  forRelating : string;
  forRelated : string
}.

(** A parsed model as far as the indexer and the facet read it.
    [relations rel] is the sequence of pairs [(relatingID, relatedIDs)] of
    the relation entities of type [rel], in the order in which
    [getRelationMap] below meets them.
    [getProperties id] is the attribute bag of entity [id], [JNull] when
    there is none; [getAllPropertiesOfType t] is the object of all bags
    of type [t], [None] for [null]. *)
Record FragmentsGroup : Type := {
  uuid : string;
  hasProperties : bool;
  relations : Z -> list (Z * list Z);
  getProperties : Z -> jsval;
  getAllPropertiesOfType : Z -> option IfcProperties
}.

(** An attribute of a raw relation line as web-ifc delivers it: [null], a
    handle [{ value }] to an entity, an array of handles, or something
    else that is not an array (a label, an enumeration value). *)
Inductive rawAttr : Type :=
| RNull
| RHandle (value : Z)
| RHandles (els : list Z)
| ROther.

Definition RawLine : Type := JsObject.t rawAttr.

(** The part of [WEBIFC.IfcAPI] that [processFromWebIfc] calls. *)
Record IfcAPI : Type := {
  GetLineIDsWithType : Z -> Z -> list Z;
  getItemProperties : Z -> Z -> RawLine
}.

(** The indexer component: [relationMaps], a dictionary from model uuid
    to relation map, and the log of [onRelationsIndexed.trigger] calls,
    most recent last.  Model identifiers are uuid strings, never the name
    of a property a plain object inherits, so [relationMaps[uuid]] is the
    lookup among the entries stored. *)
Record IfcRelationsIndexer : Type := {
  relationMaps : JsObject.t RelationsMap;
  onRelationsIndexed : list (string * RelationsMap)
}.

(** [Object.keys(o).find(key => key.startsWith(prefix))] *)
Definition startsWith (prefix s : string) : bool := String.prefix prefix s.

Fixpoint findKey {V : Type} (p : string -> bool) (o : list (string * V))
  : option string :=
  match o with
  | [] => None
  | (k, _) :: o' => if p k then Some k else findKey p o'
  end.

Section Indexer.

(** [relToAttributesMap], imported from [./src/relToAttributesMap]; the
    file that defines the table is not among the files embedded, so the
    development is parametric in it.  [relToAttributesMap rel] is
    [this._relToAttributesMap.get(rel)]. *)
Variable relToAttributesMap : Z -> option RelAttributes.

(** [setRelationMap] *)
Definition setRelationMap (this : IfcRelationsIndexer) (model : FragmentsGroup)
    (relationMap : RelationsMap) : IfcRelationsIndexer :=
  {| relationMaps := JsObject.set (relationMaps this) (uuid model) relationMap;
     onRelationsIndexed :=
       onRelationsIndexed this ++ [(uuid model, relationMap)] |}.

(** One turn of the [// forRelated] loop of [process] (lines 148-154). *)
Definition pushRelated (index : Z) (relatingID : Z)
    (relationsMap : RelationsMap) (id : Z) : RelationsMap :=
  let currentMap := JsMap.get relationsMap id ?? JsMap.empty in
  let relations := JsMap.get currentMap index ?? [] in
  let relations := relations ++ [relatingID] in
  let currentMap := JsMap.set currentMap index relations in
  JsMap.set relationsMap id currentMap.

(** The [// forRelated] loop walks the array [relatedIDs] while that very
    array sits, by reference, in the slot [index] of [relatingID] set
    just before.  A turn pushes onto the array found in slot
    [indexRelated] of [id]; every other array reachable from the map is
    held by exactly one slot, so a turn touches the walked array only
    when [id] is [relatingID] and both roles have the same index.  From
    that turn on each visit appends one more element to visit and the
    loop never ends. *)
Definition pushesOntoWalked (index indexRelated relatingID : Z)
    (relatedIDs : list Z) : bool :=
  Z.eqb index indexRelated && existsb (Z.eqb relatingID) relatedIDs.

(** Lines 139-155 of [process], and likewise 196-212 of
    [processFromWebIfc]: they are written out once per function in the
    source and once per function here. *)
Definition process_indexRecord (inverseAttributes : RelAttributes)
    (relationsMap : RelationsMap) (relatingID : Z) (relatedIDs : list Z)
  : outcome RelationsMap :=
  let related := forRelated inverseAttributes in
  let relating := forRelating inverseAttributes in
  (* forRelating *)
  let currentMap := JsMap.get relationsMap relatingID ?? JsMap.empty in
  let index := indexOf _inverseAttributes relating in
  let currentMap := JsMap.set currentMap index relatedIDs in
  let relationsMap := JsMap.set relationsMap relatingID currentMap in
  (* forRelated *)
  let indexRelated := indexOf _inverseAttributes related in
  if pushesOntoWalked index indexRelated relatingID relatedIDs then Diverges
  else Ok (fold_left (pushRelated indexRelated relatingID)
                     relatedIDs relationsMap).

(** The callback handed to [getRelationMap] (lines 133-156). *)
Definition process_callback (rel : Z) (relationsMap : RelationsMap)
    (record : Z * list Z) : outcome RelationsMap :=
  let '(relatingID, relatedIDs) := record in
  match relToAttributesMap rel with
  | None => Ok relationsMap
  | Some inverseAttributes =>
      process_indexRecord inverseAttributes relationsMap relatingID relatedIDs
  end.

(** Modelled from the spec: [IfcPropertiesUtils.getRelationMap(model,
    rel, callback)], defined in [../Utils], which is not among the files
    embedded.  The relation-bearing entities of the model are queried by
    type and the callback runs once per record, in order. *)
Definition getRelationMap (model : FragmentsGroup) (rel : Z)
    (callback : RelationsMap -> Z * list Z -> outcome RelationsMap)
    (relationsMap : RelationsMap) : outcome RelationsMap :=
  forEach callback (relations model rel) relationsMap.

(** [process] *)
Definition process (this : IfcRelationsIndexer) (model : FragmentsGroup)
  : outcome (RelationsMap * IfcRelationsIndexer) :=
  if negb (hasProperties model) then
    Throws "FragmentsGroup properties not found"
  else
    match JsObject.get (relationMaps this) (uuid model) with
    | Some relationsMap => Ok (relationsMap, this)
    | None =>
        relationsMap <-
          forEach (fun relationsMap rel =>
                     getRelationMap model rel (process_callback rel)
                                    relationsMap)
                  _ifcRels JsMap.empty ;;
        Ok (relationsMap, setRelationMap this model relationsMap)
    end.

(** Lines 196-212 of [processFromWebIfc]. *)
Definition processFromWebIfc_indexRecord (relating related : string)
    (relationsMap : RelationsMap) (relatingID : Z) (relatedIDs : list Z)
  : outcome RelationsMap :=
  (* forRelating *)
  let currentMap := JsMap.get relationsMap relatingID ?? JsMap.empty in
  let index := indexOf _inverseAttributes relating in
  let currentMap := JsMap.set currentMap index relatedIDs in
  let relationsMap := JsMap.set relationsMap relatingID currentMap in
  (* forRelated *)
  let indexRelated := indexOf _inverseAttributes related in
  if pushesOntoWalked index indexRelated relatingID relatedIDs then Diverges
  else Ok (fold_left (fun relationsMap id =>
                        let currentMap :=
                          JsMap.get relationsMap id ?? JsMap.empty in
                        let relations :=
                          JsMap.get currentMap indexRelated ?? [] in
                        let relations := relations ++ [relatingID] in
                        let currentMap :=
                          JsMap.set currentMap indexRelated relations in
                        JsMap.set relationsMap id currentMap)
                     relatedIDs relationsMap).

(** Lines 186-194: the two keys, then [relAttrs[relatingKey].value] and
    [relAttrs[relatedKey].map((el) => el.value)].  [None] is the
    [continue] of line 192.  Reading [.value] of [null], and calling
    [.map] on [null] or on something that is not an array, throws;
    [.value] of an array is [undefined], and [.value] of another
    attribute is not the identifier of an entity. *)
Definition processFromWebIfc_readLine (relAttrs : RawLine)
  : option (outcome (Z * list Z)) :=
  let relatingKey := findKey (startsWith "Relating") relAttrs in
  let relatedKey := findKey (startsWith "Related") relAttrs in
  match relatingKey, relatedKey with
  | Some relatingKey, Some relatedKey =>
      Some
        match JsObject.get relAttrs relatingKey ?? RNull with
        | RNull => Throws TypeError
        | relatingAttr =>
            match JsObject.get relAttrs relatedKey ?? RNull with
            | RHandles relatedIDs =>
                match relatingAttr with
                | RHandle relatingID => Ok (relatingID, relatedIDs)
                | _ => Unmodelled
                end
            | RNull | RHandle _ | ROther => Throws TypeError
            end
        end
  | _, _ => None
  end.

(** [processFromWebIfc] *)
Definition processFromWebIfc (this : IfcRelationsIndexer) (ifcApi : IfcAPI)
    (modelID : Z) : outcome (RelationsMap * IfcRelationsIndexer) :=
  relationsMap <-
    forEach
      (fun relationsMap relType =>
         match relToAttributesMap relType with
         | None => Ok relationsMap
         | Some relInverseAttributes =>
             let related := forRelated relInverseAttributes in
             let relating := forRelating relInverseAttributes in
             let relExpressIDs := GetLineIDsWithType ifcApi modelID relType in
             forEach
               (fun relationsMap lineID =>
                  let relAttrs := getItemProperties ifcApi modelID lineID in
                  match processFromWebIfc_readLine relAttrs with
                  | None => Ok relationsMap
                  | Some read =>
                      record <- read ;;
                      processFromWebIfc_indexRecord relating related
                        relationsMap (fst record) (snd record)
                  end)
               relExpressIDs relationsMap
         end)
      _ifcRels JsMap.empty ;;
  Ok (relationsMap,
      {| relationMaps := relationMaps this;
         onRelationsIndexed :=
           onRelationsIndexed this ++ [(String_of_Z modelID, relationsMap)] |}).

End Indexer.

(** [getEntityRelations]; [None] is [null]. *)
Definition getEntityRelations (this : IfcRelationsIndexer)
    (model : FragmentsGroup) (expressID : Z) (relationName : string)
  : option (list Z) :=
  match JsObject.get (relationMaps this) (uuid model) with
  | None => None
  | Some indexMap =>
      let entityRelations := JsMap.get indexMap expressID in
      let attributeIndex := indexOf _inverseAttributes relationName in
      match entityRelations with
      | None => None
      | Some entityRelations =>
          if Z.eqb attributeIndex (-1) then None
          else
            match JsMap.get entityRelations attributeIndex with
            | None => None
            | Some relations => Some relations
            end
      end
  end.

(** ** JSON texts

    [JSON.stringify] and [JSON.parse] belong to the platform.  They are
    represented for the values that [serializeRelations] writes: an
    object whose properties are objects whose properties are arrays of
    integers.  [JSON_stringify] writes such a value the way
    [JSON.stringify] does, with no white space.  [JSON_parse] reads a text
    of that shape, with or without white space between the tokens; every
    other text is [Unmodelled]. *)

Definition JSONText : Type := string.

Inductive token : Type :=
| TLBrace
| TRBrace
| TLBracket
| TRBracket
| TComma
| TColon
| TStr (s : string)
| TNum (z : Z).

Definition dquote : ascii := "034"%char.
Definition backslash : ascii := "092"%char.

Definition hexDigit (n : nat) : ascii :=
  nth n (list_ascii_of_string "0123456789abcdef") "0"%char.

(** [QuoteJSONString] for one character with a code below 256. *)
Definition escapeChar (c : ascii) : string :=
  let n := nat_of_ascii c in
  if Ascii.eqb c dquote then String backslash (String dquote EmptyString)
  else if Ascii.eqb c backslash then String backslash (String backslash EmptyString)
  else if (n =? 8)%nat then String backslash "b"
  else if (n =? 9)%nat then String backslash "t"
  else if (n =? 10)%nat then String backslash "n"
  else if (n =? 12)%nat then String backslash "f"
  else if (n =? 13)%nat then String backslash "r"
  else if (n <? 32)%nat then
    String backslash
      (String "u" (String "0" (String "0"
         (String (hexDigit (n / 16)) (String (hexDigit (n mod 16)) EmptyString)))))
  else String c EmptyString.

Fixpoint escape (s : string) : string :=
  match s with
  | EmptyString => EmptyString
  | String c s' => (escapeChar c ++ escape s')%string
  end.

Definition renderToken (t : token) : string :=
  match t with
  | TLBrace => "{"
  | TRBrace => "}"
  | TLBracket => "["
  | TRBracket => "]"
  | TComma => ","
  | TColon => ":"
  | TStr s => String dquote (escape s ++ String dquote EmptyString)
  | TNum z => String_of_Z z
  end.

Fixpoint render (ts : list token) : string :=
  match ts with
  | [] => EmptyString
  | t :: ts' => (renderToken t ++ render ts')%string
  end.

(** The tokens of a sequence written with commas in between. *)
Fixpoint commaSeparated {A : Type} (f : A -> list token) (l : list A)
  : list token :=
  match l with
  | [] => []
  | [a] => f a
  | a :: l' => f a ++ TComma :: commaSeparated f l'
  end.

Definition arrayTokens (l : list Z) : list token :=
  TLBracket :: commaSeparated (fun z => [TNum z]) l ++ [TRBracket].

Definition innerTokens (o : JsObject.t (list Z)) : list token :=
  TLBrace ::
  commaSeparated (fun m => TStr (fst m) :: TColon :: arrayTokens (snd m)) o ++
  [TRBrace].

Definition objectTokens (o : JsObject.t (JsObject.t (list Z))) : list token :=
  TLBrace ::
  commaSeparated (fun m => TStr (fst m) :: TColon :: innerTokens (snd m)) o ++
  [TRBrace].

Definition JSON_stringify (object : JsObject.t (JsObject.t (list Z)))
  : JSONText := render (objectTokens object).

(** Reading the tokens of a text. *)
Inductive lexState : Type :=
| LIdle
| LStr (acc : string)
| LNum (acc : string).

Definition isNumChar (c : ascii) : bool :=
  let n := nat_of_ascii c in
  ((48 <=? n) && (n <=? 57))%nat || (n =? 45)%nat.

Definition isJsonSpace (c : ascii) : bool :=
  let n := nat_of_ascii c in
  existsb (Nat.eqb n) [9; 10; 13; 32]%nat.

(** A character that a JSON string holds as it is. *)
Definition isPlainChar (c : ascii) : bool :=
  negb (Ascii.eqb c dquote) && negb (Ascii.eqb c backslash) &&
  (32 <=? nat_of_ascii c)%nat.

(** The number written by a run of digits: an integer in the form in
    which [JSON.stringify] writes it. *)
Definition numToken (acc : string) : outcome token :=
  match Number acc with
  | Some z => if String.eqb (String_of_Z z) acc then Ok (TNum z) else Unmodelled
  | None => Unmodelled
  end.

Definition snoc (s : string) (c : ascii) : string :=
  (s ++ String c EmptyString)%string.

Fixpoint lex (st : lexState) (s : string) : outcome (list token) :=
  match s with
  | EmptyString =>
      match st with
      | LIdle => Ok []
      | LStr _ => Unmodelled
      | LNum acc => t <- numToken acc ;; Ok [t]
      end
  | String c s' =>
      let idle :=
        if Ascii.eqb c "{" then ts <- lex LIdle s' ;; Ok (TLBrace :: ts)
        else if Ascii.eqb c "}" then ts <- lex LIdle s' ;; Ok (TRBrace :: ts)
        else if Ascii.eqb c "[" then ts <- lex LIdle s' ;; Ok (TLBracket :: ts)
        else if Ascii.eqb c "]" then ts <- lex LIdle s' ;; Ok (TRBracket :: ts)
        else if Ascii.eqb c "," then ts <- lex LIdle s' ;; Ok (TComma :: ts)
        else if Ascii.eqb c ":" then ts <- lex LIdle s' ;; Ok (TColon :: ts)
        else if Ascii.eqb c dquote then lex (LStr EmptyString) s'
        else if isNumChar c then lex (LNum (String c EmptyString)) s'
        else if isJsonSpace c then lex LIdle s'
        else Unmodelled in
      match st with
      | LIdle => idle
      | LStr acc =>
          if Ascii.eqb c dquote then ts <- lex LIdle s' ;; Ok (TStr acc :: ts)
          else if isPlainChar c then lex (LStr (snoc acc c)) s'
          else Unmodelled
      | LNum acc =>
          if isNumChar c then lex (LNum (snoc acc c)) s'
          else t <- numToken acc ;; ts <- idle ;; Ok (t :: ts)
      end
  end.

(** Reading the value that the tokens spell.  The properties of an
    object are created in the order of the text, a later member replacing
    the value of an earlier one of the same name. *)
Inductive parseState : Type :=
| PStart
| POuterKey (o : JsObject.t (JsObject.t (list Z))) (first : bool)
| POuterColon (o : JsObject.t (JsObject.t (list Z))) (k : string)
| POuterValue (o : JsObject.t (JsObject.t (list Z))) (k : string)
| PInnerKey (o : JsObject.t (JsObject.t (list Z))) (k : string)
            (io : JsObject.t (list Z)) (first : bool)
| PInnerColon (o : JsObject.t (JsObject.t (list Z))) (k : string)
              (io : JsObject.t (list Z)) (ik : string)
| PInnerValue (o : JsObject.t (JsObject.t (list Z))) (k : string)
              (io : JsObject.t (list Z)) (ik : string)
| PElem (o : JsObject.t (JsObject.t (list Z))) (k : string)
        (io : JsObject.t (list Z)) (ik : string) (l : list Z) (first : bool)
| PElemSep (o : JsObject.t (JsObject.t (list Z))) (k : string)
           (io : JsObject.t (list Z)) (ik : string) (l : list Z)
| PInnerSep (o : JsObject.t (JsObject.t (list Z))) (k : string)
            (io : JsObject.t (list Z))
| POuterSep (o : JsObject.t (JsObject.t (list Z)))
| PDone (o : JsObject.t (JsObject.t (list Z)))
| PFail.

Definition parseStep (st : parseState) (t : token) : parseState :=
  match st, t with
  | PStart, TLBrace => POuterKey JsObject.empty true
  | POuterKey o _, TStr k => POuterColon o k
  | POuterKey o true, TRBrace => PDone o
  | POuterColon o k, TColon => POuterValue o k
  | POuterValue o k, TLBrace => PInnerKey o k JsObject.empty true
  | PInnerKey o k io _, TStr ik => PInnerColon o k io ik
  | PInnerKey o k io true, TRBrace => POuterSep (JsObject.set o k io)
  | PInnerColon o k io ik, TColon => PInnerValue o k io ik
  | PInnerValue o k io ik, TLBracket => PElem o k io ik [] true
  | PElem o k io ik l _, TNum z => PElemSep o k io ik (l ++ [z])
  | PElem o k io ik l true, TRBracket => PInnerSep o k (JsObject.set io ik l)
  | PElemSep o k io ik l, TComma => PElem o k io ik l false
  | PElemSep o k io ik l, TRBracket => PInnerSep o k (JsObject.set io ik l)
  | PInnerSep o k io, TComma => PInnerKey o k io false
  | PInnerSep o k io, TRBrace => POuterSep (JsObject.set o k io)
  | POuterSep o, TComma => POuterKey o false
  | POuterSep o, TRBrace => PDone o
  | _, _ => PFail
  end.

Definition JSON_parse (json : JSONText)
  : outcome (JsObject.t (JsObject.t (list Z))) :=
  ts <- lex LIdle json ;;
  match fold_left parseStep ts PStart with
  | PDone o => Ok o
  | _ => Unmodelled
  end.

(** [serializeRelations] *)
Definition serializeRelations (relationMap : RelationsMap) : JSONText :=
  let object :=
    fold_left
      (fun object entry =>
         let expressID := String_of_Z (fst entry) in
         let relations := snd entry in
         let object :=
           match JsObject.get object expressID with
           | None => JsObject.set object expressID JsObject.empty
           | Some _ => object
           end in
         fold_left
           (fun object rel =>
              let relationID := String_of_Z (fst rel) in
              let relationEntities := snd rel in
              JsObject.set object expressID
                (JsObject.set (JsObject.get object expressID ?? JsObject.empty)
                              relationID relationEntities))
           relations object)
      relationMap JsObject.empty in
  JSON_stringify object.

(** [serializeModelRelations]; [None] is [null]. *)
Definition serializeModelRelations (this : IfcRelationsIndexer)
    (model : FragmentsGroup) : option JSONText :=
  match JsObject.get (relationMaps this) (uuid model) with
  | None => None
  | Some relationsMap => Some (serializeRelations relationsMap)
  end.

(** [getRelationsMapFromJSON].  A key that [Number] does not read as an
    integer is outside the maps represented here. *)
Definition getRelationsMapFromJSON (json : JSONText) : outcome RelationsMap :=
  relations <- JSON_parse json ;;
  forEach
    (fun indexMap entry =>
       let expressID := fst entry in
       let expressIDRelations := snd entry in
       relationMap <-
         forEach
           (fun relationMap rel =>
              let relationID := fst rel in
              match Number relationID with
              | Some n => Ok (JsMap.set relationMap n (snd rel))
              | None => Unmodelled
              end)
           expressIDRelations JsMap.empty ;;
       match Number expressID with
       | Some n => Ok (JsMap.set indexMap n relationMap)
       | None => Unmodelled
       end)
    relations JsMap.empty.

(** ** The property facet *)

Definition IFCPROPERTYSET : Z := 1451395588.
Definition IFCELEMENTQUANTITY : Z := 1883228015.
Definition IFCCOMPLEXPROPERTY : Z := 2542286263.
Definition IFCPHYSICALCOMPLEXQUANTITY : Z := 3021840470.
Definition IFCPROPERTYLISTVALUE : Z := 2752243245.
Definition IFCPROPERTYENUMERATEDVALUE : Z := 4166981789.

(** [IDSFacetParameter], [IDSCheck] and [IDSCheckResult] are declared in
    [../types], which is not among the files embedded; the records below
    have the fields the facet reads and writes. *)

Module IDSFacetParameter.
Record t : Type := { type : string; parameter : jsval }.
End IDSFacetParameter.

Inductive Cardinality : Type := required | optional | prohibited.

Module IDSCheck.
Record t : Type := {
  parameter : string;
  currentValue : jsval;
  requiredValue : jsval;
  pass : bool
}.
End IDSCheck.

Module IDSCheckResult.
Record t : Type := {
  guid : jsval;
  expressID : Z;
  pass : bool;
  checks : list IDSCheck.t;
  cardinality : Cardinality
}.
End IDSCheckResult.

(** The fields of [IDSProperty] that [getEntities], [test] and the
    evaluators read. *)
Record IDSProperty : Type := {
  cardinality : Cardinality;
  propertySet : IDSFacetParameter.t;
  baseName : IDSFacetParameter.t;
  value : option IDSFacetParameter.t;
  dataType : option string
}.

(** [_unsupportedTypes] *)
Definition _unsupportedTypes : list Z :=
  [ IFCCOMPLEXPROPERTY; IFCPHYSICALCOMPLEXQUANTITY ].

(** [array.includes(v)] on an array of numbers *)
Definition includes (l : list Z) (v : jsval) : bool :=
  existsb (fun n => strictEq (JNum n) v) l.

(** [getItemsAttrName]; [None] is [undefined]. *)
Definition getItemsAttrName (type : jsval) : option string :=
  let propsListName := None in
  let propsListName :=
    if strictEq type (JNum IFCPROPERTYSET) then Some "HasProperties"
    else propsListName in
  let propsListName :=
    if strictEq type (JNum IFCELEMENTQUANTITY) then Some "Quantities"
    else propsListName in
  propsListName.

(** [Object.keys(attrs).find(p)] for a predicate [p] that holds of no
    array index: the first own key of an object that satisfies [p], none
    on arrays and primitives, a [TypeError] on [undefined] and [null]. *)
Definition findOwnKey (p : string -> bool) (attrs : jsval)
  : outcome (option string) :=
  match attrs with
  | JUndefined | JNull => Throws TypeError
  | JObj props => Ok (findKey p props)
  | _ => Ok None
  end.

(** [getValueKey] *)
Definition getValueKey (attrs : jsval) : outcome (option string) :=
  findOwnKey (fun name => endsWith "Value" name || endsWith "Values" name)
             attrs.

(** [for (const x of v)]: the elements of an array; a [TypeError] for a
    value that is not iterable.  Walking the characters of a string is
    not represented. *)
Definition iterate (v : jsval) : outcome (list jsval) :=
  match v with
  | JArr els => Ok els
  | JStr _ => Unmodelled
  | _ => Throws TypeError
  end.

(** [model.getProperties(id)] for an [id] read from an attribute bag. *)
Definition getPropertiesOf (model : FragmentsGroup) (id : jsval)
  : outcome jsval :=
  match id with
  | JNum n => Ok (getProperties model n)
  | _ => Unmodelled
  end.

(** [attrs[k] = v] on an object *)
Definition setProp (attrs : jsval) (k : string) (v : jsval) : jsval :=
  match attrs with
  | JObj props => JObj (JsObject.set props k v)
  | _ => attrs
  end.

(** [attrs.Name?.value ?? null] *)
Definition nameOrNull (attrs : jsval) : outcome jsval :=
  name <- prop attrs "Name" ;;
  name <- optProp name "value" ;;
  Ok (coalesce name JNull).

(** [Number(key)] for a key met by [for ... in]. *)
Definition numberOfKey (key : string) : outcome Z :=
  match Number key with
  | Some n => Ok n
  | None => Unmodelled
  end.

Section Facet.

(** [evalRequirement(value, facetParameter, parameter, checks?)] is a
    method of the base class [IDSFacet] in [./Facet], which is not among
    the files embedded; the facet is parametric in it.  The result is the boolean
    returned and the content of the array [checks] after the call, when
    one was passed. *)
Variable evalRequirement :
  IDSProperty -> jsval -> IDSFacetParameter.t -> string ->
  option (list IDSCheck.t) -> bool * list IDSCheck.t.

(** [indexer.getEntitiesWithRelation(model, relationName, id)], called by
    [getEntities] at line 106.  The class [IfcRelationsIndexer] embedded
    above has no member of that name: reading it from the indexer gives
    [undefined], and calling [undefined] throws a [TypeError]. *)
Definition getEntitiesWithRelation (indexer : IfcRelationsIndexer)
    (model : FragmentsGroup) (relationName : string) (id : Z)
  : outcome (list Z) :=
  Throws TypeError.

(** [getPsets] *)
Definition getPsets (indexer : IfcRelationsIndexer) (model : FragmentsGroup)
    (expressID : Z) : outcome (list jsval) :=
  match getEntityRelations indexer model expressID "IsDefinedBy" with
  | None => Ok []
  | Some definitions =>
      forEach
        (fun sets definitionID =>
           let attrs := getProperties model definitionID in
           if negb (truthy attrs) then Ok sets
           else
             type <- prop attrs "type" ;;
             match getItemsAttrName type with
             | None => Ok sets
             | Some propsListName =>
                 let attrsClone := attrs in
                 handles <- prop attrsClone propsListName ;;
                 handles <- iterate handles ;;
                 props <-
                   forEach
                     (fun props handle =>
                        value <- prop handle "value" ;;
                        propAttrs <- getPropertiesOf model value ;;
                        Ok (if truthy propAttrs then props ++ [propAttrs]
                            else props))
                     handles [] ;;
                 let attrsClone :=
                   setProp attrsClone propsListName (JArr props) in
                 Ok (sets ++ [attrsClone])
             end)
        definitions []
  end.

(** [evalValue]; [test] always passes [checks]. *)
Definition evalValue (this : IDSProperty) (attrs : jsval)
    (checks : list IDSCheck.t) : outcome (bool * list IDSCheck.t) :=
  valueKey <- getValueKey attrs ;;
  match value this with
  | Some thisValue =>
      match valueKey with
      | None =>
          Ok (false,
              checks ++
              [ {| IDSCheck.parameter := "Value";
                   IDSCheck.currentValue := JNull;
                   IDSCheck.pass := false;
                   IDSCheck.requiredValue :=
                     IDSFacetParameter.parameter thisValue |} ])
      | Some valueKey =>
          valueAttr <- prop attrs valueKey ;;
          let facetValue := thisValue in
          name <- prop valueAttr "name" ;;
          let facetValue :=
            if strictEq name (JStr "IFCLABEL") &&
               String.eqb (IDSFacetParameter.type facetValue) "simple"
            then {| IDSFacetParameter.type := IDSFacetParameter.type facetValue;
                    IDSFacetParameter.parameter :=
                      JStr (jsString (IDSFacetParameter.parameter facetValue)) |}
            else facetValue in
          type <- prop attrs "type" ;;
          match valueAttr with
          | JArr els =>
              if strictEq type (JNum IFCPROPERTYLISTVALUE) ||
                 strictEq type (JNum IFCPROPERTYENUMERATEDVALUE)
              then
                values <-
                  forEach (fun values el =>
                             v <- prop el "value" ;; Ok (values ++ [v]))
                          els [] ;;
                let matchingValue :=
                  find (fun el =>
                          match prop el "value" with
                          | Ok v =>
                              fst (evalRequirement this v facetValue "Value"
                                                   None)
                          | _ => false
                          end)
                       els in
                let pass :=
                  match matchingValue with
                  | Some el => truthy el
                  | None => false
                  end in
                Ok (pass,
                    checks ++
                    [ {| IDSCheck.currentValue := JArr values;
                         IDSCheck.pass := pass;
                         IDSCheck.parameter := "Value";
                         IDSCheck.requiredValue :=
                           IDSFacetParameter.parameter facetValue |} ])
              else
                v <- prop valueAttr "value" ;;
                Ok (evalRequirement this v facetValue "Value" (Some checks))
          | _ =>
              v <- prop valueAttr "value" ;;
              Ok (evalRequirement this v facetValue "Value" (Some checks))
          end
      end
  | None =>
      match valueKey with
      | None => Ok (true, checks)
      | Some valueKey =>
          value <- prop attrs valueKey ;;
          type <- prop value "type" ;;
          unknown <-
            (if strictEq type (JNum 3) then
               v <- prop value "value" ;; Ok (strictEq v (JNum 2))
             else Ok false) ;;
          if unknown then
            (* IDSDocs: Values with a logical unknown always fail *)
            Ok (false,
                checks ++
                [ {| IDSCheck.parameter := "Value";
                     IDSCheck.currentValue := JNull;
                     IDSCheck.pass := false;
                     IDSCheck.requiredValue := JNull |} ])
          else
            empty <-
              (if strictEq type (JNum 1) then
                 v <- prop value "value" ;;
                 match v with
                 | JStr s => Ok (trimsToEmpty s)
                 | _ => Throws TypeError
                 end
               else Ok false) ;;
            if empty then
              (* IDSDocs: An empty string is considered false *)
              Ok (false,
                  checks ++
                  [ {| IDSCheck.parameter := "Value";
                       IDSCheck.currentValue := JStr EmptyString;
                       IDSCheck.pass := false;
                       IDSCheck.requiredValue := JNull |} ])
            else Ok (true, checks)
      end
  end.

(** [evalDataType] *)
Definition evalDataType (this : IDSProperty) (attrs : jsval)
    (checks : list IDSCheck.t) : outcome (bool * list IDSCheck.t) :=
  match dataType this with
  | None => Ok (true, checks)
  | Some thisDataType =>
      if String.eqb thisDataType EmptyString then Ok (true, checks)
      else
        valueKey <- getValueKey attrs ;;
        valueAttr <- prop attrs (valueKey ?? "undefined") ;;
        type <- prop attrs "type" ;;
        let facetParameter :=
          {| IDSFacetParameter.type := "simple";
             IDSFacetParameter.parameter := JStr thisDataType |} in
        let first :=
          match valueAttr with
          | JArr (el :: _) =>
              if (strictEq type (JNum IFCPROPERTYLISTVALUE) ||
                  strictEq type (JNum IFCPROPERTYENUMERATEDVALUE)) &&
                 truthy el
              then Some el else None
          | _ => None
          end in
        match first with
        | Some el =>
            valueType <- prop el "name" ;;
            Ok (evalRequirement this valueType facetParameter "DataType"
                                (Some checks))
        | None =>
            name <- prop valueAttr "name" ;;
            Ok (evalRequirement this name facetParameter "DataType"
                                (Some checks))
        end
  end.

(** [evalURI] *)
Definition evalURI (this : IDSProperty) : bool := true.

(** The callback of [sets.filter] in [test] (lines 142-156), run over the
    sets in order: the sets kept and the checks pushed along the way. *)
Definition test_matchingSets (this : IDSProperty) (sets : list jsval)
    (checks : list IDSCheck.t) : outcome (list jsval * list IDSCheck.t) :=
  forEach
    (fun acc set =>
       let matchingSets := fst acc in
       let checks := snd acc in
       name <- nameOrNull set ;;
       let result :=
         fst (evalRequirement this name (propertySet this)
                              "PropertySet" None) in
       if negb result then Ok (matchingSets, checks)
       else
         name <- prop set "Name" ;;
         currentValue <- prop name "value" ;;
         Ok (matchingSets ++ [set],
             checks ++
             [ {| IDSCheck.currentValue := currentValue;
                  IDSCheck.parameter := "PropertySet";
                  IDSCheck.pass := true;
                  IDSCheck.requiredValue :=
                    IDSFacetParameter.parameter (propertySet this) |} ]))
    sets ([], checks).

(** The callback of [items.filter] (lines 181-198). *)
Definition test_matchingItems (this : IDSProperty) (items : list jsval)
    (checks : list IDSCheck.t) : outcome (list jsval * list IDSCheck.t) :=
  forEach
    (fun acc item =>
       let matchingItems := fst acc in
       let checks := snd acc in
       type <- prop item "type" ;;
       if includes _unsupportedTypes type then Ok (matchingItems, checks)
       else
         name <- nameOrNull item ;;
         let result :=
           fst (evalRequirement this name (baseName this)
                                "BaseName" None) in
         if negb result then Ok (matchingItems, checks)
         else
           name <- prop item "Name" ;;
           currentValue <- prop name "value" ;;
           Ok (matchingItems ++ [item],
               checks ++
               [ {| IDSCheck.currentValue := currentValue;
                    IDSCheck.parameter := "BaseName";
                    IDSCheck.pass := true;
                    IDSCheck.requiredValue :=
                      IDSFacetParameter.parameter (baseName this) |} ]))
    items ([], checks).

(** The check pushed when nothing matches [BaseName] (lines 171-176 and
    201-206). *)
Definition baseNameMissing (this : IDSProperty) : IDSCheck.t :=
  {| IDSCheck.currentValue := JNull;
     IDSCheck.parameter := "BaseName";
     IDSCheck.pass := false;
     IDSCheck.requiredValue := IDSFacetParameter.parameter (baseName this) |}.

(** One turn of [for (const set of matchingSets)] (lines 168-215). *)
Definition test_set (this : IDSProperty) (checks : list IDSCheck.t)
    (set : jsval) : outcome (list IDSCheck.t) :=
  type <- prop set "type" ;;
  match getItemsAttrName type with
  | None => Ok (checks ++ [baseNameMissing this])
  | Some itemsAttrName =>
      items <- prop set itemsAttrName ;;
      match items with
      | JArr items =>
          acc <- test_matchingItems this items checks ;;
          let matchingItems := fst acc in
          let checks := snd acc in
          match matchingItems with
          | [] => Ok (checks ++ [baseNameMissing this])
          | _ =>
              forEach
                (fun checks item =>
                   r <- evalValue this item checks ;;
                   r <- evalDataType this item (snd r) ;;
                   let _ := evalURI this in
                   Ok (snd r))
                matchingItems checks
          end
      | _ => Throws TypeError
      end
  end.

(** One turn of [for (const _expressID in entities)] (lines 127-265): the
    record [result] as it stands when the turn ends. *)
Definition test_entity (this : IDSProperty) (indexer : IfcRelationsIndexer)
    (model : FragmentsGroup) (expressID : Z) (attrs : jsval)
  : outcome IDSCheckResult.t :=
  globalId <- prop attrs "GlobalId" ;;
  guid <- optProp globalId "value" ;;
  let result (pass : bool) (checks : list IDSCheck.t) :=
    {| IDSCheckResult.guid := guid;
       IDSCheckResult.expressID := expressID;
       IDSCheckResult.pass := pass;
       IDSCheckResult.checks := checks;
       IDSCheckResult.cardinality := cardinality this |} in
  sets <- getPsets indexer model expressID ;;
  acc <- test_matchingSets this sets [] ;;
  let matchingSets := fst acc in
  let checks := snd acc in
  match matchingSets with
  | [] =>
      Ok (result false
            (checks ++
             [ {| IDSCheck.currentValue := JNull;
                  IDSCheck.parameter := "PropertySet";
                  IDSCheck.pass := false;
                  IDSCheck.requiredValue :=
                    IDSFacetParameter.parameter (propertySet this) |} ]))
  | _ =>
      checks <- forEach (test_set this) matchingSets checks ;;
      Ok (result (forallb IDSCheck.pass checks) checks)
  end.

(** [test]: the content of [testResult] handed back. *)
Definition test (this : IDSProperty) (indexer : IfcRelationsIndexer)
    (entities : IfcProperties) (model : FragmentsGroup)
  : outcome (list IDSCheckResult.t) :=
  forEach
    (fun testResult entry =>
       expressID <- numberOfKey (fst entry) ;;
       let attrs :=
         JsObject.get entities (String_of_Z expressID) ?? JUndefined in
       result <- test_entity this indexer model expressID attrs ;;
       Ok (testResult ++ [result]))
    entities [].

(** The body of [for (const handle of attrs[propsListName])] in
    [getEntities] (lines 80-99). *)
Definition getEntities_handle (this : IDSProperty) (model : FragmentsGroup)
    (setID : Z) (matchingSets : list Z) (handle : jsval) : outcome (list Z) :=
  id <- prop handle "value" ;;
  propAttrs <- getPropertiesOf model id ;;
  if negb (truthy propAttrs) then Ok matchingSets
  else
    name <- prop propAttrs "Name" ;;
    name <- optProp name "value" ;;
    let propNameMatches :=
      strictEq name (IDSFacetParameter.parameter (baseName this)) in
    if negb propNameMatches then Ok matchingSets
    else
      match value this with
      | Some thisValue =>
          valueKey <- findOwnKey (endsWith "Value") propAttrs ;;
          match valueKey with
          | None => Ok matchingSets
          | Some valueKey =>
              valueAttr <- prop propAttrs valueKey ;;
              v <- prop valueAttr "value" ;;
              let valueMatches :=
                strictEq v (IDSFacetParameter.parameter thisValue) in
              if negb valueMatches then Ok matchingSets
              else Ok (matchingSets ++ [setID])
          end
      | None => Ok (matchingSets ++ [setID])
      end.

(** The body of [for (const _setID in sets)] (lines 66-100). *)
Definition getEntities_set (this : IDSProperty) (model : FragmentsGroup)
    (matchingSets : list Z) (entry : string * jsval) : outcome (list Z) :=
  setID <- numberOfKey (fst entry) ;;
  let attrs := getProperties model setID in
  if negb (truthy attrs) then Ok matchingSets
  else
    name <- prop attrs "Name" ;;
    name <- optProp name "value" ;;
    let nameMatches :=
      strictEq name (IDSFacetParameter.parameter (propertySet this)) in
    if negb nameMatches then Ok matchingSets
    else
      type <- prop attrs "type" ;;
      match getItemsAttrName type with
      | None => Ok matchingSets
      | Some propsListName =>
          handles <- prop attrs propsListName ;;
          handles <- iterate handles ;;
          forEach (getEntities_handle this model setID) handles matchingSets
      end.

(** The body of [for (const expressID of expressIDs)] (lines 112-118):
    the collector and [result] after the turn. *)
Definition getEntities_collect (model : FragmentsGroup)
    (acc : IfcProperties * list Z) (expressID : Z) : IfcProperties * list Z :=
  let collector := fst acc in
  let result := snd acc in
  match JsObject.get collector (String_of_Z expressID) with
  | Some _ => acc
  | None =>
      let attrs := getProperties model expressID in
      if negb (truthy attrs) then acc
      else (JsObject.set collector (String_of_Z expressID) attrs,
            result ++ [expressID])
  end.

(** [getEntities]: the array the promise resolves to, and the content of
    [collector] afterwards. *)
Definition getEntities (this : IDSProperty) (indexer : IfcRelationsIndexer)
    (model : FragmentsGroup) (collector : IfcProperties)
  : outcome (list Z * IfcProperties) :=
  let sets : IfcProperties := JsObject.empty in
  let psets := getAllPropertiesOfType model IFCPROPERTYSET in
  let sets := spread sets psets in
  let qsets := getAllPropertiesOfType model IFCELEMENTQUANTITY in
  let sets := spread sets qsets in
  if (List.length (JsObject.keys sets) =? 0)%nat then Ok ([], collector)
  else
    matchingSets <- forEach (getEntities_set this model) sets [] ;;
    acc <-
      forEach
        (fun acc setID =>
           expressIDs <-
             getEntitiesWithRelation indexer model "IsDefinedBy" setID ;;
           Ok (fold_left (getEntities_collect model) expressIDs acc))
        matchingSets (collector, []) ;;
    let collector := fst acc in
    let result := snd acc in
    Ok ([], collector).

(** [el.value] for an element of a list of values. *)
Definition elementValue (el : jsval) : jsval :=
  match el with
  | JObj props => JsObject.get props "value" ?? JUndefined
  | _ => JUndefined
  end.

(** The object [sets] of [getEntities] (lines 57-61). *)
Definition allSets (model : FragmentsGroup) : IfcProperties :=
  spread (spread JsObject.empty (getAllPropertiesOfType model IFCPROPERTYSET))
         (getAllPropertiesOfType model IFCELEMENTQUANTITY).

(** The check pushed when no property set matches (lines 159-164). *)
Definition propertySetMissing (this : IDSProperty) : IDSCheck.t :=
  {| IDSCheck.currentValue := JNull;
     IDSCheck.parameter := "PropertySet";
     IDSCheck.pass := false;
     IDSCheck.requiredValue := IDSFacetParameter.parameter (propertySet this) |}.

(** No set of [sets] matches the [propertySet] parameter of the facet. *)
Definition noSetMatches (this : IDSProperty) (sets : list jsval) : Prop :=
  forall set name,
    In set sets -> nameOrNull set = Ok name ->
    fst (evalRequirement this name (propertySet this) "PropertySet" None) = false.

End Facet.

(** ** Instances used in the examples *)

(** A table with one entry for each code of [_ifcRels], pairing names of
    [_inverseAttributes]. *)
Definition sampleRelToAttributesMap (rel : Z) : option RelAttributes :=
  if Z.eqb rel IFCRELAGGREGATES then
    Some {| forRelating := "IsDecomposedBy"; forRelated := "Decomposes" |}
  else if Z.eqb rel IFCRELASSOCIATESMATERIAL then
    Some {| forRelating := "AssociatedTo"; forRelated := "HasAssociations" |}
  else if Z.eqb rel IFCRELASSOCIATESCLASSIFICATION then
    Some {| forRelating := "ClassificationForObjects";
            forRelated := "HasAssociations" |}
  else if Z.eqb rel IFCRELASSIGNSTOGROUP then
    Some {| forRelating := "IsGroupedBy"; forRelated := "HasAssignments" |}
  else if Z.eqb rel IFCRELDEFINESBYPROPERTIES then
    Some {| forRelating := "DefinesOcurrence"; forRelated := "IsDefinedBy" |}
  else if Z.eqb rel IFCRELDEFINESBYTYPE then
    Some {| forRelating := "Types"; forRelated := "IsTypedBy" |}
  else if Z.eqb rel IFCRELDEFINESBYTEMPLATE then
    Some {| forRelating := "Defines"; forRelated := "IsDefinedBy" |}
  else if Z.eqb rel IFCRELCONTAINEDINSPATIALSTRUCTURE then
    Some {| forRelating := "ContainsElements";
            forRelated := "ContainedInStructure" |}
  else None.

(** Modelled from the spec: the parameter matcher of section 4.3
    ([IDSFacet.evalRequirement], in [./Facet]) for the two kinds of
    parameter the examples use.  An exact value matches by equality, an
    enumeration when the candidate equals one of its options; the variant
    with evidence also appends a check record to the list supplied. *)
Definition specEvalRequirement (this : IDSProperty) (value : jsval)
    (facetParameter : IDSFacetParameter.t) (parameter : string)
    (checks : option (list IDSCheck.t)) : bool * list IDSCheck.t :=
  let pass :=
    if String.eqb (IDSFacetParameter.type facetParameter) "simple" then
      strictEq value (IDSFacetParameter.parameter facetParameter)
    else if String.eqb (IDSFacetParameter.type facetParameter) "enumeration"
    then
      match IDSFacetParameter.parameter facetParameter with
      | JArr options => existsb (strictEq value) options
      | _ => false
      end
    else false in
  (pass,
   match checks with
   | Some checks =>
       checks ++
       [ {| IDSCheck.parameter := parameter;
            IDSCheck.currentValue := value;
            IDSCheck.requiredValue :=
              IDSFacetParameter.parameter facetParameter;
            IDSCheck.pass := pass |} ]
   | None => []
   end).

(** ** Notions used to state the properties *)

(** What slot [i] of entity [x] holds. *)
Definition slot {V : Type} (m : JsMap.t (JsMap.t V)) (x i : Z) : option V :=
  match JsMap.get m x with
  | Some currentMap => JsMap.get currentMap i
  | None => None
  end.

(** ** Arrays by reference

    The indexing of one record once more, with the arrays kept in a store
    and the slots holding their addresses, as the source has them.  The
    loop walks the array at address [relatedIDs] by position, reading its
    current content at each turn; it is given fuel, and [None] says that
    the fuel ran out before the walk ended. *)

Definition Store : Type := list (list Z).

Definition RefMap : Type := JsMap.t (JsMap.t nat).

Definition readArr (h : Store) (a : nat) : list Z := nth a h [].

(** [array.push(x)] on the array at address [a] *)
Fixpoint pushArr (h : Store) (a : nat) (x : Z) : Store :=
  match h, a with
  | [], _ => []
  | l :: h', O => (l ++ [x]) :: h'
  | l :: h', S a' => l :: pushArr h' a' x
  end.

(** One turn of the [// forRelated] loop (lines 148-154). *)
Definition pushRelatedRef (index : Z) (relatingID : Z) (st : Store * RefMap)
    (id : Z) : Store * RefMap :=
  let h := fst st in
  let relationsMap := snd st in
  let currentMap := JsMap.get relationsMap id ?? JsMap.empty in
  match JsMap.get currentMap index with
  | Some relations =>
      (pushArr h relations relatingID,
       JsMap.set relationsMap id (JsMap.set currentMap index relations))
  | None =>
      let relations := List.length h in
      (h ++ [[relatingID]],
       JsMap.set relationsMap id (JsMap.set currentMap index relations))
  end.

(** [for (const id of relatedIDs)] from position [i] on. *)
Fixpoint walkRef (fuel : nat) (i : nat) (relatedIDs : nat)
    (index relatingID : Z) (st : Store * RefMap) : option (Store * RefMap) :=
  match fuel with
  | O => None
  | S fuel' =>
      match nth_error (readArr (fst st) relatedIDs) i with
      | None => Some st
      | Some id =>
          walkRef fuel' (S i) relatedIDs index relatingID
                  (pushRelatedRef index relatingID st id)
      end
  end.

(** Lines 139-155, the array [relatedIDs] being new. *)
Definition indexRecordRef (fuel : nat) (inverseAttributes : RelAttributes)
    (st : Store * RefMap) (relatingID : Z) (E : list Z)
  : option (Store * RefMap) :=
  let related := forRelated inverseAttributes in
  let relating := forRelating inverseAttributes in
  let relatedIDs := List.length (fst st) in
  let h := fst st ++ [E] in
  let relationsMap := snd st in
  (* forRelating *)
  let currentMap := JsMap.get relationsMap relatingID ?? JsMap.empty in
  let index := indexOf _inverseAttributes relating in
  let currentMap := JsMap.set currentMap index relatedIDs in
  let relationsMap := JsMap.set relationsMap relatingID currentMap in
  (* forRelated *)
  let indexRelated := indexOf _inverseAttributes related in
  walkRef fuel 0 relatedIDs indexRelated relatingID (h, relationsMap).

(** Every address held by a slot is in the store, and no two slots hold
    the same array. *)
Definition storeOk (st : Store * RefMap) : Prop :=
  (forall x i b, slot (snd st) x i = Some b -> (b < List.length (fst st))%nat) /\
  (forall x i x' i' b,
     slot (snd st) x i = Some b -> slot (snd st) x' i' = Some b ->
     x = x' /\ i = i').

(** The relation map [m] has, slot by slot, the content of the arrays of
    [st]. *)
Definition represents (m : RelationsMap) (st : Store * RefMap) : Prop :=
  forall x i, slot m x i = option_map (readArr (fst st)) (slot (snd st) x i).

(** A relation record: the type code, the relating entity and the related
    entities. *)
Definition RelRecord : Type := (Z * (Z * list Z))%type.

(** The records of a model in the order in which [process] meets them. *)
Definition allRecords (model : FragmentsGroup) : list RelRecord :=
  flat_map (fun rel => map (fun record => (rel, record)) (relations model rel))
           _ifcRels.

Definition count (x : Z) (l : list Z) : nat := count_occ Z.eq_dec l x.

Section Tables.

Variable relToAttributesMap : Z -> option RelAttributes.

Definition relatingIndex (rel : Z) : option Z :=
  option_map (fun a => indexOf _inverseAttributes (forRelating a))
             (relToAttributesMap rel).

Definition relatedIndex (rel : Z) : option Z :=
  option_map (fun a => indexOf _inverseAttributes (forRelated a))
             (relToAttributesMap rel).

Definition optZeqb (o : option Z) (i : Z) : bool :=
  match o with Some j => Z.eqb j i | None => false end.

(** The record sets the forward slot [i] of [x]. *)
Definition setsForward (x i : Z) (rec : RelRecord) : bool :=
  optZeqb (relatingIndex (fst rec)) i && Z.eqb (fst (snd rec)) x.

(** The related list of the last record that sets the forward slot [i] of
    [x]. *)
Definition lastForward (recs : list RelRecord) (x i : Z) : option (list Z) :=
  fold_left (fun acc rec => if setsForward x i rec then Some (snd (snd rec))
                            else acc)
            recs None.

(** The back-references pushed onto the inverse slot [i] of [x], in
    order: the relating entity of a record, once per occurrence of [x]
    among its related entities. *)
Definition backRefs (recs : list RelRecord) (x i : Z) : list Z :=
  flat_map (fun rec => if optZeqb (relatedIndex (fst rec)) i
                       then repeat (fst (snd rec)) (count x (snd (snd rec)))
                       else [])
           recs.

(** The number of times [e] takes part, under the inverse slot [i], in a
    record whose relating entity is [r]. *)
Definition participations (recs : list RelRecord) (r e i : Z) : nat :=
  list_sum
    (map (fun rec => if optZeqb (relatedIndex (fst rec)) i
                        && Z.eqb (fst (snd rec)) r
                     then count e (snd (snd rec)) else 0%nat)
         recs).

(** No role recorded on a relating entity shares its slot with a role
    recorded on a related entity, for the codes of [_ifcRels]. *)
Definition rolesSeparate : bool :=
  forallb
    (fun rel =>
       forallb
         (fun rel' =>
            match relatingIndex rel, relatedIndex rel' with
            | Some i, Some j => negb (Z.eqb i j)
            | _, _ => true
            end)
         _ifcRels)
    _ifcRels.

(** Every role of the table is one of [_inverseAttributes]. *)
Definition rolesKnown : bool :=
  forallb
    (fun rel =>
       match relToAttributesMap rel with
       | Some a =>
           negb (Z.eqb (indexOf _inverseAttributes (forRelating a)) (-1)) &&
           negb (Z.eqb (indexOf _inverseAttributes (forRelated a)) (-1))
       | None => true
       end)
    _ifcRels.

(** The content of a slot after indexing. *)
Definition slotSpec (recs : list RelRecord) (x i : Z) : option (list Z) :=
  match lastForward recs x i with
  | Some E => Some E
  | None =>
      match backRefs recs x i with
      | [] => None
      | l => Some l
      end
  end.

(** Indexing a sequence of records with the callback of [process]. *)
Definition indexAll (recs : list RelRecord) (m : RelationsMap)
  : outcome RelationsMap :=
  forEach (fun m rec => process_callback relToAttributesMap (fst rec) m (snd rec))
          recs m.

(** Indexing a sequence of records with the arrays kept in the store,
    each record with the fuel that its walk needs when it ends. *)
Fixpoint indexAllRef (recs : list RelRecord) (st : Store * RefMap)
  : option (Store * RefMap) :=
  match recs with
  | [] => Some st
  | rec :: recs' =>
      match relToAttributesMap (fst rec) with
      | None => indexAllRef recs' st
      | Some inverseAttributes =>
          match indexRecordRef (S (List.length (snd (snd rec))))
                               inverseAttributes st (fst (snd rec))
                               (snd (snd rec)) with
          | Some st' => indexAllRef recs' st'
          | None => None
          end
      end
  end.


End Tables.

(** The object obtained by creating the properties of a list in order. *)
Definition listToObject {V : Type} (l : list (string * V)) (o : JsObject.t V)
  : JsObject.t V :=
  fold_left (fun o kv => JsObject.set o (fst kv) (snd kv)) l o.

(** The object that [serializeRelations] builds for one entity. *)
Definition relationsObject (relations : JsMap.t (list Z))
  : JsObject.t (list Z) :=
  listToObject (map (fun rel => (String_of_Z (fst rel), snd rel)) relations)
               JsObject.empty.

(** The value that [JSON.parse] returns for the text [JSON_stringify]
    writes for a sequence of members. *)
Definition parseMembers (members : list (string * list (string * list Z)))
  : JsObject.t (JsObject.t (list Z)) :=
  listToObject
    (map (fun member => (fst member, listToObject (snd member) JsObject.empty))
         members)
    JsObject.empty.

(** Every character of a string satisfies [p]. *)
Fixpoint allChars (p : ascii -> bool) (s : string) : bool :=
  match s with
  | EmptyString => true
  | String c s' => p c && allChars p s'
  end.

(** Tokens whose text reads back as the same tokens: strings made of
    plain characters, and no number next to a number. *)
Fixpoint lexable (ts : list token) : Prop :=
  match ts with
  | [] => True
  | TStr s :: ts' => allChars isPlainChar s = true /\ lexable ts'
  | TNum _ :: ts' =>
      match ts' with TNum _ :: _ => False | _ => True end /\ lexable ts'
  | _ :: ts' => lexable ts'
  end.

(** Keys written by [String_of_Z]. *)
Definition numericKeys {V : Type} (o : JsObject.t V) : Prop :=
  forall k, In k (JsObject.keys o) -> exists z, k = String_of_Z z.

(** A JavaScript [Map] has one entry per key. *)
Definition RelationsMapOk (m : RelationsMap) : Prop :=
  NoDup (JsMap.keys m) /\
  forall e inner, In (e, inner) m -> NoDup (JsMap.keys inner).

(** Two relation maps with the same entities, the same slots for each
    entity and the same list in each slot. *)
Definition sameEntries (m m' : RelationsMap) : Prop :=
  forall e,
    match JsMap.get m e, JsMap.get m' e with
    | Some inner, Some inner' =>
        forall i, JsMap.get inner i = JsMap.get inner' i
    | None, None => True
    | _, _ => False
    end.

Definition outcome_map {A B : Type} (f : A -> B) (c : outcome A) : outcome B :=
  match c with
  | Ok a => Ok (f a)
  | Throws e => Throws e
  | Diverges => Diverges
  | Unmodelled => Unmodelled
  end.


(** ** Inputs of the examples *)

Definition emptyIndexer : IfcRelationsIndexer :=
  {| relationMaps := JsObject.empty; onRelationsIndexed := [] |}.

Definition modelOf (id : string) (recs : Z -> list (Z * list Z))
  : FragmentsGroup :=
  {| uuid := id;
     hasProperties := true;
     relations := recs;
     getProperties := fun _ => JNull;
     getAllPropertiesOfType := fun _ => None |}.

(** Two aggregation records with the same relating entity [1], and one
    record that attaches the property definition [10] to the entities [2]
    and [3]. *)
Definition twoAggregates : FragmentsGroup :=
  modelOf "3f1c2a9e-5b7d-4c1e-9a60-2d8e4b6f0a11"
    (fun rel =>
       if Z.eqb rel IFCRELAGGREGATES then [ (1, [2; 3]); (1, [4; 2]) ]
       else if Z.eqb rel IFCRELDEFINESBYPROPERTIES then [ (10, [2; 3]) ]
       else []).

(** The claim of bidirectionality for the records of a model, as stated:
    the forward slot returns exactly the related entities of every
    record, and every related entity refers back. *)
Definition Bidirectional (relToAttributesMap : Z -> option RelAttributes)
    (this : IfcRelationsIndexer) (model : FragmentsGroup) : Prop :=
  forall rel r E a,
    In (rel, (r, E)) (allRecords model) ->
    relToAttributesMap rel = Some a ->
    getEntityRelations this model r (forRelating a) = Some E /\
    forall e, In e E ->
      exists l, getEntityRelations this model e (forRelated a) = Some l /\
                In r l.

(** Raw lines that spell the records of [twoAggregates]. *)
Definition twoAggregatesApi : IfcAPI :=
  {| GetLineIDsWithType := fun _ rel =>
       if Z.eqb rel IFCRELAGGREGATES then [100; 101]
       else if Z.eqb rel IFCRELDEFINESBYPROPERTIES then [102; 103]
       else [];
     getItemProperties := fun _ id =>
       if Z.eqb id 100 then
         [ ("GlobalId", ROther); ("Name", RNull);
           ("RelatingObject", RHandle 1); ("RelatedObjects", RHandles [2; 3]) ]
       else if Z.eqb id 101 then
         [ ("GlobalId", ROther);
           ("RelatingObject", RHandle 1); ("RelatedObjects", RHandles [4; 2]) ]
       else if Z.eqb id 102 then
         [ ("GlobalId", ROther); ("RelatedObjects", RHandles [2; 3]);
           ("RelatingPropertyDefinition", RHandle 10) ]
       else [ ("GlobalId", ROther) ] |}.

(** A relation map whose entries are not in ascending order of key. *)
Definition unorderedMap : RelationsMap :=
  [ (5, [ (7, []); (0, [1; 2]) ]); (3, [ (1, [9]) ]) ].

(** *** A model with one wall and one property set *)

Definition IFCPROPERTYSINGLEVALUE : Z := 3650150729.
Definition IFCWALL : Z := 2391406946.

Definition simpleParameter (v : jsval) : IDSFacetParameter.t :=
  {| IDSFacetParameter.type := "simple"; IDSFacetParameter.parameter := v |}.

(** A web-ifc value [{ type, value, name }] and a handle. *)
Definition wrapped (type : Z) (v : jsval) (name : string) : jsval :=
  JObj [ ("type", JNum type); ("value", v); ("name", JStr name) ].

Definition handleTo (id : Z) : jsval :=
  JObj [ ("type", JNum 5); ("value", JNum id) ].

Definition demoWall : jsval :=
  JObj [ ("expressID", JNum 1); ("type", JNum IFCWALL);
         ("GlobalId", wrapped 1 (JStr "2O2Fr$t4X7Zf8NOew3FLOH")
                              "IFCGLOBALLYUNIQUEID") ].

Definition demoPset : jsval :=
  JObj [ ("expressID", JNum 10); ("type", JNum IFCPROPERTYSET);
         ("Name", wrapped 1 (JStr "Pset_Demo") "IFCLABEL");
         ("HasProperties",
          JArr [ handleTo 20; handleTo 21; handleTo 22; handleTo 23 ]) ].

Definition demoWidth : jsval :=
  JObj [ ("expressID", JNum 20); ("type", JNum IFCPROPERTYSINGLEVALUE);
         ("Name", wrapped 1 (JStr "Width") "IFCIDENTIFIER");
         ("NominalValue", wrapped 10 (JNum 5) "IFCINTEGER") ].

(** A logical value that is unknown. *)
Definition demoFireRated : jsval :=
  JObj [ ("expressID", JNum 21); ("type", JNum IFCPROPERTYSINGLEVALUE);
         ("Name", wrapped 1 (JStr "FireRated") "IFCIDENTIFIER");
         ("NominalValue", wrapped 3 (JNum 2) "IFCLOGICAL") ].

Definition demoTags : jsval :=
  JObj [ ("expressID", JNum 22); ("type", JNum IFCPROPERTYLISTVALUE);
         ("Name", wrapped 1 (JStr "Tags") "IFCIDENTIFIER");
         ("ListValues",
          JArr [ wrapped 1 (JStr "A") "IFCLABEL";
                 wrapped 1 (JStr "B") "IFCLABEL" ]) ].

(** A text made of blanks. *)
Definition demoNote : jsval :=
  JObj [ ("expressID", JNum 23); ("type", JNum IFCPROPERTYSINGLEVALUE);
         ("Name", wrapped 1 (JStr "Note") "IFCIDENTIFIER");
         ("NominalValue", wrapped 1 (JStr "  ") "IFCTEXT") ].

Definition demoModel : FragmentsGroup :=
  {| uuid := "7a0c5e12-9b44-4d0f-8e21-6c3f5a1b2d90";
     hasProperties := true;
     relations := fun rel =>
       if Z.eqb rel IFCRELDEFINESBYPROPERTIES then [ (10, [1]) ] else [];
     getProperties := fun id =>
       if Z.eqb id 1 then demoWall
       else if Z.eqb id 10 then demoPset
       else if Z.eqb id 20 then demoWidth
       else if Z.eqb id 21 then demoFireRated
       else if Z.eqb id 22 then demoTags
       else if Z.eqb id 23 then demoNote
       else JNull;
     getAllPropertiesOfType := fun type =>
       if Z.eqb type IFCPROPERTYSET then Some [ ("10", demoPset) ]
       else Some [] |}.

(** The indexer after [process] has indexed [demoModel]. *)
Definition demoIndexer : IfcRelationsIndexer :=
  match process sampleRelToAttributesMap emptyIndexer demoModel with
  | Ok (_, this) => this
  | _ => emptyIndexer
  end.

Definition demoEntities : IfcProperties := [ ("1", demoWall) ].

Definition demoFacet (c : Cardinality) (pset name : string)
    (v : option IDSFacetParameter.t) : IDSProperty :=
  {| cardinality := c;
     propertySet := simpleParameter (JStr pset);
     baseName := simpleParameter (JStr name);
     value := v;
     dataType := None |}.

(** ** Further members of the indexer *)

(** [delete o[k]] *)
Definition deleteProperty {V : Type} (o : JsObject.t V) (k : string)
  : JsObject.t V :=
  filter (fun member => negb (String.eqb (fst member) k)) o.

(** The payload of the event [onFragmentsDisposed] of the fragments
    manager. *)
Record FragmentsDisposed : Type := {
  groupID : string;
  fragmentIDs : list string
}.

(** [onFragmentsDisposed] (lines 80-85), the handler that the constructor
    adds to the event of the same name of the fragments manager. *)
Definition onFragmentsDisposed (this : IfcRelationsIndexer)
    (data : FragmentsDisposed) : IfcRelationsIndexer :=
  {| relationMaps := deleteProperty (relationMaps this) (groupID data);
     onRelationsIndexed := onRelationsIndexed this |}.

(** [JSON.stringify] for the value that [serializeAllRelations] writes:
    an object whose properties are the objects written by
    [JSON_stringify]. *)
Definition modelsTokens (o : JsObject.t (JsObject.t (JsObject.t (list Z))))
  : list token :=
  TLBrace ::
  commaSeparated (fun m => TStr (fst m) :: TColon :: objectTokens (snd m)) o ++
  [TRBrace].

Definition JSON_stringify_models
    (jsonObject : JsObject.t (JsObject.t (JsObject.t (list Z)))) : JSONText :=
  render (modelsTokens jsonObject).

(** [serializeAllRelations].  [for (const uuid in this.relationMaps)]
    visits the properties of the dictionary in order, and
    [this.relationMaps[uuid]] is the value of the property visited. *)
Definition serializeAllRelations (this : IfcRelationsIndexer) : JSONText :=
  let jsonObject :=
    fold_left
      (fun jsonObject member =>
         let uuid := fst member in
         let indexMap : RelationsMap := snd member in
         let object :=
           fold_left
             (fun object entry =>
                let expressID := String_of_Z (fst entry) in
                let relations := snd entry in
                let object :=
                  match JsObject.get object expressID with
                  | None => JsObject.set object expressID JsObject.empty
                  | Some _ => object
                  end in
                fold_left
                  (fun object rel =>
                     let relationID := String_of_Z (fst rel) in
                     let relationEntities := snd rel in
                     JsObject.set object expressID
                       (JsObject.set
                          (JsObject.get object expressID ?? JsObject.empty)
                          relationID relationEntities))
                  relations object)
             indexMap JsObject.empty in
         JsObject.set jsonObject uuid object)
      (relationMaps this) JsObject.empty in
  JSON_stringify_models jsonObject.

(** Texts written one after the other with commas in between. *)
Fixpoint commaJoined (l : list string) : string :=
  match l with
  | [] => EmptyString
  | [s] => s
  | s :: l' => (s ++ "," ++ commaJoined l')%string
  end.

(** *** Inputs of the examples *)

(** One aggregation line whose [RelatingObject] is [null]. *)
Definition nullRelatingApi : IfcAPI :=
  {| GetLineIDsWithType := fun _ rel =>
       if Z.eqb rel IFCRELAGGREGATES then [100] else [];
     getItemProperties := fun _ _ =>
       [ ("GlobalId", ROther);
         ("RelatingObject", RNull); ("RelatedObjects", RHandles [2; 3]) ] |}.

(** An indexer that holds a map for two models. *)
Definition twoModelsIndexer : IfcRelationsIndexer :=
  {| relationMaps :=
       [ ("3f1c2a9e-5b7d-4c1e-9a60-2d8e4b6f0a11", unorderedMap);
         ("7a0c5e12-9b44-4d0f-8e21-6c3f5a1b2d90", [ (1, [ (7, [10]) ]) ]) ];
     onRelationsIndexed := [] |}.

(** ** Notions used to state further properties of the serialization *)

(** The object that [serializeRelations] hands to [JSON.stringify]. *)
Definition objectOfMap (m : RelationsMap) : JsObject.t (JsObject.t (list Z)) :=
  listToObject
    (map (fun entry => (String_of_Z (fst entry), relationsObject (snd entry))) m)
    JsObject.empty.

(** The number that a key written by [String_of_Z] reads as. *)
Definition keyNumber (k : string) : Z := Number k ?? 0.

(** The relation map with one entry per property of an object and one
    slot per property of its values, in order. *)
Definition mapOfObject (o : JsObject.t (JsObject.t (list Z))) : RelationsMap :=
  map (fun member =>
         (keyNumber (fst member),
          map (fun im => (keyNumber (fst im), snd im)) (snd member)))
      o.

(** Keys in the order in which an object lists them: the array indices
    from [lo] on in ascending order, then the other keys, each once. *)
Fixpoint nonIndexKeys (ks : list string) : Prop :=
  match ks with
  | [] => True
  | k :: ks' =>
      JsObject.arrayIndex k = None /\ ~ In k ks' /\ nonIndexKeys ks'
  end.

Fixpoint canonicalKeys (lo : Z) (ks : list string) : Prop :=
  match ks with
  | [] => True
  | k :: ks' =>
      match JsObject.arrayIndex k with
      | Some n => lo <= n /\ canonicalKeys (n + 1) ks'
      | None => nonIndexKeys ks
      end
  end.

(** ** Notions used to state further properties of the facet *)

(** The facet [this] with another cardinality. *)
Definition withCardinality (c : Cardinality) (this : IDSProperty)
  : IDSProperty :=
  {| cardinality := c;
     propertySet := propertySet this;
     baseName := baseName this;
     value := value this;
     dataType := dataType this |}.

(** A result with another cardinality. *)
Definition resultWithCardinality (c : Cardinality) (r : IDSCheckResult.t)
  : IDSCheckResult.t :=
  {| IDSCheckResult.guid := IDSCheckResult.guid r;
     IDSCheckResult.expressID := IDSCheckResult.expressID r;
     IDSCheckResult.pass := IDSCheckResult.pass r;
     IDSCheckResult.checks := IDSCheckResult.checks r;
     IDSCheckResult.cardinality := c |}.

(** No key of an attribute bag names a value: none ends with [Value] or
    with [Values]. *)
Definition noValueKey (props : JsObject.t jsval) : Prop :=
  forall key, In key (JsObject.keys props) ->
    endsWith "Value" key = false /\ endsWith "Values" key = false.

(** What [test] reports for an entity without a matching property set. *)
Definition missingSetResult (this : IDSProperty) (expressID : Z) (guid : jsval)
  : IDSCheckResult.t :=
  {| IDSCheckResult.guid := guid;
     IDSCheckResult.expressID := expressID;
     IDSCheckResult.pass := false;
     IDSCheckResult.checks := [propertySetMissing this];
     IDSCheckResult.cardinality := cardinality this |}.

(** *** Further inputs of the examples *)

Definition IFCPROPERTYREFERENCEVALUE : Z := 941946838.

(** A property that refers to another entity: it has no value attribute. *)
Definition demoReference : jsval :=
  JObj [ ("expressID", JNum 24); ("type", JNum IFCPROPERTYREFERENCEVALUE);
         ("Name", wrapped 1 (JStr "Maker") "IFCIDENTIFIER");
         ("UsageName", JNull);
         ("PropertyReference", handleTo 30) ].

(** A complex property named as [demoWidth] is. *)
Definition demoComplex : jsval :=
  JObj [ ("expressID", JNum 25); ("type", JNum IFCCOMPLEXPROPERTY);
         ("Name", wrapped 1 (JStr "Width") "IFCIDENTIFIER");
         ("UsageName", wrapped 1 (JStr "Width") "IFCIDENTIFIER");
         ("HasProperties", JArr [ handleTo 20 ]) ].

Definition demoFacetTyped (c : Cardinality) (pset name : string)
    (v : option IDSFacetParameter.t) (type : string) : IDSProperty :=
  {| cardinality := c;
     propertySet := simpleParameter (JStr pset);
     baseName := simpleParameter (JStr name);
     value := v;
     dataType := Some type |}.

(** An entry of a table that files both roles of a relation under the
    same name. *)
Definition sameRoleAttributes : RelAttributes :=
  {| forRelating := "IsGroupedBy"; forRelated := "IsGroupedBy" |}.

(** [demoWidth] with no nominal value: the attribute is optional. *)
Definition demoWidthNoValue : jsval :=
  JObj [ ("expressID", JNum 20); ("type", JNum IFCPROPERTYSINGLEVALUE);
         ("Name", wrapped 1 (JStr "Width") "IFCIDENTIFIER");
         ("NominalValue", JNull) ].

(** [demoModel] with [demoWidthNoValue] in place of [demoWidth]. *)
Definition demoModelNoValue : FragmentsGroup :=
  {| uuid := uuid demoModel;
     hasProperties := true;
     relations := relations demoModel;
     getProperties := fun id =>
       if Z.eqb id 20 then demoWidthNoValue else getProperties demoModel id;
     getAllPropertiesOfType := getAllPropertiesOfType demoModel |}.
(** * Properties *)

(** ** Maps and objects *)

Lemma JsMap_get_set_eq {V : Type} (m : JsMap.t V) (k : Z) (v : V) :
  JsMap.get (JsMap.set m k v) k = Some v.
Proof.
  induction m as [|[k' v'] m IH]; simpl.
  - now rewrite Z.eqb_refl.
  - destruct (Z.eqb k' k) eqn:E; simpl; rewrite E; auto.
Qed.

Lemma JsMap_get_set_ne {V : Type} (m : JsMap.t V) (k k' : Z) (v : V) :
  k <> k' -> JsMap.get (JsMap.set m k v) k' = JsMap.get m k'.
Proof.
  intros Hne. induction m as [|[k0 v0] m IH]; simpl.
  - destruct (Z.eqb_spec k k'); congruence.
  - destruct (Z.eqb_spec k0 k); simpl.
    + subst. destruct (Z.eqb_spec k k'); congruence.
    + now rewrite IH.
Qed.

Lemma JsMap_get_set {V : Type} (m : JsMap.t V) (k k' : Z) (v : V) :
  JsMap.get (JsMap.set m k v) k' =
  if Z.eqb k k' then Some v else JsMap.get m k'.
Proof.
  destruct (Z.eqb_spec k k').
  - subst. apply JsMap_get_set_eq.
  - now apply JsMap_get_set_ne.
Qed.

Lemma slot_set {V : Type} (m : JsMap.t (JsMap.t V)) (x i k j : Z) (l : V) :
  slot (JsMap.set m k (JsMap.set (JsMap.get m k ?? JsMap.empty) j l)) x i =
  if Z.eqb k x && Z.eqb j i then Some l else slot m x i.
Proof.
  unfold slot. rewrite JsMap_get_set.
  destruct (Z.eqb_spec k x); simpl; auto.
  subst. rewrite JsMap_get_set.
  destruct (Z.eqb_spec j i); auto.
  destruct (JsMap.get m x); reflexivity.
Qed.

Lemma forEach_app {A S : Type} (body : S -> A -> outcome S) (l1 l2 : list A)
    (s : S) :
  forEach body (l1 ++ l2) s = s' <- forEach body l1 s ;; forEach body l2 s'.
Proof.
  revert s. induction l1 as [|a l1 IH]; intros s; simpl; auto.
  destruct (body s a); simpl; auto.
Qed.

Lemma forEach_ext {A S : Type} (f g : S -> A -> outcome S) (l : list A) (s : S) :
  (forall s a, In a l -> f s a = g s a) -> forEach f l s = forEach g l s.
Proof.
  revert s. induction l as [|a l IH]; intros s H; simpl; auto.
  rewrite H by now left.
  destruct (g s a); simpl; auto.
  apply IH. intros; apply H; now right.
Qed.

(** ** One record *)

Lemma slot_pushRelated (j r : Z) (m : RelationsMap) (id x i : Z) :
  slot (pushRelated j r m id) x i =
  if Z.eqb id x && Z.eqb j i then Some ((slot m x i ?? []) ++ [r])
  else slot m x i.
Proof.
  unfold pushRelated. rewrite slot_set.
  destruct (Z.eqb_spec id x); simpl; auto.
  destruct (Z.eqb_spec j i); auto.
  subst. unfold slot. destruct (JsMap.get m x); reflexivity.
Qed.

Lemma count_cons (x e : Z) (l : list Z) :
  count x (e :: l) = if Z.eqb e x then S (count x l) else count x l.
Proof.
  unfold count. simpl.
  destruct (Z.eq_dec e x), (Z.eqb_spec e x); congruence.
Qed.

Lemma slot_fold_pushRelated (j r : Z) (E : list Z) (m : RelationsMap) (x i : Z) :
  slot (fold_left (pushRelated j r) E m) x i =
  if Z.eqb j i && (0 <? count x E)%nat
  then Some ((slot m x i ?? []) ++ repeat r (count x E))
  else slot m x i.
Proof.
  revert m. induction E as [|e E IH]; intros m.
  - simpl. now rewrite andb_false_r.
  - simpl fold_left. rewrite IH, slot_pushRelated, count_cons.
    destruct (Z.eqb_spec j i); simpl.
    2:{ now rewrite andb_false_r. }
    destruct (Z.eqb_spec e x); simpl; auto.
    destruct (count x E) as [|c]; simpl.
    + reflexivity.
    + now rewrite <- app_assoc.
Qed.

Section IndexerFacts.

Variable relToAttributesMap : Z -> option RelAttributes.

Lemma process_indexRecord_slot (a : RelAttributes) (m : RelationsMap)
    (r : Z) (E : list Z) :
  let fi := indexOf _inverseAttributes (forRelating a) in
  let ri := indexOf _inverseAttributes (forRelated a) in
  fi <> ri ->
  exists m',
    process_indexRecord a m r E = Ok m' /\
    forall x i,
      slot m' x i =
      if Z.eqb ri i && (0 <? count x E)%nat
      then Some ((slot m x i ?? []) ++ repeat r (count x E))
      else if Z.eqb r x && Z.eqb fi i then Some E
      else slot m x i.
Proof.
  intros fi ri Hne. unfold process_indexRecord, pushesOntoWalked.
  fold fi. fold ri.
  destruct (Z.eqb_spec fi ri) as [|_]; [contradiction|]. simpl.
  eexists; split; [reflexivity|].
  intros x i. rewrite slot_fold_pushRelated, slot_set.
  destruct (Z.eqb_spec ri i); simpl; auto.
  subst i. destruct (Z.eqb_spec fi ri); [contradiction|].
  now rewrite andb_false_r.
Qed.

Lemma indexOfFrom_range (l : list string) (x : string) (i : Z) :
  indexOfFrom i l x = -1 \/ i <= indexOfFrom i l x < i + Z.of_nat (List.length l).
Proof.
  revert i. induction l as [|y l IH]; intros i; simpl; auto.
  destruct (String.eqb y x).
  - right. lia.
  - destruct (IH (i + 1)); [now left | right; lia].
Qed.

Lemma lastForward_snoc (recs : list RelRecord) (rec : RelRecord) (x i : Z) :
  lastForward relToAttributesMap (recs ++ [rec]) x i =
  if setsForward relToAttributesMap x i rec then Some (snd (snd rec))
  else lastForward relToAttributesMap recs x i.
Proof.
  unfold lastForward. now rewrite fold_left_app.
Qed.

Lemma lastForward_In (recs : list RelRecord) (x i : Z) (E : list Z) :
  lastForward relToAttributesMap recs x i = Some E ->
  exists rec, In rec recs /\ setsForward relToAttributesMap x i rec = true
              /\ snd (snd rec) = E.
Proof.
  induction recs as [|rec recs IH] using rev_ind.
  - discriminate.
  - rewrite lastForward_snoc.
    destruct (setsForward relToAttributesMap x i rec) eqn:Hs.
    + intros [= <-]. exists rec. split; [apply in_or_app; right; now left|auto].
    + intros H. destruct (IH H) as (rec' & Hin & Hrec').
      exists rec'. split; [apply in_or_app; now left|auto].
Qed.

Lemma lastForward_none (recs : list RelRecord) (x i : Z) :
  (forall rec, In rec recs -> setsForward relToAttributesMap x i rec = false) ->
  lastForward relToAttributesMap recs x i = None.
Proof.
  intros H. destruct (lastForward relToAttributesMap recs x i) eqn:HL; auto.
  apply lastForward_In in HL. destruct HL as (rec & Hin & Hs & _).
  rewrite (H rec Hin) in Hs. discriminate.
Qed.

Lemma backRefs_snoc (recs : list RelRecord) (rec : RelRecord) (x i : Z) :
  backRefs relToAttributesMap (recs ++ [rec]) x i =
  backRefs relToAttributesMap recs x i ++
  (if optZeqb (relatedIndex relToAttributesMap (fst rec)) i
   then repeat (fst (snd rec)) (count x (snd (snd rec))) else []).
Proof.
  unfold backRefs. rewrite flat_map_app. simpl. now rewrite app_nil_r.
Qed.

Lemma rolesSeparate_ne (rel rel' : Z) (i j : Z) :
  rolesSeparate relToAttributesMap = true ->
  In rel _ifcRels -> In rel' _ifcRels ->
  relatingIndex relToAttributesMap rel = Some i ->
  relatedIndex relToAttributesMap rel' = Some j ->
  i <> j.
Proof.
  unfold rolesSeparate. intros H Hin Hin' Hi Hj.
  rewrite forallb_forall in H. specialize (H rel Hin).
  rewrite forallb_forall in H. specialize (H rel' Hin').
  rewrite Hi, Hj in H. destruct (Z.eqb_spec i j); [discriminate|auto].
Qed.

Lemma indexAll_slots (recs : list RelRecord) :
  rolesSeparate relToAttributesMap = true ->
  (forall rec, In rec recs -> In (fst rec) _ifcRels) ->
  exists m,
    indexAll relToAttributesMap recs JsMap.empty = Ok m /\
    forall x i, slot m x i = slotSpec relToAttributesMap recs x i.
Proof.
  intros Hsep. induction recs as [|rec recs IH] using rev_ind; intros Hrels.
  - exists JsMap.empty. split; reflexivity.
  - destruct IH as (m & Hm & Hslots).
    { intros rec' Hin. apply Hrels, in_or_app. now left. }
    assert (Hrel : In (fst rec) _ifcRels).
    { apply Hrels, in_or_app. right. now left. }
    unfold indexAll in *. rewrite forEach_app, Hm.
    destruct rec as [rel [r E]].
    change (fst (rel, (r, E))) with rel in Hrel.
    cbn [bind forEach fst snd process_callback].
    destruct (relToAttributesMap rel) as [a|] eqn:Ha.
    + assert (Hne : indexOf _inverseAttributes (forRelating a) <>
                    indexOf _inverseAttributes (forRelated a)).
      { apply (rolesSeparate_ne rel rel); auto.
        - unfold relatingIndex. now rewrite Ha.
        - unfold relatedIndex. now rewrite Ha. }
      destruct (process_indexRecord_slot a m r E Hne) as (m' & Hm' & Hs').
      rewrite Hm'. exists m'. split; [reflexivity|].
      intros x i. unfold slotSpec.
      rewrite Hs', lastForward_snoc, backRefs_snoc.
      unfold setsForward, relatingIndex, relatedIndex.
      cbn [fst snd]. rewrite Ha. cbn [option_map optZeqb].
      set (fi := indexOf _inverseAttributes (forRelating a)) in *.
      set (ri := indexOf _inverseAttributes (forRelated a)) in *.
      rewrite Hslots. unfold slotSpec.
      destruct (Z.eqb_spec ri i) as [Hri|Hri]; cbn [andb].
      * subst i. destruct (Z.eqb_spec fi ri); [contradiction|]. cbn [andb].
        rewrite lastForward_none.
        2:{ intros rec' Hin. unfold setsForward.
            destruct (relatingIndex relToAttributesMap (fst rec')) as [i'|] eqn:Hi';
              cbn [optZeqb andb]; auto.
            destruct (Z.eqb_spec i' ri); auto. exfalso.
            refine (rolesSeparate_ne (fst rec') rel i' ri Hsep _ Hrel Hi' _ _); auto.
            - apply Hrels, in_or_app. now left.
            - unfold relatedIndex. now rewrite Ha. }
        destruct (count x E) as [|c] eqn:Hc; cbn [Nat.ltb Nat.leb repeat].
        -- now rewrite app_nil_r, andb_false_r.
        -- destruct (backRefs relToAttributesMap recs x ri); reflexivity.
      * rewrite app_nil_r.
        rewrite andb_comm. destruct (Z.eqb_spec fi i); cbn [andb]; auto.
        destruct (Z.eqb_spec r x); cbn [andb]; auto.
    + exists m. split; [reflexivity|].
      intros x i. unfold slotSpec.
      rewrite Hslots, lastForward_snoc, backRefs_snoc.
      unfold setsForward, relatingIndex, relatedIndex.
      cbn [fst snd]. rewrite Ha. cbn [option_map optZeqb andb].
      now rewrite app_nil_r.
Qed.

End IndexerFacts.

Lemma JsObject_get_replace {V : Type} (o : JsObject.t V) (k k' : string) (v : V) :
  JsObject.get (JsObject.replace o k v) k' =
  if String.eqb k k'
  then match JsObject.get o k with Some _ => Some v | None => None end
  else JsObject.get o k'.
Proof.
  induction o as [|[k0 v0] o IH]; simpl.
  - now destruct (String.eqb k k').
  - destruct (String.eqb_spec k0 k); simpl.
    + subst k0. destruct (String.eqb_spec k k'); auto.
    + destruct (String.eqb_spec k0 k'); auto.
      subst k0. destruct (String.eqb_spec k k'); congruence.
Qed.

Lemma JsObject_get_insertIndex {V : Type} (o : JsObject.t V) (n : Z)
    (k k' : string) (v : V) :
  JsObject.get o k = None ->
  JsObject.get (JsObject.insertIndex o n k v) k' =
  if String.eqb k k' then Some v else JsObject.get o k'.
Proof.
  induction o as [|[k0 v0] o IH]; simpl; intros Hk; auto.
  destruct (String.eqb_spec k0 k); [discriminate|].
  destruct (JsObject.arrayIndex k0) as [n'|]; [destruct (n' <? n)|]; simpl; auto.
  rewrite (IH Hk).
  destruct (String.eqb_spec k0 k'); auto.
  destruct (String.eqb_spec k k'); congruence.
Qed.

Lemma JsObject_get_app {V : Type} (o o' : JsObject.t V) (k : string) :
  JsObject.get (o ++ o') k =
  match JsObject.get o k with Some v => Some v | None => JsObject.get o' k end.
Proof.
  induction o as [|[k0 v0] o IH]; simpl; auto.
  destruct (String.eqb k0 k); auto.
Qed.

Lemma JsObject_get_set {V : Type} (o : JsObject.t V) (k k' : string) (v : V) :
  JsObject.get (JsObject.set o k v) k' =
  if String.eqb k k' then Some v else JsObject.get o k'.
Proof.
  unfold JsObject.set.
  destruct (JsObject.get o k) eqn:Hk.
  - rewrite JsObject_get_replace, Hk. reflexivity.
  - destruct (JsObject.arrayIndex k).
    + now apply JsObject_get_insertIndex.
    + rewrite JsObject_get_app. simpl.
      destruct (String.eqb_spec k k').
      * subst. now rewrite Hk.
      * now destruct (JsObject.get o k').
Qed.

Lemma JsObject_get_set_eq {V : Type} (o : JsObject.t V) (k : string) (v : V) :
  JsObject.get (JsObject.set o k v) k = Some v.
Proof. now rewrite JsObject_get_set, String.eqb_refl. Qed.

(** ** [process] as the indexing of a sequence of records *)

Lemma forEach_flat_map {A B S : Type} (g : A -> S -> B -> outcome S)
    (h : A -> list B) (l : list A) (s : S) :
  forEach (fun s a => forEach (g a) (h a) s) l s =
  forEach (fun s p => g (fst p) s (snd p))
          (flat_map (fun a => map (fun b => (a, b)) (h a)) l) s.
Proof.
  revert s. induction l as [|a l IH]; intros s; simpl; auto.
  rewrite forEach_app.
  assert (E : forall s, forEach (fun s p => g (fst p) s (snd p))
                                (map (fun b => (a, b)) (h a)) s =
                        forEach (g a) (h a) s).
  { clear. induction (h a) as [|b l IH]; intros s; simpl; auto.
    destruct (g a s b); simpl; auto. }
  rewrite E. destruct (forEach (g a) (h a) s); simpl; auto.
Qed.

Lemma allRecords_rel (model : FragmentsGroup) (rec : RelRecord) :
  In rec (allRecords model) -> In (fst rec) _ifcRels.
Proof.
  unfold allRecords. rewrite in_flat_map.
  intros (rel & Hrel & Hin). rewrite in_map_iff in Hin.
  destruct Hin as (record & <- & _). exact Hrel.
Qed.

Section ProcessFacts.

Variable relToAttributesMap : Z -> option RelAttributes.


Lemma process_fresh (this : IfcRelationsIndexer) (model : FragmentsGroup) :
  hasProperties model = true ->
  JsObject.get (relationMaps this) (uuid model) = None ->
  process relToAttributesMap this model =
  m <- indexAll relToAttributesMap (allRecords model) JsMap.empty ;;
  Ok (m, setRelationMap this model m).
Proof.
  intros Hp Hm. unfold process. rewrite Hp, Hm. cbn [negb].
  unfold getRelationMap, indexAll, allRecords.
  now rewrite (forEach_flat_map
                 (fun rel m rec => process_callback relToAttributesMap rel m rec)).
Qed.


Lemma getEntityRelations_slot (this : IfcRelationsIndexer)
    (model : FragmentsGroup) (m : RelationsMap) (x : Z) (name : string) :
  JsObject.get (relationMaps this) (uuid model) = Some m ->
  getEntityRelations this model x name =
  if Z.eqb (indexOf _inverseAttributes name) (-1) then None
  else slot m x (indexOf _inverseAttributes name).
Proof.
  intros Hm. unfold getEntityRelations, slot. rewrite Hm.
  destruct (JsMap.get m x) as [cm|].
  - destruct (Z.eqb _ (-1)); auto. now destruct (JsMap.get cm _).
  - now destruct (Z.eqb _ (-1)).
Qed.

Lemma process_slots (this : IfcRelationsIndexer) (model : FragmentsGroup) :
  rolesSeparate relToAttributesMap = true ->
  hasProperties model = true ->
  JsObject.get (relationMaps this) (uuid model) = None ->
  exists m,
    process relToAttributesMap this model =
      Ok (m, setRelationMap this model m) /\
    forall x name,
      getEntityRelations (setRelationMap this model m) model x name =
      if Z.eqb (indexOf _inverseAttributes name) (-1) then None
      else slotSpec relToAttributesMap (allRecords model) x
                    (indexOf _inverseAttributes name).
Proof.
  intros Hsep Hp Hfresh.
  destruct (indexAll_slots relToAttributesMap (allRecords model) Hsep
              (allRecords_rel model)) as (m & Hm & Hslots).
  exists m. split.
  - rewrite process_fresh by assumption. now rewrite Hm.
  - intros x name.
    rewrite (getEntityRelations_slot _ _ m).
    + now rewrite Hslots.
    + unfold setRelationMap. cbn [relationMaps]. apply JsObject_get_set_eq.
Qed.

Lemma rolesKnown_spec (rel : Z) (a : RelAttributes) :
  rolesKnown relToAttributesMap = true ->
  In rel _ifcRels ->
  relToAttributesMap rel = Some a ->
  Z.eqb (indexOf _inverseAttributes (forRelating a)) (-1) = false /\
  Z.eqb (indexOf _inverseAttributes (forRelated a)) (-1) = false.
Proof.
  unfold rolesKnown. intros H Hin Ha.
  rewrite forallb_forall in H. specialize (H rel Hin). rewrite Ha in H.
  apply andb_prop in H. destruct H as [H1 H2].
  now rewrite negb_true_iff in H1, H2.
Qed.

Lemma In_backRefs (recs : list RelRecord) (rel r e : Z) (E : list Z) (i : Z) :
  In (rel, (r, E)) recs ->
  relatedIndex relToAttributesMap rel = Some i ->
  In e E ->
  In r (backRefs relToAttributesMap recs e i).
Proof.
  intros Hin Hi He. unfold backRefs. rewrite in_flat_map.
  exists (rel, (r, E)). split; auto. cbn [fst snd]. rewrite Hi.
  cbn [optZeqb]. rewrite Z.eqb_refl.
  assert (Hc : (count e E > 0)%nat) by (apply count_occ_In; exact He).
  destruct (count e E); [lia|]. now left.
Qed.

Lemma lastForward_app (pre post : list RelRecord) (x i : Z) :
  (forall rec, In rec post -> setsForward relToAttributesMap x i rec = false) ->
  lastForward relToAttributesMap (pre ++ post) x i =
  lastForward relToAttributesMap pre x i.
Proof.
  induction post as [|rec post IH] using rev_ind; intros H.
  - now rewrite app_nil_r.
  - rewrite app_assoc, lastForward_snoc, H.
    + apply IH. intros rec' Hin. apply H, in_or_app. now left.
    + apply in_or_app. right. now left.
Qed.

Lemma lastForward_is_some (recs : list RelRecord) (rec : RelRecord) (x i : Z) :
  In rec recs -> setsForward relToAttributesMap x i rec = true ->
  exists E, lastForward relToAttributesMap recs x i = Some E.
Proof.
  induction recs as [|rec' recs IH] using rev_ind; [intros []|].
  intros Hin Hs. rewrite lastForward_snoc.
  destruct (setsForward relToAttributesMap x i rec') eqn:Hs'; eauto.
  apply in_app_or in Hin. destruct Hin as [Hin|[<-|[]]]; [eauto|congruence].
Qed.

End ProcessFacts.

(** ** Arrays by reference: agreement with [process_indexRecord] *)

Lemma readArr_app_old (h h' : Store) (a : nat) :
  (a < List.length h)%nat -> readArr (h ++ h') a = readArr h a.
Proof. intros H. unfold readArr. now apply app_nth1. Qed.

Lemma readArr_app_new (h : Store) (l : list Z) :
  readArr (h ++ [l]) (List.length h) = l.
Proof.
  unfold readArr. rewrite app_nth2 by lia. now rewrite Nat.sub_diag.
Qed.

Lemma length_pushArr (h : Store) (a : nat) (x : Z) :
  List.length (pushArr h a x) = List.length h.
Proof.
  revert a. induction h as [|l h IH]; intros a; simpl; auto.
  destruct a; simpl; auto.
Qed.

Lemma readArr_pushArr (h : Store) (a c : nat) (x : Z) :
  (a < List.length h)%nat ->
  readArr (pushArr h a x) c =
  if Nat.eqb c a then readArr h a ++ [x] else readArr h c.
Proof.
  unfold readArr. revert a c. induction h as [|l h IH]; intros a c Ha.
  - simpl in Ha. lia.
  - destruct a as [|a]; destruct c as [|c]; simpl; auto.
    apply IH. simpl in Ha. lia.
Qed.

Lemma slot_lookup {V : Type} (m : JsMap.t (JsMap.t V)) (x i : Z) :
  JsMap.get (JsMap.get m x ?? JsMap.empty) i = slot m x i.
Proof. unfold slot. now destruct (JsMap.get m x). Qed.

(** What one turn of the loop does to the store and to the slots. *)
Lemma pushRelatedRef_turn (j r id : Z) (m : RelationsMap) (st : Store * RefMap) :
  storeOk st -> represents m st ->
  let st' := pushRelatedRef j r st id in
  storeOk st' /\
  represents (pushRelated j r m id) st' /\
  (forall x i, x <> id \/ i <> j -> slot (snd st') x i = slot (snd st) x i) /\
  (forall c, (c < List.length (fst st))%nat -> slot (snd st) id j <> Some c ->
             readArr (fst st') c = readArr (fst st) c) /\
  (forall c, slot (snd st) id j = Some c ->
             readArr (fst st') c = readArr (fst st) c ++ [r] /\
             slot (snd st') id j = Some c).
Proof.
  destruct st as [h mh]. intros [Hin Hinj] Hrep. unfold pushRelatedRef.
  unfold represents in Hrep. cbn [fst snd] in *. rewrite slot_lookup.
  destruct (slot mh id j) as [b|] eqn:Hb; cbv zeta;
    unfold storeOk, represents; cbn [fst snd].
  - assert (Hs : forall x i,
               slot (JsMap.set mh id
                       (JsMap.set (JsMap.get mh id ?? JsMap.empty) j b)) x i =
               slot mh x i).
    { intros x i. rewrite slot_set.
      destruct (Z.eqb_spec id x); cbn [andb]; auto.
      destruct (Z.eqb_spec j i); auto. subst. auto. }
    pose proof (Hin _ _ _ Hb) as Hlt.
    split; [|split; [|split; [|split]]].
    + split.
      * intros x i c. rewrite Hs, length_pushArr. apply Hin.
      * intros x i x' i' c. rewrite !Hs. apply Hinj.
    + intros x i. rewrite slot_pushRelated, Hs, Hrep.
      destruct (slot mh x i) as [c|] eqn:Hc; cbn [option_map].
      * rewrite readArr_pushArr by assumption.
        destruct (Nat.eqb_spec c b).
        -- subst c. destruct (Hinj _ _ _ _ _ Hc Hb) as [-> ->].
           rewrite !Z.eqb_refl. reflexivity.
        -- destruct (Z.eqb_spec id x); cbn [andb]; auto.
           destruct (Z.eqb_spec j i); auto. subst. congruence.
      * destruct (Z.eqb_spec id x); cbn [andb]; auto.
        destruct (Z.eqb_spec j i); auto. subst. congruence.
    + intros x i _. apply Hs.
    + intros c Hc Hne. rewrite readArr_pushArr by assumption.
      destruct (Nat.eqb_spec c b); auto. subst. congruence.
    + intros c [= <-]. rewrite readArr_pushArr, Nat.eqb_refl by assumption.
      split; auto. rewrite Hs. exact Hb.
  - assert (Hs : forall x i,
               slot (JsMap.set mh id
                       (JsMap.set (JsMap.get mh id ?? JsMap.empty) j
                                  (List.length h))) x i =
               if Z.eqb id x && Z.eqb j i then Some (List.length h)
               else slot mh x i).
    { intros x i. apply slot_set. }
    split; [|split; [|split; [|split]]].
    + split.
      * intros x i c. rewrite Hs, length_app. cbn [List.length].
        destruct (Z.eqb id x && Z.eqb j i).
        -- intros [= <-]. lia.
        -- intros Hc. apply Hin in Hc. lia.
      * intros x i x' i' c. rewrite !Hs.
        destruct (Z.eqb_spec id x); destruct (Z.eqb_spec j i); cbn [andb];
          destruct (Z.eqb_spec id x'); destruct (Z.eqb_spec j i'); cbn [andb];
          subst;
          try (intros [= <-] Hc; apply Hin in Hc; lia);
          try (intros Hc [= <-]; apply Hin in Hc; lia);
          try (intros; split; reflexivity);
          try apply Hinj.
    + intros x i. rewrite slot_pushRelated, Hs, Hrep.
      destruct (Z.eqb_spec id x); cbn [andb].
      * destruct (Z.eqb_spec j i).
        -- subst. rewrite Hb. cbn [option_map orElse app].
           now rewrite readArr_app_new.
        -- destruct (slot mh x i) as [c|] eqn:Hc; cbn [option_map]; auto.
           rewrite readArr_app_old; auto. now apply (Hin x i).
      * destruct (slot mh x i) as [c|] eqn:Hc; cbn [option_map]; auto.
        rewrite readArr_app_old; auto. now apply (Hin x i).
    + intros x i Hne. rewrite Hs.
      destruct (Z.eqb_spec id x); cbn [andb]; auto.
      destruct (Z.eqb_spec j i); auto. subst. destruct Hne; congruence.
    + intros c Hc _. now apply readArr_app_old.
    + intros c [=].
Qed.

Lemma walkRef_agrees (a : nat) (j r fi : Z) (l : list Z) :
  forall (pre : list Z) (st : Store * RefMap) (m : RelationsMap),
    storeOk st -> represents m st ->
    readArr (fst st) a = pre ++ l ->
    slot (snd st) r fi = Some a ->
    (forall id, In id l -> id <> r \/ j <> fi) ->
    exists st',
      walkRef (S (List.length l)) (List.length pre) a j r st = Some st' /\
      storeOk st' /\
      represents (fold_left (pushRelated j r) l m) st'.
Proof.
  induction l as [|id l IH]; intros pre st m Hok Hrep Hread Hslot Hne.
  - exists st. cbn [walkRef List.length fold_left]. rewrite Hread, app_nil_r.
    replace (nth_error pre (List.length pre)) with (@None Z); auto.
    symmetry. apply nth_error_None. lia.
  - cbn [walkRef List.length fold_left]. rewrite Hread.
    rewrite nth_error_app2, Nat.sub_diag by lia. cbn [nth_error].
    destruct (pushRelatedRef_turn j r id m st Hok Hrep)
      as (Hok' & Hrep' & Hother & Hkeep & _).
    assert (Ha : (a < List.length (fst st))%nat).
    { destruct Hok as [Hin _]. now apply (Hin r fi). }
    assert (Hna : slot (snd st) id j <> Some a).
    { intros Hc. destruct Hok as [_ Hinj].
      destruct (Hinj _ _ _ _ _ Hc Hslot) as [-> ->].
      destruct (Hne r (or_introl eq_refl)); congruence. }
    destruct (IH (pre ++ [id]) (pushRelatedRef j r st id) (pushRelated j r m id))
      as (st' & Hwalk & Hst'); auto.
    + rewrite (Hkeep a Ha Hna), Hread, <- app_assoc. reflexivity.
    + rewrite Hother; auto.
      destruct (Hne id (or_introl eq_refl)); [left|right]; congruence.
    + intros id' Hin. apply Hne. now right.
    + exists st'. split; auto.
      rewrite length_app, Nat.add_comm in Hwalk. exact Hwalk.
Qed.

Lemma not_pushesOntoWalked (fi ri r : Z) (E : list Z) :
  pushesOntoWalked fi ri r E = false ->
  forall id, In id E -> id <> r \/ ri <> fi.
Proof.
  unfold pushesOntoWalked. intros H id Hin.
  destruct (Z.eqb_spec fi ri) as [Heq|Hneq]; [|right; congruence].
  cbn [andb] in H. left. intros ->.
  assert (existsb (Z.eqb r) E = true); [|congruence].
  apply existsb_exists. exists r. split; auto. apply Z.eqb_refl.
Qed.

(** When the loop does not push onto the array it walks, the indexing of
    a record by reference ends, within a fuel of one more than the number
    of related entities, in a store that the relation map of
    [process_indexRecord] represents. *)
Lemma indexRecordRef_agrees (a : RelAttributes) (st : Store * RefMap)
    (m : RelationsMap) (r : Z) (E : list Z) :
  storeOk st -> represents m st ->
  pushesOntoWalked (indexOf _inverseAttributes (forRelating a))
                   (indexOf _inverseAttributes (forRelated a)) r E = false ->
  exists st' m',
    indexRecordRef (S (List.length E)) a st r E = Some st' /\
    process_indexRecord a m r E = Ok m' /\
    storeOk st' /\ represents m' st'.
Proof.
  intros Hok Hrep Hno. unfold indexRecordRef, process_indexRecord.
  rewrite Hno. cbv zeta.
  set (fi := indexOf _inverseAttributes (forRelating a)) in *.
  set (ri := indexOf _inverseAttributes (forRelated a)) in *.
  destruct st as [h mh]. destruct Hok as [Hin Hinj].
  unfold represents in Hrep. cbn [fst snd] in *.
  set (mh1 := JsMap.set mh r
                (JsMap.set (JsMap.get mh r ?? JsMap.empty) fi (List.length h))).
  set (m1 := JsMap.set m r (JsMap.set (JsMap.get m r ?? JsMap.empty) fi E)).
  assert (Hs : forall x i, slot mh1 x i =
                           if Z.eqb r x && Z.eqb fi i then Some (List.length h)
                           else slot mh x i).
  { intros x i. apply slot_set. }
  assert (Hok1 : storeOk (h ++ [E], mh1)).
  { split; cbn [fst snd].
    - intros x i c. rewrite Hs, length_app. cbn [List.length].
      destruct (Z.eqb r x && Z.eqb fi i).
      + intros [= <-]. lia.
      + intros Hc. apply Hin in Hc. lia.
    - intros x i x' i' c. rewrite !Hs.
      destruct (Z.eqb_spec r x); destruct (Z.eqb_spec fi i); cbn [andb];
        destruct (Z.eqb_spec r x'); destruct (Z.eqb_spec fi i'); cbn [andb];
        subst;
        try (intros [= <-] Hc; apply Hin in Hc; lia);
        try (intros Hc [= <-]; apply Hin in Hc; lia);
        try (intros; split; reflexivity);
        try apply Hinj. }
  assert (Hrep1 : represents m1 (h ++ [E], mh1)).
  { intros x i. cbn [fst snd]. unfold m1. rewrite slot_set, Hs, Hrep.
    destruct (Z.eqb r x && Z.eqb fi i); cbn [option_map].
    - now rewrite readArr_app_new.
    - destruct (slot mh x i) as [c|] eqn:Hc; cbn [option_map]; auto.
      rewrite readArr_app_old; auto. now apply (Hin x i). }
  destruct (walkRef_agrees (List.length h) ri r fi E [] (h ++ [E], mh1) m1)
    as (st' & Hwalk & Hok' & Hrep'); auto.
  - cbn [fst app]. apply readArr_app_new.
  - cbn [snd]. rewrite Hs, !Z.eqb_refl. reflexivity.
  - now apply not_pushesOntoWalked.
  - exists st'. eexists. split; [exact Hwalk|]. split; [reflexivity|].
    split; assumption.
Qed.

Lemma JsMap_get_map {V W : Type} (f : V -> W) (m : JsMap.t V) (k : Z) :
  JsMap.get (map (fun en => (fst en, f (snd en))) m) k =
  option_map f (JsMap.get m k).
Proof.
  induction m as [|[k0 v0] m IH]; simpl; auto.
  destruct (Z.eqb k0 k); auto.
Qed.

(** Every store is represented by a relation map. *)
Lemma represents_exists (st : Store * RefMap) : exists m, represents m st.
Proof.
  exists (map (fun en =>
                 (fst en,
                  map (fun sl => (fst sl, readArr (fst st) (snd sl))) (snd en)))
              (snd st)).
  intros x i. unfold slot.
  rewrite (JsMap_get_map
             (fun cm : JsMap.t nat =>
                map (fun sl => (fst sl, readArr (fst st) (snd sl))) cm)).
  destruct (JsMap.get (snd st) x) as [cm|]; cbn [option_map]; auto.
  apply (JsMap_get_map (readArr (fst st))).
Qed.

Lemma walkRef_diverges (a : nat) (j r : Z) (fuel : nat) :
  forall (i : nat) (st : Store * RefMap),
    storeOk st ->
    slot (snd st) r j = Some a ->
    (exists k, (i <= k)%nat /\ nth_error (readArr (fst st) a) k = Some r) ->
    walkRef fuel i a j r st = None.
Proof.
  induction fuel as [|fuel IH]; intros i st Hok Hslot (k & Hik & Hk);
    [reflexivity|].
  cbn [walkRef].
  assert (Hlen : (k < List.length (readArr (fst st) a))%nat).
  { apply nth_error_Some. congruence. }
  destruct (nth_error (readArr (fst st) a) i) as [id|] eqn:Hi.
  2:{ apply nth_error_None in Hi. lia. }
  destruct (represents_exists st) as (m & Hrep).
  destruct (pushRelatedRef_turn j r id m st Hok Hrep)
    as (Hok' & _ & Hother & Hkeep & Hpush).
  apply IH; auto.
  - destruct (Z.eq_dec id r) as [->|Hne].
    + now destruct (Hpush a Hslot).
    + rewrite Hother; auto.
  - destruct (Z.eq_dec id r) as [->|Hne].
    + destruct (Hpush a Hslot) as [-> _].
      exists (List.length (readArr (fst st) a)). split; [lia|].
      rewrite nth_error_app2, Nat.sub_diag by lia. reflexivity.
    + assert (Ha : (a < List.length (fst st))%nat).
      { destruct Hok as [Hin _]. now apply (Hin r j). }
      rewrite Hkeep; auto.
      * exists k. split; auto.
        destruct (Nat.eq_dec i k) as [->|]; [congruence|lia].
      * intros Hc. destruct Hok as [_ Hinj].
        destruct (Hinj _ _ _ _ _ Hc Hslot) as [? _]. contradiction.
Qed.

(** When the loop pushes onto the array it walks, no fuel is enough. *)
Lemma indexRecordRef_diverges (a : RelAttributes) (st : Store * RefMap)
    (r : Z) (E : list Z) :
  storeOk st ->
  pushesOntoWalked (indexOf _inverseAttributes (forRelating a))
                   (indexOf _inverseAttributes (forRelated a)) r E = true ->
  forall fuel, indexRecordRef fuel a st r E = None.
Proof.
  intros Hok Halias fuel. unfold indexRecordRef. cbv zeta.
  unfold pushesOntoWalked in Halias. apply andb_prop in Halias.
  destruct Halias as [Heq Hex]. apply Z.eqb_eq in Heq.
  apply existsb_exists in Hex. destruct Hex as (y & Hy & Hry).
  apply Z.eqb_eq in Hry. subst y.
  set (fi := indexOf _inverseAttributes (forRelating a)) in *.
  rewrite <- Heq.
  destruct st as [h mh]. destruct Hok as [Hin Hinj]. cbn [fst snd] in *.
  set (mh1 := JsMap.set mh r
                (JsMap.set (JsMap.get mh r ?? JsMap.empty) fi (List.length h))).
  assert (Hs : forall x i, slot mh1 x i =
                           if Z.eqb r x && Z.eqb fi i then Some (List.length h)
                           else slot mh x i).
  { intros x i. apply slot_set. }
  apply walkRef_diverges.
  - split; cbn [fst snd].
    + intros x i c. rewrite Hs, length_app. cbn [List.length].
      destruct (Z.eqb r x && Z.eqb fi i).
      * intros [= <-]. lia.
      * intros Hc. apply Hin in Hc. lia.
    + intros x i x' i' c. rewrite !Hs.
      destruct (Z.eqb_spec r x); destruct (Z.eqb_spec fi i); cbn [andb];
        destruct (Z.eqb_spec r x'); destruct (Z.eqb_spec fi i'); cbn [andb];
        subst;
        try (intros [= <-] Hc; apply Hin in Hc; lia);
        try (intros Hc [= <-]; apply Hin in Hc; lia);
        try (intros; split; reflexivity);
        try apply Hinj.
  - cbn [snd]. rewrite Hs, !Z.eqb_refl. reflexivity.
  - cbn [fst]. rewrite readArr_app_new.
    apply In_nth_error in Hy. destruct Hy as (k & Hk).
    exists k. split; [lia|exact Hk].
Qed.

(** A whole sequence of records: whenever [indexAll] returns a relation
    map, the indexing by reference ends in a store that this map
    represents. *)
Lemma indexAllRef_agrees (relToAttributesMap : Z -> option RelAttributes)
    (recs : list RelRecord) :
  forall (st : Store * RefMap) (m m' : RelationsMap),
    storeOk st -> represents m st ->
    indexAll relToAttributesMap recs m = Ok m' ->
    exists st',
      indexAllRef relToAttributesMap recs st = Some st' /\
      storeOk st' /\ represents m' st'.
Proof.
  induction recs as [|[rel [r E]] recs IH]; intros st m m' Hok Hrep Hm.
  - injection Hm as <-. exists st. auto.
  - unfold indexAll in Hm. cbn [forEach fst snd process_callback] in Hm.
    cbn [indexAllRef fst snd].
    destruct (relToAttributesMap rel) as [a|].
    + destruct (pushesOntoWalked
                  (indexOf _inverseAttributes (forRelating a))
                  (indexOf _inverseAttributes (forRelated a)) r E) eqn:Hal.
      * unfold process_indexRecord in Hm. rewrite Hal in Hm. discriminate.
      * destruct (indexRecordRef_agrees a st m r E Hok Hrep Hal)
          as (st1 & m1 & Hst1 & Hm1 & Hok1 & Hrep1).
        rewrite Hst1. rewrite Hm1 in Hm. cbn [bind] in Hm.
        now apply (IH st1 m1 m').
    + cbn [bind] in Hm. now apply (IH st m m').
Qed.

Lemma empty_store_ok :
  storeOk ([], JsMap.empty) /\ represents JsMap.empty ([], JsMap.empty).
Proof.
  split; [split|]; cbn; try discriminate. intros x i. reflexivity.
Qed.

(** ** The indexer: bidirectionality, overwriting, idempotence, the two
    ingestion paths, the query *)

Lemma slotSpec_related (relToAttributesMap : Z -> option RelAttributes)
    (recs : list RelRecord) (rel r e : Z) (E : list Z) (i : Z) :
  rolesSeparate relToAttributesMap = true ->
  (forall rec, In rec recs -> In (fst rec) _ifcRels) ->
  In (rel, (r, E)) recs ->
  relatedIndex relToAttributesMap rel = Some i ->
  In e E ->
  slotSpec relToAttributesMap recs e i =
    Some (backRefs relToAttributesMap recs e i) /\
  In r (backRefs relToAttributesMap recs e i).
Proof.
  intros Hsep Hrels Hin Hi He.
  pose proof (In_backRefs relToAttributesMap recs rel r e E i Hin Hi He) as Hr.
  split; auto. unfold slotSpec.
  rewrite lastForward_none.
  - destruct (backRefs relToAttributesMap recs e i); [destruct Hr|reflexivity].
  - intros rec' Hin'. unfold setsForward.
    destruct (relatingIndex relToAttributesMap (fst rec')) as [i'|] eqn:Hi';
      cbn [optZeqb andb]; auto.
    destruct (Z.eqb_spec i' i); auto. exfalso.
    refine (rolesSeparate_ne relToAttributesMap (fst rec') rel i' i
              Hsep _ _ Hi' Hi _); auto.
    apply (Hrels (rel, (r, E)) Hin).
Qed.

Lemma slotSpec_relating (relToAttributesMap : Z -> option RelAttributes)
    (recs : list RelRecord) (rec : RelRecord) (x i : Z) :
  In rec recs -> setsForward relToAttributesMap x i rec = true ->
  slotSpec relToAttributesMap recs x i = lastForward relToAttributesMap recs x i.
Proof.
  intros Hin Hs. unfold slotSpec.
  destruct (lastForward_is_some relToAttributesMap recs rec x i Hin Hs) as (E & ->).
  reflexivity.
Qed.

Lemma setsForward_own (relToAttributesMap : Z -> option RelAttributes)
    (rel r : Z) (E : list Z) (a : RelAttributes) :
  relToAttributesMap rel = Some a ->
  setsForward relToAttributesMap r (indexOf _inverseAttributes (forRelating a))
              (rel, (r, E)) = true.
Proof.
  intros Ha. unfold setsForward, relatingIndex. cbn [fst snd]. rewrite Ha.
  cbn [option_map optZeqb]. now rewrite !Z.eqb_refl.
Qed.

Lemma lastForward_last (relToAttributesMap : Z -> option RelAttributes)
    (pre post : list RelRecord) (rec : RelRecord) (x i : Z) :
  setsForward relToAttributesMap x i rec = true ->
  (forall rec', In rec' post -> setsForward relToAttributesMap x i rec' = false) ->
  lastForward relToAttributesMap (pre ++ rec :: post) x i = Some (snd (snd rec)).
Proof.
  intros Hs Hpost.
  change (pre ++ rec :: post) with (pre ++ [rec] ++ post).
  rewrite app_assoc, lastForward_app by assumption.
  now rewrite lastForward_snoc, Hs.
Qed.

(** The slots that one indexed record accounts for. *)
Lemma process_record_slots
    (relToAttributesMap : Z -> option RelAttributes)
    (this : IfcRelationsIndexer) (model : FragmentsGroup)
    (pre post : list RelRecord) (rel r : Z) (E : list Z) (a : RelAttributes) :
  rolesSeparate relToAttributesMap = true ->
  rolesKnown relToAttributesMap = true ->
  hasProperties model = true ->
  JsObject.get (relationMaps this) (uuid model) = None ->
  allRecords model = pre ++ (rel, (r, E)) :: post ->
  relToAttributesMap rel = Some a ->
  exists m this',
    process relToAttributesMap this model = Ok (m, this') /\
    (forall e, In e E ->
       exists l, getEntityRelations this' model e (forRelated a) = Some l /\
                 In r l) /\
    getEntityRelations this' model r (forRelating a) =
      lastForward relToAttributesMap (allRecords model) r
                  (indexOf _inverseAttributes (forRelating a)) /\
    ((forall rec, In rec post ->
        setsForward relToAttributesMap r
                    (indexOf _inverseAttributes (forRelating a)) rec = false) ->
     getEntityRelations this' model r (forRelating a) = Some E).
Proof.
  intros Hsep Hknown Hp Hfresh Hrecs Ha.
  destruct (process_slots relToAttributesMap this model Hsep Hp Hfresh)
    as (m & Hm & Hget).
  assert (Hin : In (rel, (r, E)) (allRecords model)).
  { rewrite Hrecs. apply in_or_app. right. now left. }
  pose proof (allRecords_rel model _ Hin) as Hrel. cbn [fst] in Hrel.
  destruct (rolesKnown_spec relToAttributesMap rel a Hknown Hrel Ha) as [Hk1 Hk2].
  exists m, (setRelationMap this model m). split; [exact Hm|].
  assert (Hfwd : getEntityRelations (setRelationMap this model m) model r
                   (forRelating a) =
                 lastForward relToAttributesMap (allRecords model) r
                   (indexOf _inverseAttributes (forRelating a))).
  { rewrite Hget, Hk1.
    apply (slotSpec_relating relToAttributesMap _ (rel, (r, E))); auto.
    now apply setsForward_own. }
  split; [|split].
  - intros e He. rewrite Hget, Hk2.
    destruct (slotSpec_related relToAttributesMap (allRecords model) rel r e E
                (indexOf _inverseAttributes (forRelated a)) Hsep
                (allRecords_rel model) Hin) as [Hs Hr]; auto.
    { unfold relatedIndex. now rewrite Ha. }
    rewrite Hs. eauto.
  - exact Hfwd.
  - intros Hpost. rewrite Hfwd, Hrecs.
    apply (lastForward_last relToAttributesMap pre post (rel, (r, E))); auto.
    now apply setsForward_own.
Qed.

(** C1, amended.  After [process] has indexed the records of a model, for
    every record [(rel, r, E)] whose code has an entry in the table:
    every [e] in [E] has [r] among [getEntityRelations(model, e,
    forRelated)]; [getEntityRelations(model, r, forRelating)] is the
    related list of the last record that has relating entity [r] and the
    same [forRelating] slot, hence exactly [E] when no later record has. *)
Theorem process_bidirectional_last
    (relToAttributesMap : Z -> option RelAttributes)
    (this : IfcRelationsIndexer) (model : FragmentsGroup)
    (pre post : list RelRecord) (rel r : Z) (E : list Z) (a : RelAttributes) :
  rolesSeparate relToAttributesMap = true ->
  rolesKnown relToAttributesMap = true ->
  hasProperties model = true ->
  JsObject.get (relationMaps this) (uuid model) = None ->
  allRecords model = pre ++ (rel, (r, E)) :: post ->
  relToAttributesMap rel = Some a ->
  exists m this',
    process relToAttributesMap this model = Ok (m, this') /\
    (forall e, In e E ->
       exists l, getEntityRelations this' model e (forRelated a) = Some l /\
                 In r l) /\
    getEntityRelations this' model r (forRelating a) =
      lastForward relToAttributesMap (allRecords model) r
                  (indexOf _inverseAttributes (forRelating a)) /\
    ((forall rec, In rec post ->
        setsForward relToAttributesMap r
                    (indexOf _inverseAttributes (forRelating a)) rec = false) ->
     getEntityRelations this' model r (forRelating a) = Some E).
Proof.
  intros Hsep Hknown Hp Hfresh Hrecs Ha.
  exact (process_record_slots relToAttributesMap this model pre post rel r E a
           Hsep Hknown Hp Hfresh Hrecs Ha).
Qed.

Lemma sample_rolesSeparate : rolesSeparate sampleRelToAttributesMap = true.
Proof. vm_compute. reflexivity. Qed.

Lemma sample_rolesKnown : rolesKnown sampleRelToAttributesMap = true.
Proof. vm_compute. reflexivity. Qed.

Lemma process_bidirectional_last_witness :
  exists m this',
    process sampleRelToAttributesMap emptyIndexer twoAggregates = Ok (m, this') /\
    (forall e, In e [4; 2] ->
       exists l, getEntityRelations this' twoAggregates e "Decomposes" = Some l /\
                 In 1 l) /\
    getEntityRelations this' twoAggregates 1 "IsDecomposedBy" =
      lastForward sampleRelToAttributesMap (allRecords twoAggregates) 1
                  (indexOf _inverseAttributes "IsDecomposedBy") /\
    ((forall rec, In rec [(IFCRELDEFINESBYPROPERTIES, (10, [2; 3]))] ->
        setsForward sampleRelToAttributesMap 1
                    (indexOf _inverseAttributes "IsDecomposedBy") rec = false) ->
     getEntityRelations this' twoAggregates 1 "IsDecomposedBy" = Some [4; 2]).
Proof.
  apply (process_bidirectional_last sampleRelToAttributesMap emptyIndexer
           twoAggregates [(IFCRELAGGREGATES, (1, [2; 3]))]
           [(IFCRELDEFINESBYPROPERTIES, (10, [2; 3]))]
           IFCRELAGGREGATES 1 [4; 2]
           {| forRelating := "IsDecomposedBy"; forRelated := "Decomposes" |});
    vm_compute; reflexivity.
Defined.

(** C1 as stated fails: the model [twoAggregates] has the record
    [(IFCRELAGGREGATES, 1, [2; 3])], and after indexing the forward slot
    of [1] is [[4; 2]]. *)
Lemma process_not_bidirectional :
  exists m this',
    process sampleRelToAttributesMap emptyIndexer twoAggregates = Ok (m, this') /\
    ~ Bidirectional sampleRelToAttributesMap this' twoAggregates.
Proof.
  eexists. eexists. split; [vm_compute; reflexivity|].
  intros H.
  destruct (H IFCRELAGGREGATES 1 [2; 3]
              {| forRelating := "IsDecomposedBy"; forRelated := "Decomposes" |})
    as [Hf _].
  - vm_compute. auto.
  - reflexivity.
  - vm_compute in Hf. discriminate.
Qed.

Lemma count_repeat (r r' : Z) (n : nat) :
  count r (repeat r' n) = if Z.eqb r' r then n else 0%nat.
Proof.
  induction n as [|n IH]; simpl repeat.
  - now destruct (Z.eqb r' r).
  - rewrite count_cons, IH. now destruct (Z.eqb r' r).
Qed.

Lemma count_app (x : Z) (l l' : list Z) :
  count x (l ++ l') = (count x l + count x l')%nat.
Proof. apply count_occ_app. Qed.

Lemma count_backRefs (relToAttributesMap : Z -> option RelAttributes)
    (recs : list RelRecord) (r e i : Z) :
  count r (backRefs relToAttributesMap recs e i) =
  participations relToAttributesMap recs r e i.
Proof.
  unfold backRefs, participations.
  induction recs as [|rec recs IH]; [reflexivity|].
  cbn [flat_map map]. rewrite count_app, IH.
  unfold list_sum. cbn [fold_right]. f_equal.
  destruct (optZeqb (relatedIndex relToAttributesMap (fst rec)) i);
    cbn [andb]; [|reflexivity].
  apply count_repeat.
Qed.

Lemma participations_app (relToAttributesMap : Z -> option RelAttributes)
    (l l' : list RelRecord) (r e i : Z) :
  participations relToAttributesMap (l ++ l') r e i =
  (participations relToAttributesMap l r e i +
   participations relToAttributesMap l' r e i)%nat.
Proof.
  unfold participations. now rewrite map_app, list_sum_app.
Qed.

Lemma participations_cons (relToAttributesMap : Z -> option RelAttributes)
    (rec : RelRecord) (l : list RelRecord) (r e i : Z) :
  participations relToAttributesMap (rec :: l) r e i =
  ((if optZeqb (relatedIndex relToAttributesMap (fst rec)) i
       && Z.eqb (fst (snd rec)) r
    then count e (snd (snd rec)) else 0) +
   participations relToAttributesMap l r e i)%nat.
Proof. reflexivity. Qed.

(** When the related entities of every record are pairwise distinct,
    [participations] counts records: the records with relating entity
    [r], under the inverse slot [i], that list [e]. *)
Lemma participations_records (relToAttributesMap : Z -> option RelAttributes)
    (recs : list RelRecord) (r e i : Z) :
  (forall rec, In rec recs -> NoDup (snd (snd rec))) ->
  participations relToAttributesMap recs r e i =
  List.length
    (filter (fun rec => optZeqb (relatedIndex relToAttributesMap (fst rec)) i
                        && Z.eqb (fst (snd rec)) r
                        && existsb (Z.eqb e) (snd (snd rec)))
            recs).
Proof.
  induction recs as [|rec recs IH]; intros Hnd; [reflexivity|].
  rewrite participations_cons, IH by (intros; apply Hnd; now right).
  cbn [filter].
  destruct (optZeqb _ i && Z.eqb _ r); cbn [andb]; [|reflexivity].
  assert (Hc : count e (snd (snd rec)) =
               if existsb (Z.eqb e) (snd (snd rec)) then 1%nat else 0%nat).
  { specialize (Hnd rec (or_introl eq_refl)).
    destruct (existsb (Z.eqb e) (snd (snd rec))) eqn:Hex.
    - apply existsb_exists in Hex. destruct Hex as (y & Hy & Hey).
      apply Z.eqb_eq in Hey. subst y.
      unfold count. rewrite (NoDup_count_occ' Z.eq_dec) in Hnd. now apply Hnd.
    - unfold count. apply count_occ_not_In. intros Hin.
      assert (existsb (Z.eqb e) (snd (snd rec)) = true).
      { apply existsb_exists. exists e. split; auto. apply Z.eqb_refl. }
      congruence. }
  rewrite Hc. now destruct (existsb (Z.eqb e) (snd (snd rec))).
Qed.

(** C2.  Two records of the same kind with the same relating entity [r],
    the second being the last record that sets that forward slot: after
    [process] the forward slot of [r] is the related list of the second
    record alone, and the inverse slot of every entity [e] related by
    either holds [r] once for each time [e] takes part in a record with
    relating entity [r], the two records included. *)
Theorem process_forward_last_inverse_accumulates
    (relToAttributesMap : Z -> option RelAttributes)
    (this : IfcRelationsIndexer) (model : FragmentsGroup)
    (pre mid post : list RelRecord) (rel r : Z) (E1 E2 : list Z)
    (a : RelAttributes) :
  rolesSeparate relToAttributesMap = true ->
  rolesKnown relToAttributesMap = true ->
  hasProperties model = true ->
  JsObject.get (relationMaps this) (uuid model) = None ->
  allRecords model = pre ++ (rel, (r, E1)) :: mid ++ (rel, (r, E2)) :: post ->
  relToAttributesMap rel = Some a ->
  (forall rec, In rec post ->
     setsForward relToAttributesMap r
                 (indexOf _inverseAttributes (forRelating a)) rec = false) ->
  exists m this',
    process relToAttributesMap this model = Ok (m, this') /\
    getEntityRelations this' model r (forRelating a) = Some E2 /\
    forall e, In e (E1 ++ E2) ->
      exists l,
        getEntityRelations this' model e (forRelated a) = Some l /\
        count r l =
          participations relToAttributesMap (allRecords model) r e
                         (indexOf _inverseAttributes (forRelated a)) /\
        (count e E1 + count e E2 <= count r l)%nat.
Proof.
  intros Hsep Hknown Hp Hfresh Hrecs Ha Hpost.
  destruct (process_record_slots relToAttributesMap this model
              (pre ++ (rel, (r, E1)) :: mid) post rel r E2 a)
    as (m & this' & Hm & _ & _ & Hlast); auto.
  { rewrite Hrecs, <- app_assoc. reflexivity. }
  exists m, this'. split; [exact Hm|]. split; [auto|].
  intros e He.
  destruct (process_slots relToAttributesMap this model Hsep Hp Hfresh)
    as (m' & Hm' & Hget).
  rewrite Hm in Hm'. injection Hm' as <- ->.
  assert (Hin1 : In (rel, (r, E1)) (allRecords model)).
  { rewrite Hrecs. apply in_or_app. right. now left. }
  assert (Hin2 : In (rel, (r, E2)) (allRecords model)).
  { rewrite Hrecs. apply in_or_app. right. right.
    apply in_or_app. right. now left. }
  pose proof (allRecords_rel model _ Hin1) as Hrel. cbn [fst] in Hrel.
  destruct (rolesKnown_spec relToAttributesMap rel a Hknown Hrel Ha) as [_ Hk2].
  assert (Hri : relatedIndex relToAttributesMap rel =
                Some (indexOf _inverseAttributes (forRelated a))).
  { unfold relatedIndex. now rewrite Ha. }
  assert (Hs : slotSpec relToAttributesMap (allRecords model) e
                 (indexOf _inverseAttributes (forRelated a)) =
               Some (backRefs relToAttributesMap (allRecords model) e
                       (indexOf _inverseAttributes (forRelated a)))).
  { apply in_app_or in He. destruct He as [He|He].
    - apply (slotSpec_related relToAttributesMap _ rel r e E1); auto.
      apply allRecords_rel.
    - apply (slotSpec_related relToAttributesMap _ rel r e E2); auto.
      apply allRecords_rel. }
  eexists. rewrite Hget, Hk2. split; [exact Hs|].
  rewrite count_backRefs. split; [reflexivity|].
  rewrite Hrecs, participations_app, participations_cons,
          participations_app, participations_cons.
  cbn [fst snd]. rewrite Hri. cbn [optZeqb]. rewrite !Z.eqb_refl. cbn [andb].
  lia.
Qed.

Lemma process_forward_last_inverse_accumulates_witness :
  exists m this',
    process sampleRelToAttributesMap emptyIndexer twoAggregates = Ok (m, this') /\
    getEntityRelations this' twoAggregates 1 "IsDecomposedBy" = Some [4; 2] /\
    forall e, In e ([2; 3] ++ [4; 2]) ->
      exists l,
        getEntityRelations this' twoAggregates e "Decomposes" = Some l /\
        count 1 l =
          participations sampleRelToAttributesMap (allRecords twoAggregates)
                         1 e (indexOf _inverseAttributes "Decomposes") /\
        (count e [2%Z; 3%Z] + count e [4%Z; 2%Z] <= count 1%Z l)%nat.
Proof.
  apply (process_forward_last_inverse_accumulates sampleRelToAttributesMap
           emptyIndexer twoAggregates [] []
           [(IFCRELDEFINESBYPROPERTIES, (10, [2; 3]))]
           IFCRELAGGREGATES 1 [2; 3] [4; 2]
           {| forRelating := "IsDecomposedBy"; forRelated := "Decomposes" |});
    try (vm_compute; reflexivity).
  intros rec [<-|[]]. vm_compute. reflexivity.
Defined.

(** The slots of [twoAggregates] after indexing, evaluated. *)
Example twoAggregates_slots :
  exists m this',
    process sampleRelToAttributesMap emptyIndexer twoAggregates = Ok (m, this') /\
    getEntityRelations this' twoAggregates 1 "IsDecomposedBy" = Some [4; 2] /\
    getEntityRelations this' twoAggregates 2 "Decomposes" = Some [1; 1] /\
    getEntityRelations this' twoAggregates 3 "Decomposes" = Some [1] /\
    getEntityRelations this' twoAggregates 4 "Decomposes" = Some [1] /\
    getEntityRelations this' twoAggregates 2 "IsDefinedBy" = Some [10].
Proof. eexists. eexists. vm_compute. repeat split. Qed.




Lemma forEach_skip {A S : Type} (l : list A) (s : S) :
  forEach (fun s _ => Ok s) l s = Ok s.
Proof. induction l; simpl; auto. Qed.





(** C6, amended.  [getEntityRelations] returns [null] exactly when the
    model has no index, or the entity has no slot table, or the role name
    is not recognized, or the slot table of the entity has no slot for
    the role; otherwise it returns the list held by the slot, the empty
    list when the slot is empty. *)
Theorem getEntityRelations_null_iff
    (this : IfcRelationsIndexer) (model : FragmentsGroup) (expressID : Z)
    (relationName : string) :
  (getEntityRelations this model expressID relationName = None <->
   JsObject.get (relationMaps this) (uuid model) = None \/
   (exists indexMap,
      JsObject.get (relationMaps this) (uuid model) = Some indexMap /\
      JsMap.get indexMap expressID = None) \/
   indexOf _inverseAttributes relationName = -1 \/
   (exists indexMap entityRelations,
      JsObject.get (relationMaps this) (uuid model) = Some indexMap /\
      JsMap.get indexMap expressID = Some entityRelations /\
      JsMap.get entityRelations (indexOf _inverseAttributes relationName) =
        None)) /\
  (forall indexMap entityRelations relations,
     JsObject.get (relationMaps this) (uuid model) = Some indexMap ->
     JsMap.get indexMap expressID = Some entityRelations ->
     indexOf _inverseAttributes relationName <> -1 ->
     JsMap.get entityRelations (indexOf _inverseAttributes relationName) =
       Some relations ->
     getEntityRelations this model expressID relationName = Some relations).
Proof.
  unfold getEntityRelations.
  destruct (JsObject.get (relationMaps this) (uuid model)) as [indexMap|].
  2:{ split; [split; auto|]. intros ? ? ? [=]. }
  destruct (JsMap.get indexMap expressID) as [entityRelations|] eqn:He.
  2:{ split; [split; eauto|]. intros ? ? ? [= <-]. congruence. }
  destruct (Z.eqb_spec (indexOf _inverseAttributes relationName) (-1)) as [Hi|Hi].
  { split; [split; auto|]. intros. contradiction. }
  destruct (JsMap.get entityRelations (indexOf _inverseAttributes relationName))
    as [relations|] eqn:Hr.
  - split.
    + split; [discriminate|].
      intros [H|[(im & [= <-] & H)|[H|(im & er & [= <-] & H1 & H2)]]];
        try congruence.
    + intros im er rs [= <-] H1 _ H2. congruence.
  - split.
    + split; auto. intros _. right. right. right. eauto.
    + intros im er rs [= <-] H1 _ H2. congruence.
Qed.

(** C6 as stated fails: after indexing [twoAggregates], entity [1] has a
    slot table and [Decomposes] is a recognized role, but the table of
    [1] has no slot for it and the query returns [null]. *)
Lemma getEntityRelations_null_fourth_case :
  exists m this' entityRelations,
    process sampleRelToAttributesMap emptyIndexer twoAggregates = Ok (m, this') /\
    JsObject.get (relationMaps this') (uuid twoAggregates) = Some m /\
    JsMap.get m 1 = Some entityRelations /\
    indexOf _inverseAttributes "Decomposes" <> -1 /\
    getEntityRelations this' twoAggregates 1 "Decomposes" = None.
Proof.
  eexists. eexists. eexists.
  split; [vm_compute; reflexivity|].
  split; [vm_compute; reflexivity|].
  split; [vm_compute; reflexivity|].
  split; [vm_compute; discriminate|].
  vm_compute. reflexivity.
Qed.

Lemma getEntityRelations_null_iff_witness :
  exists m this' entityRelations,
    process sampleRelToAttributesMap emptyIndexer twoAggregates = Ok (m, this') /\
    JsMap.get m 1 = Some entityRelations /\
    getEntityRelations this' twoAggregates 1 "IsDecomposedBy" = Some [4; 2].
Proof.
  eexists. eexists. eexists.
  split; [vm_compute; reflexivity|].
  split; [vm_compute; reflexivity|].
  eapply (proj2 (getEntityRelations_null_iff _ twoAggregates 1 "IsDecomposedBy"));
    vm_compute; try reflexivity.
  discriminate.
Defined.

(** An indexed slot that is empty is returned as the empty list. *)
Example getEntityRelations_empty_slot :
  let model := modelOf "m" (fun rel => if Z.eqb rel IFCRELAGGREGATES
                                       then [(1, [])] else []) in
  exists m this',
    process sampleRelToAttributesMap emptyIndexer model = Ok (m, this') /\
    getEntityRelations this' model 1 "IsDecomposedBy" = Some [].
Proof. eexists. eexists. vm_compute. split; reflexivity. Qed.

(** ** Numbers as text *)

Lemma Number_String_of_Z (z : Z) : Number (String_of_Z z) = Some z.
Proof.
  unfold Number, String_of_Z. rewrite NilZero.isi.
  - cbn [option_map]. now rewrite DecimalZ.of_to.
  - destruct z; cbn [Z.to_int]; try discriminate.
    intros [= H]. now apply (Unsigned.to_uint_nonnil p).
  - destruct z; cbn [Z.to_int]; try discriminate.
    intros [= H]. now apply (Unsigned.to_uint_nonnil p).
Qed.

Lemma String_of_Z_inj (z z' : Z) : String_of_Z z = String_of_Z z' -> z = z'.
Proof.
  intros H. pose proof (Number_String_of_Z z) as Hz.
  rewrite H, Number_String_of_Z in Hz. congruence.
Qed.


(** ** JSON texts read back *)

Lemma string_app_assoc (a b c : string) :
  ((a ++ b) ++ c = a ++ (b ++ c))%string.
Proof. induction a as [|x a IH]; simpl; [reflexivity|now rewrite IH]. Qed.

Lemma string_app_nil_r (a : string) : (a ++ EmptyString = a)%string.
Proof. induction a as [|x a IH]; simpl; [reflexivity|now rewrite IH]. Qed.

Lemma numChar_class (c : ascii) :
  isNumChar c = true ->
  Ascii.eqb c "{" = false /\ Ascii.eqb c "}" = false /\
  Ascii.eqb c "[" = false /\ Ascii.eqb c "]" = false /\
  Ascii.eqb c "," = false /\ Ascii.eqb c ":" = false /\
  Ascii.eqb c dquote = false /\ isPlainChar c = true.
Proof.
  destruct c as [[] [] [] [] [] [] [] []]; vm_compute; intros H;
    try discriminate; repeat split.
Qed.

Lemma allChars_num_plain (s : string) :
  allChars isNumChar s = true -> allChars isPlainChar s = true.
Proof.
  induction s as [|c s IH]; simpl; auto.
  intros H. apply andb_prop in H. destruct H as [Hc Hs].
  apply numChar_class in Hc. destruct Hc as (_ & _ & _ & _ & _ & _ & _ & ->).
  now apply IH.
Qed.

Lemma uint_chars (d : Decimal.uint) :
  allChars isNumChar (NilEmpty.string_of_uint d) = true.
Proof. induction d; simpl; auto. Qed.

Lemma String_of_Z_chars (z : Z) :
  allChars isNumChar (String_of_Z z) = true /\ String_of_Z z <> EmptyString.
Proof.
  unfold String_of_Z, NilZero.string_of_int, NilZero.string_of_uint.
  destruct (Z.to_int z) as [d|d].
  - destruct d; try (split; [apply (uint_chars (_ d))|discriminate]).
    split; [reflexivity|discriminate].
  - split; [|discriminate]. cbn [allChars].
    destruct d; try apply (uint_chars (_ d)). reflexivity.
Qed.

Lemma escape_plain (s : string) :
  allChars isPlainChar s = true -> escape s = s.
Proof.
  induction s as [|c s IH]; simpl; auto.
  intros H. apply andb_prop in H. destruct H as [Hc Hs].
  rewrite (IH Hs). unfold escapeChar, isPlainChar in *.
  apply andb_prop in Hc. destruct Hc as [Hc H32].
  apply andb_prop in Hc. destruct Hc as [Hq Hb].
  apply negb_true_iff in Hq, Hb. rewrite Hq, Hb.
  apply Nat.leb_le in H32.
  repeat match goal with
         | |- context [(?n =? ?k)%nat] =>
             destruct (Nat.eqb_spec n k); [lia|]
         end.
  destruct (Nat.ltb_spec (nat_of_ascii c) 32); [lia|]. reflexivity.
Qed.

Lemma lex_str_run (s : string) :
  allChars isPlainChar s = true ->
  forall acc rest,
    lex (LStr acc) (s ++ String dquote rest) =
    ts <- lex LIdle rest ;; Ok (TStr (acc ++ s)%string :: ts).
Proof.
  induction s as [|c s IH]; intros Hs acc rest.
  - cbn [append lex]. rewrite Ascii.eqb_refl, string_app_nil_r. reflexivity.
  - cbn [allChars] in Hs. apply andb_prop in Hs. destruct Hs as [Hc Hs].
    cbn [append lex]. rewrite Hc.
    assert (Hq : Ascii.eqb c dquote = false).
    { unfold isPlainChar in Hc. apply andb_prop in Hc. destruct Hc as [Hc _].
      apply andb_prop in Hc. destruct Hc as [Hq _]. now apply negb_true_iff. }
    rewrite Hq, (IH Hs). unfold snoc. rewrite string_app_assoc. reflexivity.
Qed.

Lemma lex_num_run (d : string) :
  allChars isNumChar d = true ->
  forall acc rest, lex (LNum acc) (d ++ rest) = lex (LNum (acc ++ d)) rest.
Proof.
  induction d as [|c d IH]; intros Hd acc rest.
  - cbn [append]. now rewrite string_app_nil_r.
  - cbn [allChars] in Hd. apply andb_prop in Hd. destruct Hd as [Hc Hd].
    cbn [append lex]. rewrite Hc, (IH Hd). unfold snoc.
    now rewrite string_app_assoc.
Qed.

Lemma lex_num_start (c : ascii) (s : string) :
  isNumChar c = true ->
  lex LIdle (String c s) = lex (LNum (String c EmptyString)) s.
Proof.
  intros Hc. cbn [lex].
  destruct (numChar_class c Hc) as (-> & -> & -> & -> & -> & -> & -> & _).
  now rewrite Hc.
Qed.

Lemma lex_num_end (acc : string) (c : ascii) (s : string) :
  isNumChar c = false ->
  lex (LNum acc) (String c s) =
  t <- numToken acc ;; ts <- lex LIdle (String c s) ;; Ok (t :: ts).
Proof. intros Hc. cbn [lex]. now rewrite Hc. Qed.

Lemma numToken_String_of_Z (z : Z) : numToken (String_of_Z z) = Ok (TNum z).
Proof.
  unfold numToken. now rewrite Number_String_of_Z, String.eqb_refl.
Qed.

(** The first character of the text of a token that is not a number. *)
Lemma render_not_num (t : token) (ts : list token) :
  match t with TNum _ => False | _ => True end ->
  exists c s, render (t :: ts) = String c s /\ isNumChar c = false.
Proof.
  destruct t; intros H; try destruct H; cbn [render renderToken append];
    eexists; eexists; (split; [reflexivity|]); reflexivity.
Qed.

Lemma lex_render (ts : list token) :
  lexable ts -> lex LIdle (render ts) = Ok ts.
Proof.
  induction ts as [|t ts IH]; intros Hl; [reflexivity|].
  destruct t; cbn [lexable] in Hl;
    try (cbn [render renderToken append lex]; rewrite (IH Hl); reflexivity).
  - destruct Hl as [Hs Hl].
    cbn [render renderToken append]. rewrite string_app_assoc.
    cbn [append lex Ascii.eqb Bool.eqb andb]. cbn.
    rewrite (escape_plain s Hs), lex_str_run by assumption.
    rewrite (IH Hl). reflexivity.
  - destruct Hl as [Hnext Hl]. cbn [render renderToken].
    destruct (String_of_Z_chars z) as [Hchars Hne].
    destruct (String_of_Z z) as [|c d] eqn:Hz; [contradiction|].
    cbn [allChars] in Hchars. apply andb_prop in Hchars.
    destruct Hchars as [Hc Hd].
    cbn [append]. rewrite lex_num_start, lex_num_run by assumption.
    cbn [append].
    destruct ts as [|t' ts'].
    + cbn [render lex]. rewrite <- Hz, numToken_String_of_Z. reflexivity.
    + destruct (render_not_num t' ts') as (c' & s' & Hr & Hc').
      { destruct t'; auto. }
      rewrite Hr, lex_num_end by assumption.
      rewrite <- Hz, numToken_String_of_Z, <- Hr, (IH Hl). reflexivity.
Qed.

Lemma parse_elems (o : JsObject.t (JsObject.t (list Z))) (k : string)
    (io : JsObject.t (list Z)) (ik : string) (rest : list token) (l : list Z) :
  forall (z : Z) (acc : list Z) (first : bool),
    fold_left parseStep
      (commaSeparated (fun z => [TNum z]) (z :: l) ++ TRBracket :: rest)
      (PElem o k io ik acc first) =
    fold_left parseStep rest
      (PInnerSep o k (JsObject.set io ik (acc ++ z :: l))).
Proof.
  induction l as [|z' l IH]; intros z acc first.
  - destruct first; reflexivity.
  - change (commaSeparated (fun z => [TNum z]) (z :: z' :: l))
      with (TNum z :: TComma :: commaSeparated (fun z => [TNum z]) (z' :: l)).
    destruct first; cbn [app fold_left parseStep];
      rewrite IH, <- app_assoc; reflexivity.
Qed.

Lemma parse_array (o : JsObject.t (JsObject.t (list Z))) (k : string)
    (io : JsObject.t (list Z)) (ik : string) (rest : list token) (l : list Z) :
  fold_left parseStep (arrayTokens l ++ rest) (PInnerValue o k io ik) =
  fold_left parseStep rest (PInnerSep o k (JsObject.set io ik l)).
Proof.
  unfold arrayTokens. cbn [app fold_left parseStep]. rewrite <- app_assoc.
  destruct l as [|z l]; [reflexivity|].
  cbn [app]. apply parse_elems.
Qed.

Lemma parse_inner_members (o : JsObject.t (JsObject.t (list Z))) (k : string)
    (rest : list token) (ms : list (string * list Z)) :
  forall (m : string * list Z) (io : JsObject.t (list Z)) (first : bool),
    fold_left parseStep
      (commaSeparated
         (fun m => TStr (fst m) :: TColon :: arrayTokens (snd m)) (m :: ms)
       ++ TRBrace :: rest)
      (PInnerKey o k io first) =
    fold_left parseStep rest
      (POuterSep (JsObject.set o k (listToObject (m :: ms) io))).
Proof.
  induction ms as [|m' ms IH]; intros m io first.
  - destruct first; cbn [commaSeparated app fold_left parseStep];
      rewrite parse_array; reflexivity.
  - change (commaSeparated
              (fun m => TStr (fst m) :: TColon :: arrayTokens (snd m))
              (m :: m' :: ms))
      with ((TStr (fst m) :: TColon :: arrayTokens (snd m)) ++
            TComma ::
            commaSeparated
              (fun m => TStr (fst m) :: TColon :: arrayTokens (snd m))
              (m' :: ms)).
    rewrite <- app_assoc.
    destruct first; cbn [app fold_left parseStep];
      rewrite parse_array; cbn [app fold_left parseStep];
      rewrite IH; reflexivity.
Qed.

Lemma parse_inner (o : JsObject.t (JsObject.t (list Z))) (k : string)
    (rest : list token) (ms : list (string * list Z)) :
  fold_left parseStep (innerTokens ms ++ rest) (POuterValue o k) =
  fold_left parseStep rest
    (POuterSep (JsObject.set o k (listToObject ms JsObject.empty))).
Proof.
  unfold innerTokens. cbn [app fold_left parseStep]. rewrite <- app_assoc.
  destruct ms as [|m ms]; [reflexivity|].
  cbn [app]. apply parse_inner_members.
Qed.

Lemma parse_outer_members (rest : list token)
    (ms : list (string * list (string * list Z))) :
  forall (m : string * list (string * list Z))
         (o : JsObject.t (JsObject.t (list Z))) (first : bool),
    fold_left parseStep
      (commaSeparated
         (fun m => TStr (fst m) :: TColon :: innerTokens (snd m)) (m :: ms)
       ++ TRBrace :: rest)
      (POuterKey o first) =
    fold_left parseStep rest
      (PDone
         (listToObject
            (map (fun member =>
                    (fst member, listToObject (snd member) JsObject.empty))
                 (m :: ms))
            o)).
Proof.
  induction ms as [|m' ms IH]; intros m o first.
  - destruct first; cbn [commaSeparated app fold_left parseStep];
      rewrite parse_inner; reflexivity.
  - change (commaSeparated
              (fun m => TStr (fst m) :: TColon :: innerTokens (snd m))
              (m :: m' :: ms))
      with ((TStr (fst m) :: TColon :: innerTokens (snd m)) ++
            TComma ::
            commaSeparated
              (fun m => TStr (fst m) :: TColon :: innerTokens (snd m))
              (m' :: ms)).
    rewrite <- app_assoc.
    destruct first; cbn [app fold_left parseStep];
      rewrite parse_inner; cbn [app fold_left parseStep];
      rewrite IH; reflexivity.
Qed.

Lemma parse_object (ms : list (string * list (string * list Z))) :
  fold_left parseStep (objectTokens ms) PStart = PDone (parseMembers ms).
Proof.
  unfold objectTokens. cbn [fold_left parseStep].
  destruct ms as [|m ms]; [reflexivity|].
  rewrite (parse_outer_members []). reflexivity.
Qed.

Lemma lexable_elems (rest : list token) (l : list Z) :
  lexable rest ->
  forall z,
    lexable (commaSeparated (fun z => [TNum z]) (z :: l) ++ TRBracket :: rest).
Proof.
  intros Hrest. induction l as [|z' l IH]; intros z.
  - cbn. auto.
  - change (commaSeparated (fun z => [TNum z]) (z :: z' :: l))
      with (TNum z :: TComma :: commaSeparated (fun z => [TNum z]) (z' :: l)).
    cbn [app lexable]. split; auto.
Qed.

Lemma lexable_array (rest : list token) (l : list Z) :
  lexable rest -> lexable (arrayTokens l ++ rest).
Proof.
  intros Hrest. unfold arrayTokens. cbn [app lexable]. rewrite <- app_assoc.
  destruct l as [|z l]; [exact Hrest|].
  cbn [app]. now apply lexable_elems.
Qed.

Lemma lexable_inner_members (rest : list token) (ms : list (string * list Z)) :
  lexable rest ->
  forall m,
    (forall m', In m' (m :: ms) -> allChars isPlainChar (fst m') = true) ->
    lexable
      (commaSeparated
         (fun m => TStr (fst m) :: TColon :: arrayTokens (snd m)) (m :: ms)
       ++ TRBrace :: rest).
Proof.
  intros Hrest. induction ms as [|m' ms IH]; intros m Hkeys.
  - cbn [commaSeparated app lexable]. split; [apply Hkeys; now left|].
    now apply lexable_array.
  - change (commaSeparated
              (fun m => TStr (fst m) :: TColon :: arrayTokens (snd m))
              (m :: m' :: ms))
      with ((TStr (fst m) :: TColon :: arrayTokens (snd m)) ++
            TComma ::
            commaSeparated
              (fun m => TStr (fst m) :: TColon :: arrayTokens (snd m))
              (m' :: ms)).
    rewrite <- app_assoc. cbn [app lexable]. split; [apply Hkeys; now left|].
    apply lexable_array. cbn [lexable].
    apply IH. intros m0 H0. apply Hkeys. now right.
Qed.

Lemma lexable_inner (rest : list token) (ms : list (string * list Z)) :
  lexable rest ->
  (forall m, In m ms -> allChars isPlainChar (fst m) = true) ->
  lexable (innerTokens ms ++ rest).
Proof.
  intros Hrest Hkeys. unfold innerTokens. cbn [app lexable].
  rewrite <- app_assoc.
  destruct ms as [|m ms]; [exact Hrest|].
  cbn [app]. now apply lexable_inner_members.
Qed.

Lemma lexable_outer_members (rest : list token)
    (ms : list (string * list (string * list Z))) :
  lexable rest ->
  forall m,
    (forall m', In m' (m :: ms) ->
       allChars isPlainChar (fst m') = true /\
       forall im, In im (snd m') -> allChars isPlainChar (fst im) = true) ->
    lexable
      (commaSeparated
         (fun m => TStr (fst m) :: TColon :: innerTokens (snd m)) (m :: ms)
       ++ TRBrace :: rest).
Proof.
  intros Hrest. induction ms as [|m' ms IH]; intros m Hkeys.
  - cbn [commaSeparated app lexable].
    destruct (Hkeys m (or_introl eq_refl)) as [Hk Hin].
    split; [exact Hk|]. now apply lexable_inner.
  - change (commaSeparated
              (fun m => TStr (fst m) :: TColon :: innerTokens (snd m))
              (m :: m' :: ms))
      with ((TStr (fst m) :: TColon :: innerTokens (snd m)) ++
            TComma ::
            commaSeparated
              (fun m => TStr (fst m) :: TColon :: innerTokens (snd m))
              (m' :: ms)).
    rewrite <- app_assoc. cbn [app lexable].
    destruct (Hkeys m (or_introl eq_refl)) as [Hk Hin].
    split; [exact Hk|].
    apply lexable_inner; auto. cbn [lexable].
    apply IH. intros m0 H0. apply Hkeys. now right.
Qed.

Lemma lexable_object (ms : list (string * list (string * list Z))) :
  (forall m, In m ms ->
     allChars isPlainChar (fst m) = true /\
     forall im, In im (snd m) -> allChars isPlainChar (fst im) = true) ->
  lexable (objectTokens ms).
Proof.
  intros Hkeys. unfold objectTokens. cbn [lexable].
  destruct ms as [|m ms]; [cbn; auto|].
  apply lexable_outer_members; [cbn; auto|exact Hkeys].
Qed.

(** Reading the text written for an object whose keys, at both levels,
    need no escape. *)
Lemma JSON_parse_stringify (o : JsObject.t (JsObject.t (list Z))) :
  (forall m, In m o ->
     allChars isPlainChar (fst m) = true /\
     forall im, In im (snd m) -> allChars isPlainChar (fst im) = true) ->
  JSON_parse (JSON_stringify o) = Ok (parseMembers o).
Proof.
  intros Hkeys. unfold JSON_parse, JSON_stringify.
  rewrite lex_render by now apply lexable_object.
  cbn [bind]. now rewrite parse_object.
Qed.

Lemma numericKeys_plain {V : Type} (o : JsObject.t V) :
  numericKeys o -> forall m, In m o -> allChars isPlainChar (fst m) = true.
Proof.
  intros Hnum m Hm. destruct (Hnum (fst m)) as (z & ->).
  { unfold JsObject.keys. now apply in_map. }
  apply allChars_num_plain, String_of_Z_chars.
Qed.

(** ** Serialization *)

Lemma JsObject_get_None {V : Type} (o : JsObject.t V) (k : string) :
  JsObject.get o k = None <-> ~ In k (JsObject.keys o).
Proof.
  induction o as [|[k0 v0] o IH]; simpl.
  - tauto.
  - destruct (String.eqb_spec k0 k).
    + split; [discriminate|]. intros H. exfalso. apply H. now left.
    + rewrite IH. tauto.
Qed.

Lemma JsObject_get_In {V : Type} (o : JsObject.t V) (k : string) (v : V) :
  JsObject.get o k = Some v -> In (k, v) o.
Proof.
  induction o as [|[k0 v0] o IH]; simpl; [discriminate|].
  destruct (String.eqb_spec k0 k).
  - intros [= <-]. subst. now left.
  - intros H. right. auto.
Qed.

Lemma JsObject_In_get {V : Type} (o : JsObject.t V) (k : string) (v : V) :
  NoDup (JsObject.keys o) -> In (k, v) o -> JsObject.get o k = Some v.
Proof.
  induction o as [|[k0 v0] o IH]; simpl; [intros _ []|].
  intros Hnd [H|H].
  - injection H as -> ->. now rewrite String.eqb_refl.
  - inversion Hnd as [|? ? Hk Hnd']; subst.
    destruct (String.eqb_spec k0 k).
    + subst. exfalso. apply Hk. change k with (fst (k, v)). now apply in_map.
    + auto.
Qed.

Lemma JsObject_keys_replace {V : Type} (o : JsObject.t V) (k : string) (v : V) :
  JsObject.keys (JsObject.replace o k v) = JsObject.keys o.
Proof.
  induction o as [|[k0 v0] o IH]; simpl; auto.
  destruct (String.eqb k0 k); simpl; auto. f_equal. exact IH.
Qed.

Lemma JsObject_keys_insertIndex {V : Type} (o : JsObject.t V) (n : Z)
    (k : string) (v : V) (k' : string) :
  In k' (JsObject.keys (JsObject.insertIndex o n k v)) <->
  k = k' \/ In k' (JsObject.keys o).
Proof.
  induction o as [|[k0 v0] o IH]; simpl; [tauto|].
  destruct (JsObject.arrayIndex k0) as [n'|]; [destruct (n' <? n)|]; simpl;
    first [tauto | unfold JsObject.keys in IH; rewrite IH; tauto].
Qed.

Lemma JsObject_NoDup_insertIndex {V : Type} (o : JsObject.t V) (n : Z)
    (k : string) (v : V) :
  ~ In k (JsObject.keys o) -> NoDup (JsObject.keys o) ->
  NoDup (JsObject.keys (JsObject.insertIndex o n k v)).
Proof.
  induction o as [|[k0 v0] o IH]; simpl; intros Hk Hnd.
  - constructor; auto.
  - destruct (JsObject.arrayIndex k0) as [n'|]; [destruct (n' <? n)|];
      simpl; try (constructor; auto).
    + inversion Hnd; subst.
      fold (JsObject.keys (JsObject.insertIndex o n k v)).
      rewrite JsObject_keys_insertIndex. intros [H|H]; [subst|]; tauto.
    + inversion Hnd; subst. apply IH; auto.
Qed.

Lemma JsObject_NoDup_set {V : Type} (o : JsObject.t V) (k : string) (v : V) :
  NoDup (JsObject.keys o) -> NoDup (JsObject.keys (JsObject.set o k v)).
Proof.
  intros Hnd. unfold JsObject.set.
  destruct (JsObject.get o k) eqn:Hk.
  - now rewrite JsObject_keys_replace.
  - apply JsObject_get_None in Hk.
    destruct (JsObject.arrayIndex k).
    + now apply JsObject_NoDup_insertIndex.
    + unfold JsObject.keys. rewrite map_app. simpl.
      apply NoDup_app; auto.
      * constructor; [intros []|constructor].
      * intros x Hx [<-|[]]. contradiction.
Qed.

Lemma JsObject_keys_set {V : Type} (o : JsObject.t V) (k : string) (v : V)
    (k' : string) :
  In k' (JsObject.keys (JsObject.set o k v)) <->
  k = k' \/ In k' (JsObject.keys o).
Proof.
  pose proof (JsObject_get_None (JsObject.set o k v) k') as H1.
  pose proof (JsObject_get_None o k') as H2.
  rewrite JsObject_get_set in H1.
  destruct (String.eqb_spec k k').
  - split; auto. intros _.
    destruct (In_dec string_dec k' (JsObject.keys (JsObject.set o k v))); auto.
    apply H1 in n. discriminate.
  - split.
    + intros Hin. right.
      destruct (In_dec string_dec k' (JsObject.keys o)); auto.
      apply H2, H1 in n0. contradiction.
    + intros [?|Hin]; [contradiction|].
      destruct (In_dec string_dec k' (JsObject.keys (JsObject.set o k v))); auto.
      apply H1, H2 in n0. contradiction.
Qed.

Lemma JsObject_replace_same {V : Type} (o : JsObject.t V) (k : string) (v : V) :
  JsObject.get o k = Some v -> JsObject.replace o k v = o.
Proof.
  induction o as [|[k0 v0] o IH]; simpl; auto.
  destruct (String.eqb k0 k).
  - now intros [= ->].
  - intros H. f_equal. auto.
Qed.

Lemma JsObject_replace_replace {V : Type} (o : JsObject.t V) (k : string)
    (v v' : V) :
  JsObject.replace (JsObject.replace o k v) k v' = JsObject.replace o k v'.
Proof.
  induction o as [|[k0 v0] o IH]; simpl; auto.
  destruct (String.eqb k0 k) eqn:E; simpl; rewrite E; auto.
  f_equal. exact IH.
Qed.

Lemma JsObject_replace_insertIndex {V : Type} (o : JsObject.t V) (n : Z)
    (k : string) (v v' : V) :
  JsObject.get o k = None ->
  JsObject.replace (JsObject.insertIndex o n k v) k v' =
  JsObject.insertIndex o n k v'.
Proof.
  induction o as [|[k0 v0] o IH]; simpl; intros Hk.
  - now rewrite String.eqb_refl.
  - destruct (String.eqb k0 k) eqn:E; [discriminate|].
    destruct (JsObject.arrayIndex k0) as [n'|]; [destruct (n' <? n)|]; simpl;
      rewrite ?String.eqb_refl, ?E; auto.
    f_equal. auto.
Qed.

Lemma JsObject_replace_app {V : Type} (o : JsObject.t V) (k : string) (v v' : V) :
  JsObject.get o k = None ->
  JsObject.replace (o ++ [(k, v)]) k v' = o ++ [(k, v')].
Proof.
  induction o as [|[k0 v0] o IH]; simpl; intros Hk.
  - now rewrite String.eqb_refl.
  - destruct (String.eqb k0 k) eqn:E; [discriminate|]. f_equal. auto.
Qed.

(** Assigning twice to a property is assigning the second value. *)
Lemma JsObject_set_set {V : Type} (o : JsObject.t V) (k : string) (v v' : V) :
  JsObject.set (JsObject.set o k v) k v' = JsObject.set o k v'.
Proof.
  unfold JsObject.set at 1. rewrite JsObject_get_set_eq.
  unfold JsObject.set.
  destruct (JsObject.get o k) eqn:Hk.
  - apply JsObject_replace_replace.
  - destruct (JsObject.arrayIndex k).
    + now apply JsObject_replace_insertIndex.
    + now apply JsObject_replace_app.
Qed.

Lemma JsObject_set_same {V : Type} (o : JsObject.t V) (k : string) (v : V) :
  JsObject.get o k = Some v -> JsObject.set o k v = o.
Proof.
  intros H. unfold JsObject.set. rewrite H. now apply JsObject_replace_same.
Qed.

Lemma listToObject_get {V : Type} (l : list (string * V)) :
  NoDup (JsObject.keys l) ->
  forall (o : JsObject.t V) (k : string),
    JsObject.get (listToObject l o) k =
    match JsObject.get l k with
    | Some v => Some v
    | None => JsObject.get o k
    end.
Proof.
  unfold listToObject.
  induction l as [|[k0 v0] l IH]; intros Hnd o k; simpl; auto.
  inversion Hnd as [|? ? Hk0 Hnd']; subst.
  rewrite (IH Hnd'), JsObject_get_set.
  destruct (String.eqb_spec k0 k); auto.
  subst. apply JsObject_get_None in Hk0. now rewrite Hk0.
Qed.

Lemma listToObject_NoDup {V : Type} (l : list (string * V)) (o : JsObject.t V) :
  NoDup (JsObject.keys o) -> NoDup (JsObject.keys (listToObject l o)).
Proof.
  unfold listToObject. revert o.
  induction l as [|[k0 v0] l IH]; intros o Hnd; simpl; auto.
  apply IH. now apply JsObject_NoDup_set.
Qed.

Lemma listToObject_keys {V : Type} (l : list (string * V)) (o : JsObject.t V)
    (k : string) :
  In k (JsObject.keys (listToObject l o)) <->
  In k (JsObject.keys l) \/ In k (JsObject.keys o).
Proof.
  unfold listToObject. revert o.
  induction l as [|[k0 v0] l IH]; intros o; simpl; [tauto|].
  rewrite IH, JsObject_keys_set. tauto.
Qed.

Lemma serialize_inner (expressID : string) (relations : JsMap.t (list Z)) :
  forall (object : JsObject.t (JsObject.t (list Z))) (inner : JsObject.t (list Z)),
    JsObject.get object expressID = Some inner ->
    fold_left
      (fun object rel =>
         let relationID := String_of_Z (fst rel) in
         let relationEntities := snd rel in
         JsObject.set object expressID
           (JsObject.set (JsObject.get object expressID ?? JsObject.empty)
                         relationID relationEntities))
      relations object =
    JsObject.set object expressID
      (listToObject (map (fun rel => (String_of_Z (fst rel), snd rel)) relations)
                    inner).
Proof.
  induction relations as [|rel relations IH]; intros object inner Hget.
  - simpl. symmetry. now apply JsObject_set_same.
  - cbn [fold_left map]. rewrite Hget. cbn [orElse].
    rewrite (IH _ (JsObject.set inner (String_of_Z (fst rel)) (snd rel))).
    + rewrite JsObject_set_set. reflexivity.
    + apply JsObject_get_set_eq.
Qed.

Lemma serialize_outer (relationMap : RelationsMap) :
  NoDup (JsMap.keys relationMap) ->
  forall object : JsObject.t (JsObject.t (list Z)),
    (forall e, In e (JsMap.keys relationMap) ->
               JsObject.get object (String_of_Z e) = None) ->
    fold_left
      (fun object entry =>
         let expressID := String_of_Z (fst entry) in
         let relations := snd entry in
         let object :=
           match JsObject.get object expressID with
           | None => JsObject.set object expressID JsObject.empty
           | Some _ => object
           end in
         fold_left
           (fun object rel =>
              let relationID := String_of_Z (fst rel) in
              let relationEntities := snd rel in
              JsObject.set object expressID
                (JsObject.set (JsObject.get object expressID ?? JsObject.empty)
                              relationID relationEntities))
           relations object)
      relationMap object =
    listToObject
      (map (fun entry => (String_of_Z (fst entry), relationsObject (snd entry)))
           relationMap)
      object.
Proof.
  induction relationMap as [|[e relations] relationMap IH];
    intros Hnd object Hfresh; [reflexivity|].
  inversion Hnd as [|? ? He Hnd']; subst.
  cbn [fold_left map listToObject fst snd].
  rewrite (Hfresh e) by now left.
  rewrite (serialize_inner _ _ _ JsObject.empty) by apply JsObject_get_set_eq.
  rewrite JsObject_set_set.
  rewrite IH; auto.
  intros e' He'. rewrite JsObject_get_set.
  destruct (String.eqb_spec (String_of_Z e) (String_of_Z e')) as [Heq|_].
  - apply String_of_Z_inj in Heq. subst. contradiction.
  - apply Hfresh. now right.
Qed.

Lemma serializeRelations_spec (relationMap : RelationsMap) :
  NoDup (JsMap.keys relationMap) ->
  serializeRelations relationMap =
  JSON_stringify
    (listToObject
       (map (fun entry => (String_of_Z (fst entry), relationsObject (snd entry)))
            relationMap)
       JsObject.empty).
Proof.
  intros Hnd. unfold serializeRelations.
  f_equal. now apply serialize_outer.
Qed.


Lemma JsMap_get_In {V : Type} (m : JsMap.t V) (k : Z) (v : V) :
  JsMap.get m k = Some v -> In (k, v) m.
Proof.
  induction m as [|[k0 v0] m IH]; simpl; [discriminate|].
  destruct (Z.eqb_spec k0 k).
  - intros [= <-]. subst. now left.
  - intros H. right. auto.
Qed.

Lemma JsMap_get_None {V : Type} (m : JsMap.t V) (k : Z) :
  JsMap.get m k = None <-> ~ In k (JsMap.keys m).
Proof.
  induction m as [|[k0 v0] m IH]; simpl.
  - tauto.
  - destruct (Z.eqb_spec k0 k).
    + split; [discriminate|]. intros H. exfalso. apply H. now left.
    + rewrite IH. tauto.
Qed.

Lemma JsMap_keys_set {V : Type} (m : JsMap.t V) (k : Z) (v : V) :
  JsMap.keys (JsMap.set m k v) =
  match JsMap.get m k with
  | Some _ => JsMap.keys m
  | None => JsMap.keys m ++ [k]
  end.
Proof.
  induction m as [|[k0 v0] m IH]; simpl; auto.
  destruct (Z.eqb_spec k0 k); simpl; auto.
  fold (JsMap.keys (JsMap.set m k v)). rewrite IH.
  now destruct (JsMap.get m k).
Qed.

Lemma JsMap_NoDup_set {V : Type} (m : JsMap.t V) (k : Z) (v : V) :
  NoDup (JsMap.keys m) -> NoDup (JsMap.keys (JsMap.set m k v)).
Proof.
  intros Hnd. rewrite JsMap_keys_set.
  destruct (JsMap.get m k) eqn:Hk; auto.
  apply JsMap_get_None in Hk.
  apply NoDup_app; auto.
  - constructor; [intros []|constructor].
  - intros x Hx [<-|[]]. contradiction.
Qed.

Lemma JsMap_In_set {V : Type} (m : JsMap.t V) (k : Z) (v : V) (k' : Z) (v' : V) :
  In (k', v') (JsMap.set m k v) -> (k' = k /\ v' = v) \/ In (k', v') m.
Proof.
  induction m as [|[k0 v0] m IH]; simpl.
  - intros [[= <- <-]|[]]. now left.
  - destruct (Z.eqb_spec k0 k); simpl.
    + intros [[= <- <-]|H]; auto.
    + intros [H|H]; auto. destruct (IH H); auto.
Qed.

Lemma object_of_map_get {V W : Type} (f : V -> W) (m : JsMap.t V) (z : Z) :
  JsObject.get (map (fun en => (String_of_Z (fst en), f (snd en))) m)
               (String_of_Z z) =
  option_map f (JsMap.get m z).
Proof.
  induction m as [|[k v] m IH]; simpl; auto.
  destruct (Z.eqb_spec k z).
  - subst. now rewrite String.eqb_refl.
  - destruct (String.eqb_spec (String_of_Z k) (String_of_Z z)) as [H|_]; auto.
    apply String_of_Z_inj in H. contradiction.
Qed.

Lemma object_of_map_keys {V W : Type} (f : V -> W) (m : JsMap.t V) :
  JsObject.keys (map (fun en => (String_of_Z (fst en), f (snd en))) m) =
  map String_of_Z (JsMap.keys m).
Proof.
  unfold JsObject.keys, JsMap.keys. rewrite !map_map. reflexivity.
Qed.

Lemma object_of_map_NoDup {V W : Type} (f : V -> W) (m : JsMap.t V) :
  NoDup (JsMap.keys m) ->
  NoDup (JsObject.keys (map (fun en => (String_of_Z (fst en), f (snd en))) m)).
Proof.
  intros Hnd. rewrite object_of_map_keys.
  apply Finite.Injective_map_NoDup; auto.
  intros x y. apply String_of_Z_inj.
Qed.

Lemma object_map_values_get {V W : Type} (f : V -> W) (o : JsObject.t V)
    (k : string) :
  JsObject.get (map (fun member => (fst member, f (snd member))) o) k =
  option_map f (JsObject.get o k).
Proof.
  induction o as [|[k0 v0] o IH]; simpl; auto.
  destruct (String.eqb k0 k); auto.
Qed.

Lemma object_map_values_keys {V W : Type} (f : V -> W) (o : JsObject.t V) :
  JsObject.keys (map (fun member => (fst member, f (snd member))) o) =
  JsObject.keys o.
Proof.
  unfold JsObject.keys. rewrite map_map. reflexivity.
Qed.

Lemma relationsObject_facts (relations : JsMap.t (list Z)) :
  NoDup (JsMap.keys relations) ->
  NoDup (JsObject.keys (relationsObject relations)) /\
  numericKeys (relationsObject relations) /\
  forall r, JsObject.get (relationsObject relations) (String_of_Z r) =
            JsMap.get relations r.
Proof.
  intros Hnd. unfold relationsObject. split; [|split].
  - apply listToObject_NoDup. constructor.
  - intros k Hk. apply listToObject_keys in Hk. destruct Hk as [Hk|[]].
    rewrite (object_of_map_keys (fun l => l)) in Hk.
    apply in_map_iff in Hk. destruct Hk as (z & <- & _). eauto.
  - intros r. rewrite listToObject_get.
    + rewrite (object_of_map_get (fun l => l)).
      now destruct (JsMap.get relations r).
    + now apply (object_of_map_NoDup (fun l => l)).
Qed.

Lemma rebuilt_facts {V : Type} (o : JsObject.t V) :
  NoDup (JsObject.keys o) -> numericKeys o ->
  NoDup (JsObject.keys (listToObject o JsObject.empty)) /\
  numericKeys (listToObject o JsObject.empty) /\
  forall k, JsObject.get (listToObject o JsObject.empty) k = JsObject.get o k.
Proof.
  intros Hnd Hnum. split; [|split].
  - apply listToObject_NoDup. constructor.
  - intros k Hk. apply listToObject_keys in Hk. destruct Hk as [Hk|[]]. auto.
  - intros k. rewrite listToObject_get by assumption.
    now destruct (JsObject.get o k).
Qed.

Lemma fromJSON_inner (l : JsObject.t (list Z)) :
  NoDup (JsObject.keys l) -> numericKeys l ->
  forall rm0 : JsMap.t (list Z),
    NoDup (JsMap.keys rm0) ->
    exists rm,
      forEach
        (fun relationMap rel =>
           let relationID := fst rel in
           match Number relationID with
           | Some n => Ok (JsMap.set relationMap n (snd rel))
           | None => Unmodelled
           end)
        l rm0 = Ok rm /\
      NoDup (JsMap.keys rm) /\
      forall z, JsMap.get rm z =
                match JsObject.get l (String_of_Z z) with
                | Some v => Some v
                | None => JsMap.get rm0 z
                end.
Proof.
  induction l as [|[k v] l IH]; intros Hnd Hnum rm0 Hrm0.
  - exists rm0. simpl. auto.
  - inversion Hnd as [|? ? Hk Hnd']; subst.
    destruct (Hnum k) as (n & ->); [now left|].
    cbn [forEach fst snd]. rewrite Number_String_of_Z. cbn [bind].
    destruct (IH Hnd') with (rm0 := JsMap.set rm0 n v) as (rm & Hrm & Hnd'' & Hget).
    { intros k' Hk'. apply Hnum. now right. }
    { now apply JsMap_NoDup_set. }
    exists rm. split; [exact Hrm|]. split; [exact Hnd''|].
    intros z. rewrite Hget. cbn [JsObject.get]. rewrite JsMap_get_set.
    destruct (String.eqb_spec (String_of_Z n) (String_of_Z z)) as [Heq|Hne].
    + apply String_of_Z_inj in Heq. subst z.
      apply JsObject_get_None in Hk. rewrite Hk. now rewrite Z.eqb_refl.
    + destruct (Z.eqb_spec n z); [subst; contradiction|reflexivity].
Qed.

Lemma fromJSON_outer (l : JsObject.t (JsObject.t (list Z))) :
  NoDup (JsObject.keys l) -> numericKeys l ->
  (forall k inner, In (k, inner) l ->
     NoDup (JsObject.keys inner) /\ numericKeys inner) ->
  forall im0 : RelationsMap,
    RelationsMapOk im0 ->
    exists im,
      forEach
        (fun indexMap entry =>
           let expressID := fst entry in
           let expressIDRelations := snd entry in
           relationMap <-
             forEach
               (fun relationMap rel =>
                  let relationID := fst rel in
                  match Number relationID with
                  | Some n => Ok (JsMap.set relationMap n (snd rel))
                  | None => Unmodelled
                  end)
               expressIDRelations JsMap.empty ;;
           match Number expressID with
           | Some n => Ok (JsMap.set indexMap n relationMap)
           | None => Unmodelled
           end)
        l im0 = Ok im /\
      RelationsMapOk im /\
      forall z,
        match JsObject.get l (String_of_Z z) with
        | Some inner =>
            exists rm, JsMap.get im z = Some rm /\
                       forall r, JsMap.get rm r =
                                 JsObject.get inner (String_of_Z r)
        | None => JsMap.get im z = JsMap.get im0 z
        end.
Proof.
  induction l as [|[k inner] l IH]; intros Hnd Hnum Hinner im0 Him0.
  - exists im0. simpl. auto.
  - inversion Hnd as [|? ? Hk Hnd']; subst.
    destruct (Hnum k) as (n & ->); [now left|].
    destruct (Hinner _ inner (or_introl eq_refl)) as [Hin1 Hin2].
    destruct (fromJSON_inner inner Hin1 Hin2 JsMap.empty) as (rm & Hrm & Hrmnd & Hrmget);
      [constructor|].
    cbn [forEach fst snd]. cbv zeta in Hrm |- *. rewrite Hrm. cbn [bind].
    rewrite Number_String_of_Z. cbn [bind].
    destruct (IH Hnd') with (im0 := JsMap.set im0 n rm) as (im & Him & Hok & Hget).
    { intros k' Hk'. apply Hnum. now right. }
    { intros k' i' Hi'. apply (Hinner k' i'). now right. }
    { destruct Him0 as [H1 H2]. split.
      - now apply JsMap_NoDup_set.
      - intros e i Hi. apply JsMap_In_set in Hi.
        destruct Hi as [[_ ->]|Hi]; eauto. }
    exists im. split; [exact Him|]. split; [exact Hok|].
    intros z. specialize (Hget z). cbn [JsObject.get].
    destruct (String.eqb_spec (String_of_Z n) (String_of_Z z)) as [Heq|Hne].
    + apply String_of_Z_inj in Heq. subst z.
      apply JsObject_get_None in Hk. rewrite Hk in Hget.
      rewrite Hget, JsMap_get_set_eq. exists rm. split; auto.
      intros r. rewrite Hrmget. now destruct (JsObject.get inner (String_of_Z r)).
    + destruct (JsObject.get l (String_of_Z z)); auto.
      rewrite Hget. apply JsMap_get_set_ne. congruence.
Qed.

(** C4.  For every relation map [m] (a [Map] of [Map]s, one entry per
    key at both levels), [getRelationsMapFromJSON(serializeRelations(m))]
    returns a relation map with the same entities, the same slots for
    each entity and, slot by slot, the same list of identifiers in the
    same order. *)
Theorem serialize_roundtrip (m : RelationsMap) :
  RelationsMapOk m ->
  exists m',
    getRelationsMapFromJSON (serializeRelations m) = Ok m' /\
    RelationsMapOk m' /\
    sameEntries m m'.
Proof.
  intros [Hnd Hinner].
  unfold getRelationsMapFromJSON.
  rewrite serializeRelations_spec by assumption.
  set (o1 := listToObject
               (map (fun entry => (String_of_Z (fst entry),
                                   relationsObject (snd entry))) m)
               JsObject.empty).
  set (o2 := parseMembers o1).
  assert (Ho1nd : NoDup (JsObject.keys o1)).
  { apply listToObject_NoDup. constructor. }
  assert (Ho1num : numericKeys o1).
  { intros k Hk. apply listToObject_keys in Hk. destruct Hk as [Hk|[]].
    rewrite object_of_map_keys in Hk. apply in_map_iff in Hk.
    destruct Hk as (z & <- & _). eauto. }
  assert (Ho1get : forall z, JsObject.get o1 (String_of_Z z) =
                             option_map relationsObject (JsMap.get m z)).
  { intros z. unfold o1. rewrite listToObject_get.
    - rewrite object_of_map_get. now destruct (JsMap.get m z).
    - now apply object_of_map_NoDup. }
  rewrite JSON_parse_stringify.
  2:{ intros member Hmem. split.
      - now apply (numericKeys_plain o1).
      - destruct member as [k io]. cbn [fst snd].
        assert (Hk : In k (JsObject.keys o1)).
        { change k with (fst (k, io)). unfold JsObject.keys. now apply in_map. }
        destruct (Ho1num k Hk) as (z & ->).
        apply JsObject_In_get in Hmem; auto. rewrite Ho1get in Hmem.
        destruct (JsMap.get m z) as [inner|] eqn:Hz; [|discriminate].
        injection Hmem as <-.
        apply JsMap_get_In in Hz. apply Hinner in Hz.
        destruct (relationsObject_facts inner Hz) as (_ & H2 & _).
        now apply numericKeys_plain. }
  cbn [bind]. fold o2.
  assert (Ho2nd : NoDup (JsObject.keys o2)).
  { apply listToObject_NoDup. constructor. }
  assert (Ho2num : numericKeys o2).
  { intros k Hk. apply listToObject_keys in Hk. destruct Hk as [Hk|[]].
    rewrite (object_map_values_keys
               (fun io : JsObject.t (list Z) => listToObject io JsObject.empty))
      in Hk.
    auto. }
  assert (Ho2get : forall z,
             JsObject.get o2 (String_of_Z z) =
             option_map (fun inner => listToObject (relationsObject inner)
                                                   JsObject.empty)
                        (JsMap.get m z)).
  { intros z. unfold o2, parseMembers. rewrite listToObject_get.
    - rewrite (object_map_values_get
                 (fun io : JsObject.t (list Z) => listToObject io JsObject.empty)),
              Ho1get.
      now destruct (JsMap.get m z).
    - now rewrite (object_map_values_keys
                     (fun io : JsObject.t (list Z) =>
                        listToObject io JsObject.empty)). }
  destruct (fromJSON_outer o2 Ho2nd Ho2num) with (im0 := @JsMap.empty (JsMap.t (list Z)))
    as (m' & Hm' & Hok & Hget).
  { intros k io Hio.
    assert (Hk : In k (JsObject.keys o2)).
    { change k with (fst (k, io)). unfold JsObject.keys. now apply in_map. }
    destruct (Ho2num k Hk) as (z & ->).
    apply JsObject_In_get in Hio; auto. rewrite Ho2get in Hio.
    destruct (JsMap.get m z) as [inner|] eqn:Hz; [|discriminate].
    injection Hio as <-.
    apply JsMap_get_In in Hz. apply Hinner in Hz.
    destruct (relationsObject_facts inner Hz) as (H1 & H2 & _).
    destruct (rebuilt_facts _ H1 H2) as (H3 & H4 & _). auto. }
  { split; [constructor|intros ? ? []]. }
  exists m'. split; [exact Hm'|]. split; [exact Hok|].
  intros e. specialize (Hget e). rewrite Ho2get in Hget.
  destruct (JsMap.get m e) as [inner|] eqn:He; cbn [option_map] in Hget.
  - destruct Hget as (rm & -> & Hrm). intros i. rewrite Hrm.
    apply JsMap_get_In in He. apply Hinner in He.
    destruct (relationsObject_facts inner He) as (H1 & H2 & H3).
    destruct (rebuilt_facts _ H1 H2) as (_ & _ & H4).
    now rewrite H4, H3.
  - rewrite Hget. reflexivity.
Qed.

Lemma serialize_roundtrip_witness :
  exists m',
    getRelationsMapFromJSON (serializeRelations unorderedMap) = Ok m' /\
    RelationsMapOk m' /\
    sameEntries unorderedMap m'.
Proof.
  apply (serialize_roundtrip unorderedMap).
  split.
  - repeat constructor; simpl; intuition discriminate.
  - intros e inner [H|[H|[]]]; injection H as <- <-;
      repeat constructor; simpl; intuition discriminate.
Defined.

(** The entries come back in the order in which a plain object lists its
    keys, which need not be the order of the entries of [m]: the text
    written for [unorderedMap] is that of the object with keys [3] then
    [5], and of slots [0] then [7]. *)
Example serialize_roundtrip_order :
  serializeRelations unorderedMap =
    JSON_stringify
      [ ("3", [ ("1", [9]) ]); ("5", [ ("0", [1; 2]); ("7", []) ]) ] /\
  lex LIdle (serializeRelations unorderedMap) =
    Ok [ TLBrace; TStr "3"; TColon; TLBrace; TStr "1"; TColon; TLBracket;
         TNum 9; TRBracket; TRBrace; TComma; TStr "5"; TColon; TLBrace;
         TStr "0"; TColon; TLBracket; TNum 1; TComma; TNum 2; TRBracket;
         TComma; TStr "7"; TColon; TLBracket; TRBracket; TRBrace; TRBrace ] /\
  getRelationsMapFromJSON (serializeRelations unorderedMap) =
    Ok [ (3, [ (1, [9]) ]); (5, [ (0, [1; 2]); (7, []) ]) ].
Proof. repeat split; vm_compute; reflexivity. Qed.

(** ** The property facet *)

Lemma bind_Ok {A B : Type} (c : outcome A) (k : A -> outcome B) (b : B) :
  bind c k = Ok b -> exists a, c = Ok a /\ k a = Ok b.
Proof. destruct c; simpl; try discriminate. eauto. Qed.

Lemma forEach_invariant {A S : Type} (P : S -> Prop) (body : S -> A -> outcome S)
    (l : list A) :
  (forall s a s', In a l -> P s -> body s a = Ok s' -> P s') ->
  forall s s', P s -> forEach body l s = Ok s' -> P s'.
Proof.
  induction l as [|a l IH]; intros Hstep s s' Hs; simpl.
  - now intros [= <-].
  - intros H. apply bind_Ok in H. destruct H as (s1 & H1 & H2).
    apply (IH (fun s a s' Hin => Hstep s a s' (or_intror Hin)) s1 s'); auto.
    apply (Hstep s a s1); auto. now left.
Qed.

(** A loop that pushes one result per element. *)
Lemma forEach_push {A R : Type} (f : A -> outcome R) (l : list A) :
  forall (acc res : list R),
    forEach (fun acc x => r <- f x ;; Ok (acc ++ [r])) l acc = Ok res ->
    exists rs, res = acc ++ rs /\ Forall2 (fun x r => f x = Ok r) l rs.
Proof.
  induction l as [|x l IH]; intros acc res; simpl.
  - intros [= <-]. exists []. now rewrite app_nil_r.
  - intros H. apply bind_Ok in H. destruct H as (acc1 & H1 & H2).
    apply bind_Ok in H1. destruct H1 as (r & Hr & [= <-]).
    destruct (IH _ _ H2) as (rs & -> & Hrs).
    exists (r :: rs). rewrite <- app_assoc. split; auto.
Qed.

Lemma prop_Ok_inv (v : jsval) (k : string) (x : jsval) :
  prop v k = Ok x -> x <> JUndefined -> exists props, v = JObj props.
Proof.
  destruct v; simpl; try discriminate; try (intros [= <-]; congruence).
  eauto.
Qed.

Lemma getItemsAttrName_Some (type : jsval) (name : string) :
  getItemsAttrName type = Some name -> exists n, type = JNum n.
Proof.
  unfold getItemsAttrName.
  destruct type; simpl; try discriminate. eauto.
Qed.

Lemma nameOrNull_object (props : JsObject.t jsval) :
  exists name, nameOrNull (JObj props) = Ok name.
Proof.
  unfold nameOrNull. cbn [prop bind]. unfold optProp.
  destruct (JsObject.get props "Name" ?? JUndefined); cbn; eauto.
Qed.

Section FacetFacts.

Variable evalRequirement :
  IDSProperty -> jsval -> IDSFacetParameter.t -> string ->
  option (list IDSCheck.t) -> bool * list IDSCheck.t.

Lemma getPsets_objects (indexer : IfcRelationsIndexer) (model : FragmentsGroup)
    (expressID : Z) (sets : list jsval) :
  getPsets indexer model expressID = Ok sets ->
  forall set, In set sets -> exists props, set = JObj props.
Proof.
  unfold getPsets.
  destruct (getEntityRelations indexer model expressID "IsDefinedBy")
    as [definitions|]; [|intros [= <-] set []].
  apply (forEach_invariant
           (fun sets => forall set, In set sets -> exists props, set = JObj props)).
  2:{ intros set []. }
  intros sets0 definitionID sets1 _ Hinv.
  destruct (truthy (getProperties model definitionID)); cbn [negb].
  2:{ now intros [= <-]. }
  intros H. apply bind_Ok in H. destruct H as (type & Htype & H).
  destruct (getItemsAttrName type) as [propsListName|] eqn:Hname.
  2:{ injection H as <-. exact Hinv. }
  apply getItemsAttrName_Some in Hname. destruct Hname as (n & ->).
  apply prop_Ok_inv in Htype; [|discriminate]. destruct Htype as (props & Hprops).
  apply bind_Ok in H. destruct H as (handles & _ & H).
  apply bind_Ok in H. destruct H as (handles' & _ & H).
  apply bind_Ok in H. destruct H as (items & _ & [= <-]).
  intros set Hin. apply in_app_or in Hin. destruct Hin as [Hin|[<-|[]]]; auto.
  rewrite Hprops. cbn [setProp]. eauto.
Qed.

Lemma test_matchingSets_none (this : IDSProperty) (sets : list jsval)
    (checks : list IDSCheck.t) :
  (forall set, In set sets -> exists props, set = JObj props) ->
  noSetMatches evalRequirement this sets ->
  test_matchingSets evalRequirement this sets checks = Ok ([], checks).
Proof.
  unfold test_matchingSets, noSetMatches.
  induction sets as [|set sets IH]; intros Hobj Hno; [reflexivity|].
  cbn [forEach fst snd].
  destruct (Hobj set (or_introl eq_refl)) as (props & ->).
  destruct (nameOrNull_object props) as (name & Hname).
  rewrite Hname. cbn [bind].
  rewrite (Hno (JObj props) name (or_introl eq_refl) Hname). cbn [negb bind].
  apply IH.
  - intros s Hs. apply Hobj. now right.
  - intros s n Hs. apply Hno. now right.
Qed.

(** One entity without a matching property set. *)
Lemma test_entity_missing_set (this : IDSProperty)
    (indexer : IfcRelationsIndexer) (model : FragmentsGroup) (expressID : Z)
    (attrs globalId guid : jsval) (sets : list jsval) :
  prop attrs "GlobalId" = Ok globalId ->
  optProp globalId "value" = Ok guid ->
  getPsets indexer model expressID = Ok sets ->
  noSetMatches evalRequirement this sets ->
  test_entity evalRequirement this indexer model expressID attrs =
  Ok {| IDSCheckResult.guid := guid;
        IDSCheckResult.expressID := expressID;
        IDSCheckResult.pass := false;
        IDSCheckResult.checks := [propertySetMissing this];
        IDSCheckResult.cardinality := cardinality this |}.
Proof.
  intros Hg Hguid Hsets Hno. unfold test_entity.
  rewrite Hg. cbn [bind]. rewrite Hguid. cbn [bind]. rewrite Hsets. cbn [bind].
  rewrite test_matchingSets_none; auto.
  now apply (getPsets_objects indexer model expressID).
Qed.

(** C7.  When [test] returns, the result of every entity none of whose
    property sets matches the [propertySet] parameter has [pass = false]
    and exactly one check, labelled [PropertySet], with [currentValue]
    [null]; this holds for every facet, whatever its cardinality. *)
Theorem test_missing_set (this : IDSProperty) (indexer : IfcRelationsIndexer)
    (entities : IfcProperties) (model : FragmentsGroup)
    (results : list IDSCheckResult.t) (n : nat) (key : string) (attrs : jsval)
    (expressID : Z) (sets : list jsval) :
  test evalRequirement this indexer entities model = Ok results ->
  nth_error entities n = Some (key, attrs) ->
  Number key = Some expressID ->
  getPsets indexer model expressID = Ok sets ->
  noSetMatches evalRequirement this sets ->
  exists result,
    nth_error results n = Some result /\
    IDSCheckResult.expressID result = expressID /\
    IDSCheckResult.pass result = false /\
    IDSCheckResult.checks result =
      [ {| IDSCheck.parameter := "PropertySet";
           IDSCheck.currentValue := JNull;
           IDSCheck.requiredValue :=
             IDSFacetParameter.parameter (propertySet this);
           IDSCheck.pass := false |} ] /\
    IDSCheckResult.cardinality result = cardinality this.
Proof.
  intros Htest Hnth Hkey Hsets Hno. unfold test in Htest.
  set (f := fun entry : string * jsval =>
              expressID <- numberOfKey (fst entry) ;;
              test_entity evalRequirement this indexer model expressID
                (JsObject.get entities (String_of_Z expressID) ?? JUndefined))
    in *.
  rewrite (forEach_ext _ (fun acc x => r <- f x ;; Ok (acc ++ [r]))) in Htest.
  2:{ intros acc entry _. unfold f.
      destruct (numberOfKey (fst entry)); reflexivity. }
  apply forEach_push in Htest. subst f.
  destruct Htest as (rs & -> & Hall). cbn [app].
  revert n Hnth. induction Hall as [|entry r l rs Hr Hall IH]; intros n Hnth.
  - destruct n; discriminate.
  - destruct n as [|n]; cbn [nth_error] in *.
    + injection Hnth as ->. cbn [fst] in Hr.
      unfold numberOfKey in Hr. rewrite Hkey in Hr. cbn [bind] in Hr.
      exists r. split; [reflexivity|].
      unfold test_entity in Hr.
      apply bind_Ok in Hr. destruct Hr as (globalId & Hg & Hr).
      apply bind_Ok in Hr. destruct Hr as (guid & Hguid & Hr).
      rewrite Hsets in Hr. cbn [bind] in Hr.
      rewrite test_matchingSets_none in Hr; auto.
      * cbn [bind fst snd app] in Hr. injection Hr as <-. repeat split.
      * now apply (getPsets_objects indexer model expressID).
    + now apply IH.
Qed.

End FacetFacts.

Lemma test_missing_set_witness :
  exists results result,
    test specEvalRequirement (demoFacet prohibited "Pset_Missing" "Width" None)
         demoIndexer demoEntities demoModel = Ok results /\
    nth_error results 0 = Some result /\
    IDSCheckResult.expressID result = 1 /\
    IDSCheckResult.pass result = false /\
    IDSCheckResult.checks result =
      [ {| IDSCheck.parameter := "PropertySet";
           IDSCheck.currentValue := JNull;
           IDSCheck.requiredValue := JStr "Pset_Missing";
           IDSCheck.pass := false |} ] /\
    IDSCheckResult.cardinality result = prohibited.
Proof.
  destruct (test specEvalRequirement
              (demoFacet prohibited "Pset_Missing" "Width" None)
              demoIndexer demoEntities demoModel) as [results| | |] eqn:Ht;
    try (vm_compute in Ht; discriminate).
  destruct (getPsets demoIndexer demoModel 1) as [sets| | |] eqn:Hs;
    try (vm_compute in Hs; discriminate).
  exists results.
  destruct (test_missing_set specEvalRequirement
              (demoFacet prohibited "Pset_Missing" "Width" None)
              demoIndexer demoEntities demoModel results 0 "1" demoWall 1 sets)
    as (result & H); auto.
  - vm_compute in Hs. injection Hs as <-.
    intros set name [<-|[]] Hn. vm_compute in Hn. injection Hn as <-.
    vm_compute. reflexivity.
  - exists result. split; [reflexivity|exact H].
Defined.

Section ValueFacts.

Variable evalRequirement :
  IDSProperty -> jsval -> IDSFacetParameter.t -> string ->
  option (list IDSCheck.t) -> bool * list IDSCheck.t.

(** Without a value constraint, a logical value that is unknown fails. *)
Lemma evalValue_unknown_unconstrained (this : IDSProperty) (attrs v : jsval)
    (valueKey : string) (checks : list IDSCheck.t) :
  value this = None ->
  getValueKey attrs = Ok (Some valueKey) ->
  prop attrs valueKey = Ok v ->
  prop v "type" = Ok (JNum 3) ->
  prop v "value" = Ok (JNum 2) ->
  evalValue evalRequirement this attrs checks =
  Ok (false,
      checks ++ [ {| IDSCheck.parameter := "Value";
                     IDSCheck.currentValue := JNull;
                     IDSCheck.pass := false;
                     IDSCheck.requiredValue := JNull |} ]).
Proof.
  intros Hv Hk Ha Ht Hval. unfold evalValue.
  rewrite Hk, Hv. cbn [bind]. rewrite Ha. cbn [bind]. rewrite Ht. cbn [bind].
  cbn [strictEq Z.eqb Pos.eqb]. rewrite Hval. reflexivity.
Qed.

(** Without a value constraint, a string of white space fails, and the
    check records the empty string. *)
Lemma evalValue_blank_unconstrained (this : IDSProperty) (attrs v : jsval)
    (valueKey s : string) (checks : list IDSCheck.t) :
  value this = None ->
  getValueKey attrs = Ok (Some valueKey) ->
  prop attrs valueKey = Ok v ->
  prop v "type" = Ok (JNum 1) ->
  prop v "value" = Ok (JStr s) ->
  trimsToEmpty s = true ->
  evalValue evalRequirement this attrs checks =
  Ok (false,
      checks ++ [ {| IDSCheck.parameter := "Value";
                     IDSCheck.currentValue := JStr EmptyString;
                     IDSCheck.pass := false;
                     IDSCheck.requiredValue := JNull |} ]).
Proof.
  intros Hv Hk Ha Ht Hval Hs. unfold evalValue.
  rewrite Hk, Hv. cbn [bind]. rewrite Ha. cbn [bind]. rewrite Ht. cbn [bind].
  cbn [strictEq Z.eqb Pos.eqb bind]. rewrite Hval. cbn [bind]. rewrite Hs.
  reflexivity.
Qed.

(** With a value constraint, the outcome for a single value is that of
    [evalRequirement] on the value, whatever the value is. *)
Lemma evalValue_constrained (this : IDSProperty) (thisValue : IDSFacetParameter.t)
    (attrs v name x : jsval) (valueKey : string) (checks : list IDSCheck.t) :
  value this = Some thisValue ->
  getValueKey attrs = Ok (Some valueKey) ->
  prop attrs valueKey = Ok v ->
  (forall els, v <> JArr els) ->
  prop v "name" = Ok name ->
  strictEq name (JStr "IFCLABEL") = false ->
  prop v "value" = Ok x ->
  evalValue evalRequirement this attrs checks =
  Ok (evalRequirement this x thisValue "Value" (Some checks)).
Proof.
  intros Hv Hk Ha Harr Hn Hl Hx. unfold evalValue.
  rewrite Hk, Hv. cbn [bind]. rewrite Ha. cbn [bind]. rewrite Hn. cbn [bind].
  rewrite Hl. cbn [andb].
  assert (Hattrs : exists t, prop attrs "type" = Ok t).
  { destruct attrs; cbn in Ha |- *; try discriminate; eauto. }
  destruct Hattrs as (t & ->). cbn [bind].
  destruct v; try (rewrite Hx; reflexivity).
  exfalso. now apply (Harr els).
Qed.

End ValueFacts.

(** C8, evaluated where the code departs from it.  The facet carries the
    value constraint [2] and the property holds a logical value that is
    unknown ([type] 3, [value] 2): [evalValue] returns [true] and pushes
    a passing check.  Likewise a property whose text is two blanks passes
    the value constraint made of two blanks. *)
Theorem evalValue_unknown_passes_constraint :
  evalValue specEvalRequirement
    (demoFacet required "Pset_Demo" "FireRated" (Some (simpleParameter (JNum 2))))
    demoFireRated [] =
  Ok (true, [ {| IDSCheck.parameter := "Value";
                 IDSCheck.currentValue := JNum 2;
                 IDSCheck.requiredValue := JNum 2;
                 IDSCheck.pass := true |} ]) /\
  evalValue specEvalRequirement
    (demoFacet required "Pset_Demo" "Note" (Some (simpleParameter (JStr "  "))))
    demoNote [] =
  Ok (true, [ {| IDSCheck.parameter := "Value";
                 IDSCheck.currentValue := JStr "  ";
                 IDSCheck.requiredValue := JStr "  ";
                 IDSCheck.pass := true |} ]).
Proof. split; vm_compute; reflexivity. Qed.

(** The same two properties under a facet without value constraint. *)
Example evalValue_unconstrained_demo :
  evalValue specEvalRequirement
    (demoFacet required "Pset_Demo" "FireRated" None) demoFireRated [] =
  Ok (false, [ {| IDSCheck.parameter := "Value";
                  IDSCheck.currentValue := JNull;
                  IDSCheck.requiredValue := JNull;
                  IDSCheck.pass := false |} ]) /\
  evalValue specEvalRequirement
    (demoFacet required "Pset_Demo" "Note" None) demoNote [] =
  Ok (false, [ {| IDSCheck.parameter := "Value";
                  IDSCheck.currentValue := JStr EmptyString;
                  IDSCheck.requiredValue := JNull;
                  IDSCheck.pass := false |} ]).
Proof. split; vm_compute; reflexivity. Qed.

Section ListFacts.

Variable evalRequirement :
  IDSProperty -> jsval -> IDSFacetParameter.t -> string ->
  option (list IDSCheck.t) -> bool * list IDSCheck.t.

Lemma elementValues (els : list jsval) :
  (forall el, In el els -> exists props, el = JObj props) ->
  forall values,
    forEach (fun values el => v <- prop el "value" ;; Ok (values ++ [v]))
            els values =
    Ok (values ++ map elementValue els).
Proof.
  induction els as [|el els IH]; intros Hobj values; simpl.
  - now rewrite app_nil_r.
  - destruct (Hobj el (or_introl eq_refl)) as (props & ->).
    cbn [prop bind elementValue].
    rewrite IH by (intros; apply Hobj; now right).
    now rewrite <- app_assoc.
Qed.

Lemma find_matching (p : jsval -> bool) (els : list jsval) :
  (forall el, In el els -> exists props, el = JObj props) ->
  match find (fun el => match prop el "value" with
                        | Ok v => p v
                        | _ => false
                        end) els with
  | Some el => truthy el
  | None => false
  end = existsb p (map elementValue els).
Proof.
  induction els as [|el els IH]; intros Hobj; simpl; auto.
  destruct (Hobj el (or_introl eq_refl)) as (props & ->).
  cbn [prop elementValue].
  destruct (p (JsObject.get props "value" ?? JUndefined)); simpl; auto.
  apply IH. intros; apply Hobj; now right.
Qed.

(** C9.  A property of type list value or enumerated value whose value
    attribute is an array of values, under a facet with a value
    constraint: [evalValue] passes exactly when [evalRequirement] accepts
    the value of some element, and pushes one check, labelled [Value],
    whose [currentValue] is the array of all element values and whose
    [pass] is the result. *)
Theorem evalValue_list (this : IDSProperty) (thisValue : IDSFacetParameter.t)
    (attrs : jsval) (valueKey : string) (els : list jsval)
    (checks : list IDSCheck.t) :
  value this = Some thisValue ->
  getValueKey attrs = Ok (Some valueKey) ->
  prop attrs valueKey = Ok (JArr els) ->
  prop attrs "type" = Ok (JNum IFCPROPERTYLISTVALUE) \/
  prop attrs "type" = Ok (JNum IFCPROPERTYENUMERATEDVALUE) ->
  (forall el, In el els -> exists props, el = JObj props) ->
  let values := map elementValue els in
  let pass :=
    existsb (fun v => fst (evalRequirement this v thisValue "Value" None))
            values in
  evalValue evalRequirement this attrs checks =
  Ok (pass,
      checks ++ [ {| IDSCheck.parameter := "Value";
                     IDSCheck.currentValue := JArr values;
                     IDSCheck.requiredValue :=
                       IDSFacetParameter.parameter thisValue;
                     IDSCheck.pass := pass |} ]).
Proof.
  intros Hv Hk Ha Ht Hobj values pass. unfold evalValue.
  rewrite Hk, Hv. cbn [bind]. rewrite Ha. cbn [bind prop strictEq andb].
  assert (Hcond : exists t, prop attrs "type" = Ok t /\
                            strictEq t (JNum IFCPROPERTYLISTVALUE) ||
                            strictEq t (JNum IFCPROPERTYENUMERATEDVALUE) = true).
  { destruct Ht as [Ht|Ht]; eexists; (split; [exact Ht|reflexivity]). }
  destruct Hcond as (t & Ht1 & Ht2). rewrite Ht1. cbn [bind]. rewrite Ht2.
  rewrite elementValues by assumption. cbn [bind app].
  rewrite (find_matching
             (fun v => fst (evalRequirement this v thisValue "Value" None)))
    by assumption.
  reflexivity.
Qed.

End ListFacts.

Lemma evalValue_list_witness :
  evalValue specEvalRequirement
    (demoFacet required "Pset_Demo" "Tags" (Some (simpleParameter (JStr "B"))))
    demoTags [] =
  Ok (true,
      [ {| IDSCheck.parameter := "Value";
           IDSCheck.currentValue := JArr [JStr "A"; JStr "B"];
           IDSCheck.requiredValue := JStr "B";
           IDSCheck.pass := true |} ]).
Proof.
  apply (evalValue_list specEvalRequirement
           (demoFacet required "Pset_Demo" "Tags"
                      (Some (simpleParameter (JStr "B"))))
           (simpleParameter (JStr "B")) demoTags "ListValues"
           [ wrapped 1 (JStr "A") "IFCLABEL"; wrapped 1 (JStr "B") "IFCLABEL" ]
           []).
  - reflexivity.
  - vm_compute. reflexivity.
  - vm_compute. reflexivity.
  - left. vm_compute. reflexivity.
  - intros el [<-|[<-|[]]]; unfold wrapped; eauto.
Defined.

(** No element matches: the check fails and still lists every value. *)
Example evalValue_list_no_match :
  evalValue specEvalRequirement
    (demoFacet required "Pset_Demo" "Tags" (Some (simpleParameter (JStr "C"))))
    demoTags [] =
  Ok (false,
      [ {| IDSCheck.parameter := "Value";
           IDSCheck.currentValue := JArr [JStr "A"; JStr "B"];
           IDSCheck.requiredValue := JStr "C";
           IDSCheck.pass := false |} ]).
Proof. vm_compute. reflexivity. Qed.

(** C10.  The model [demoModel] has the property set [Pset_Demo] with the
    property [Width]: the scan of [getEntities] finds the set, and the call
    of [indexer.getEntitiesWithRelation] that follows throws a
    [TypeError], the indexer having no such member.  [getEntities] does not
    resolve to the empty array and adds nothing to the collector. *)
Theorem getEntities_throws_on_matching_set :
  forEach (getEntities_set (demoFacet required "Pset_Demo" "Width" None)
                           demoModel)
          (allSets demoModel) [] = Ok [10] /\
  getEntities (demoFacet required "Pset_Demo" "Width" None) demoIndexer
              demoModel JsObject.empty = Throws TypeError.
Proof. split; vm_compute; reflexivity. Qed.

(** A property whose value attribute is [null], under a value constraint:
    the scan itself throws, at [propAttrs[valueKey].value] (line 94). *)
Example getEntities_null_value_throws :
  forEach (getEntities_set
             (demoFacet required "Pset_Demo" "Width"
                        (Some (simpleParameter (JNum 5))))
             demoModelNoValue)
          (allSets demoModelNoValue) [] = Throws TypeError.
Proof. vm_compute. reflexivity. Qed.

(** Without a matching set the call of line 106 is not reached. *)
Example getEntities_no_matching_set :
  getEntities (demoFacet required "Pset_Missing" "Width" None) demoIndexer
              demoModel JsObject.empty = Ok ([], JsObject.empty).
Proof. vm_compute. reflexivity. Qed.

(** ** The indexer: installing, caching, forgetting and exporting maps *)

Lemma process_result (relToAttributesMap : Z -> option RelAttributes)
    (this this' : IfcRelationsIndexer) (model : FragmentsGroup)
    (m : RelationsMap) :
  process relToAttributesMap this model = Ok (m, this') ->
  this' = this \/
  (JsObject.get (relationMaps this) (uuid model) = None /\
   this' = setRelationMap this model m).
Proof.
  unfold process. destruct (hasProperties model); cbn [negb]; [|discriminate].
  destruct (JsObject.get (relationMaps this) (uuid model)) as [c|].
  - intros [= <- <-]. now left.
  - intros H. destruct (forEach _ _ _) as [m'| | |]; cbn [bind] in H;
      try discriminate.
    injection H as <- <-. right. auto.
Qed.

Lemma getEntityRelations_other (this : IfcRelationsIndexer)
    (model model' : FragmentsGroup) (m : RelationsMap) (x : Z) (name : string) :
  uuid model' <> uuid model ->
  getEntityRelations (setRelationMap this model m) model' x name =
  getEntityRelations this model' x name.
Proof.
  intros Hne. unfold getEntityRelations, setRelationMap. cbn [relationMaps].
  rewrite JsObject_get_set.
  destruct (String.eqb_spec (uuid model) (uuid model')); [congruence|reflexivity].
Qed.

(** X1.  After [setRelationMap(model, relationMap)], [getEntityRelations]
    on a model with that uuid answers from [relationMap]: the list in the
    slot of the entity for a recognized relation name, [null] otherwise;
    on a model with another uuid it answers as before. *)
Theorem setRelationMap_getEntityRelations (this : IfcRelationsIndexer)
    (model model' : FragmentsGroup) (relationMap : RelationsMap)
    (expressID : Z) (relationName : string) :
  getEntityRelations (setRelationMap this model relationMap) model'
                     expressID relationName =
  if String.eqb (uuid model) (uuid model') then
    if Z.eqb (indexOf _inverseAttributes relationName) (-1) then None
    else slot relationMap expressID (indexOf _inverseAttributes relationName)
  else getEntityRelations this model' expressID relationName.
Proof.
  unfold getEntityRelations, setRelationMap. cbn [relationMaps].
  rewrite JsObject_get_set.
  destruct (String.eqb (uuid model) (uuid model')); [|reflexivity].
  unfold slot. destruct (JsMap.get relationMap expressID) as [er|].
  - destruct (Z.eqb _ (-1)); [reflexivity|]. now destruct (JsMap.get er _).
  - now destruct (Z.eqb _ (-1)).
Qed.

(** X2.  [process] trusts a map installed by [setRelationMap]: on a model
    with that uuid it returns the installed map as it is, whatever the
    records of the model are, indexes nothing and triggers no event; and
    it throws when the model has no properties, installed map or not. *)
Theorem process_after_setRelationMap
    (relToAttributesMap : Z -> option RelAttributes)
    (this : IfcRelationsIndexer) (model model' : FragmentsGroup)
    (relationMap : RelationsMap) :
  uuid model' = uuid model ->
  process relToAttributesMap (setRelationMap this model relationMap) model' =
  if hasProperties model'
  then Ok (relationMap, setRelationMap this model relationMap)
  else Throws "FragmentsGroup properties not found".
Proof.
  intros Hu. unfold process. destruct (hasProperties model'); cbn [negb];
    [|reflexivity].
  rewrite Hu. unfold setRelationMap at 1. cbn [relationMaps].
  now rewrite JsObject_get_set_eq.
Qed.

Lemma process_after_setRelationMap_witness :
  process sampleRelToAttributesMap
          (setRelationMap emptyIndexer twoAggregates unorderedMap)
          twoAggregates =
  if hasProperties twoAggregates
  then Ok (unorderedMap, setRelationMap emptyIndexer twoAggregates unorderedMap)
  else Throws "FragmentsGroup properties not found".
Proof.
  apply (process_after_setRelationMap sampleRelToAttributesMap emptyIndexer
           twoAggregates twoAggregates unorderedMap).
  reflexivity.
Defined.

(** X3.  A call of [process] that returns touches the index of no other
    model: queries and serialization for every other uuid answer as
    before, and the log of [onRelationsIndexed] gains at most one event,
    which carries the uuid of the model and the map returned. *)
Theorem process_other_models
    (relToAttributesMap : Z -> option RelAttributes)
    (this this' : IfcRelationsIndexer) (model : FragmentsGroup)
    (m : RelationsMap) :
  process relToAttributesMap this model = Ok (m, this') ->
  (forall model' x name,
     uuid model' <> uuid model ->
     getEntityRelations this' model' x name =
     getEntityRelations this model' x name) /\
  (forall model',
     uuid model' <> uuid model ->
     serializeModelRelations this' model' = serializeModelRelations this model') /\
  (onRelationsIndexed this' = onRelationsIndexed this \/
   onRelationsIndexed this' = onRelationsIndexed this ++ [(uuid model, m)]).
Proof.
  intros H. apply process_result in H. destruct H as [->|[_ ->]].
  - repeat split; auto.
  - split; [|split].
    + intros model' x name Hne. now apply getEntityRelations_other.
    + intros model' Hne. unfold serializeModelRelations, setRelationMap.
      cbn [relationMaps]. rewrite JsObject_get_set.
      destruct (String.eqb_spec (uuid model) (uuid model'));
        [congruence|reflexivity].
    + right. reflexivity.
Qed.

Lemma process_other_models_witness :
  exists m this',
    process sampleRelToAttributesMap demoIndexer twoAggregates = Ok (m, this') /\
    (forall model' x name,
       uuid model' <> uuid twoAggregates ->
       getEntityRelations this' model' x name =
       getEntityRelations demoIndexer model' x name) /\
    (forall model',
       uuid model' <> uuid twoAggregates ->
       serializeModelRelations this' model' =
       serializeModelRelations demoIndexer model') /\
    (onRelationsIndexed this' = onRelationsIndexed demoIndexer \/
     onRelationsIndexed this' =
     onRelationsIndexed demoIndexer ++ [(uuid twoAggregates, m)]).
Proof.
  eexists. eexists. split; [vm_compute; reflexivity|].
  apply (process_other_models sampleRelToAttributesMap demoIndexer _
           twoAggregates _).
  vm_compute. reflexivity.
Defined.

(** X4.  [processFromWebIfc] stores nothing: when it returns, the
    dictionary [relationMaps] is as before, so every query answers as
    before, and the log of [onRelationsIndexed] has gained exactly one
    event, under the key [modelID.toString()]; the map returned does not
    depend on the indexer, and a second call triggers the event again. *)
Theorem processFromWebIfc_stores_nothing
    (relToAttributesMap : Z -> option RelAttributes)
    (this this' : IfcRelationsIndexer) (ifcApi : IfcAPI) (modelID : Z)
    (m : RelationsMap) :
  processFromWebIfc relToAttributesMap this ifcApi modelID = Ok (m, this') ->
  relationMaps this' = relationMaps this /\
  onRelationsIndexed this' =
    onRelationsIndexed this ++ [(String_of_Z modelID, m)] /\
  (forall model x name,
     getEntityRelations this' model x name =
     getEntityRelations this model x name) /\
  (forall other,
     processFromWebIfc relToAttributesMap other ifcApi modelID =
     Ok (m, {| relationMaps := relationMaps other;
               onRelationsIndexed :=
                 onRelationsIndexed other ++ [(String_of_Z modelID, m)] |})).
Proof.
  unfold processFromWebIfc. intros H.
  destruct (forEach _ _ _) as [m'| | |]; cbn [bind] in H |- *;
    try discriminate.
  injection H as <- <-. cbn [relationMaps onRelationsIndexed].
  repeat split; reflexivity.
Qed.

Lemma processFromWebIfc_stores_nothing_witness :
  exists m this',
    processFromWebIfc sampleRelToAttributesMap emptyIndexer twoAggregatesApi 0 =
      Ok (m, this') /\
    relationMaps this' = relationMaps emptyIndexer /\
    onRelationsIndexed this' =
      onRelationsIndexed emptyIndexer ++ [(String_of_Z 0, m)] /\
    (forall model x name,
       getEntityRelations this' model x name =
       getEntityRelations emptyIndexer model x name) /\
    (forall other,
       processFromWebIfc sampleRelToAttributesMap other twoAggregatesApi 0 =
       Ok (m, {| relationMaps := relationMaps other;
                 onRelationsIndexed :=
                   onRelationsIndexed other ++ [(String_of_Z 0, m)] |})).
Proof.
  eexists. eexists. split; [vm_compute; reflexivity|].
  apply (processFromWebIfc_stores_nothing sampleRelToAttributesMap emptyIndexer
           _ twoAggregatesApi 0 _).
  vm_compute. reflexivity.
Defined.

Lemma forEach_not_Ok {A S : Type} (body : S -> A -> outcome S) (l : list A)
    (a : A) :
  In a l -> (forall s s', body s a <> Ok s') ->
  forall s s', forEach body l s <> Ok s'.
Proof.
  induction l as [|x l IH]; intros Hin Hbad s s'; [destruct Hin|].
  cbn [forEach]. destruct Hin as [->|Hin].
  - specialize (Hbad s). destruct (body s a) as [s1| | |]; cbn [bind];
      try discriminate.
    now destruct (Hbad s1).
  - destruct (body s x) as [s1| | |]; cbn [bind]; try discriminate.
    now apply IH.
Qed.

(** X5.  One malformed relation line stops [processFromWebIfc]: when a
    line of a relation type of the table has both keys and its
    [Relating...] attribute is [null], or its [Related...] attribute is
    not an array, the call returns no map, whatever the other lines
    are. *)
Theorem processFromWebIfc_malformed_line
    (relToAttributesMap : Z -> option RelAttributes)
    (this : IfcRelationsIndexer) (ifcApi : IfcAPI) (modelID : Z)
    (relType lineID : Z) (a : RelAttributes) (relatingKey relatedKey : string) :
  In relType _ifcRels ->
  relToAttributesMap relType = Some a ->
  In lineID (GetLineIDsWithType ifcApi modelID relType) ->
  findKey (startsWith "Relating") (getItemProperties ifcApi modelID lineID) =
    Some relatingKey ->
  findKey (startsWith "Related") (getItemProperties ifcApi modelID lineID) =
    Some relatedKey ->
  JsObject.get (getItemProperties ifcApi modelID lineID) relatingKey =
    Some RNull \/
  (forall els,
     JsObject.get (getItemProperties ifcApi modelID lineID) relatedKey <>
     Some (RHandles els)) ->
  forall result,
    processFromWebIfc relToAttributesMap this ifcApi modelID <> Ok result.
Proof.
  intros Hrel Ha Hline Hk1 Hk2 Hbad result. unfold processFromWebIfc.
  match goal with
  | |- bind (forEach ?f _ _) _ <> _ =>
      pose proof (forEach_not_Ok f _ifcRels relType Hrel) as Hf
  end.
  cbv beta in Hf. rewrite Ha in Hf.
  match type of Hf with
  | ?P -> _ =>
      assert (Hp : P); [|specialize (Hf Hp JsMap.empty)]
  end.
  { intros s s'. apply (forEach_not_Ok _ _ lineID Hline).
    intros s0 s0'. unfold processFromWebIfc_readLine. rewrite Hk1, Hk2.
    destruct Hbad as [Hnull|Hnot].
    - rewrite Hnull. cbn [orElse bind]. discriminate.
    - destruct (JsObject.get (getItemProperties ifcApi modelID lineID)
                             relatedKey) as [[| |els|]|];
        try (now destruct (Hnot els));
        destruct (JsObject.get (getItemProperties ifcApi modelID lineID)
                               relatingKey) as [[| | |]|];
        cbn [orElse bind]; discriminate. }
  match goal with
  | |- bind ?c _ <> _ => destruct c as [m| | |] eqn:Hc
  end; cbn [bind]; try discriminate.
  now destruct (Hf m).
Qed.

Lemma processFromWebIfc_malformed_line_witness :
  JsObject.get (getItemProperties nullRelatingApi 0 100) "RelatingObject" =
    Some RNull /\
  forall result,
    processFromWebIfc sampleRelToAttributesMap emptyIndexer nullRelatingApi 0 <>
    Ok result.
Proof.
  split; [reflexivity|].
  apply (processFromWebIfc_malformed_line sampleRelToAttributesMap emptyIndexer
           nullRelatingApi 0 IFCRELAGGREGATES 100
           {| forRelating := "IsDecomposedBy"; forRelated := "Decomposes" |}
           "RelatingObject" "RelatedObjects").
  - vm_compute. auto.
  - reflexivity.
  - vm_compute. auto.
  - reflexivity.
  - reflexivity.
  - left. reflexivity.
Defined.

Lemma indexOfFrom_inj (l : list string) (a b : string) :
  forall i,
    indexOfFrom i l a = indexOfFrom i l b -> indexOfFrom i l a <> -1 ->
    0 <= i -> a = b.
Proof.
  induction l as [|y l IH]; intros i Heq Hne Hi; cbn [indexOfFrom] in *;
    [congruence|].
  destruct (String.eqb_spec y a) as [Hya|Hya];
    destruct (String.eqb_spec y b) as [Hyb|Hyb]; try congruence.
  - destruct (indexOfFrom_range l b (i + 1)); lia.
  - destruct (indexOfFrom_range l a (i + 1)); lia.
  - apply (IH (i + 1)); auto. lia.
Qed.

Lemma indexOf_inj (a b : string) :
  indexOf _inverseAttributes a = indexOf _inverseAttributes b ->
  indexOf _inverseAttributes a <> -1 -> a = b.
Proof.
  intros Heq Hne. apply (indexOfFrom_inj _inverseAttributes a b 0); auto. lia.
Qed.

Lemma indexOfFrom_In (l : list string) (a : string) :
  forall i, indexOfFrom i l a <> -1 -> In a l.
Proof.
  induction l as [|y l IH]; intros i H; cbn [indexOfFrom] in H; [congruence|].
  destruct (String.eqb_spec y a) as [->|_]; [now left|right].
  now apply (IH (i + 1)).
Qed.

Lemma slotSpec_sound (relToAttributesMap : Z -> option RelAttributes)
    (recs : list RelRecord) (x i : Z) (l : list Z) (y : Z) :
  slotSpec relToAttributesMap recs x i = Some l -> In y l ->
  exists rec,
    In rec recs /\
    ((relatingIndex relToAttributesMap (fst rec) = Some i /\
      x = fst (snd rec) /\ In y (snd (snd rec))) \/
     (relatedIndex relToAttributesMap (fst rec) = Some i /\
      y = fst (snd rec) /\ In x (snd (snd rec)))).
Proof.
  unfold slotSpec. intros Hs Hy.
  destruct (lastForward relToAttributesMap recs x i) as [E|] eqn:Hl.
  - injection Hs as <-. apply lastForward_In in Hl.
    destruct Hl as (rec & Hin & Hset & <-).
    exists rec. split; auto. left. unfold setsForward in Hset.
    apply andb_prop in Hset. destruct Hset as [H1 H2].
    apply Z.eqb_eq in H2.
    destruct (relatingIndex relToAttributesMap (fst rec)) as [j|];
      cbn [optZeqb] in H1; [|discriminate].
    apply Z.eqb_eq in H1. subst. auto.
  - assert (Hb : backRefs relToAttributesMap recs x i = l).
    { destruct (backRefs relToAttributesMap recs x i); congruence. }
    subst l. unfold backRefs in Hy. apply in_flat_map in Hy.
    destruct Hy as (rec & Hin & Hy). exists rec. split; auto. right.
    destruct (relatedIndex relToAttributesMap (fst rec)) as [j|];
      cbn [optZeqb] in Hy; [|destruct Hy].
    destruct (Z.eqb_spec j i) as [Hji|]; [|destruct Hy].
    subst j. split; auto. split.
    + now apply repeat_spec in Hy.
    + destruct (In_dec Z.eq_dec x (snd (snd rec))) as [|Hn]; auto.
      apply (count_occ_not_In Z.eq_dec) in Hn. unfold count in Hy.
      rewrite Hn in Hy. destruct Hy.
Qed.

Lemma flat_map_nil {A B : Type} (f : A -> list B) (l : list A) :
  (forall a, In a l -> f a = []) -> flat_map f l = [].
Proof.
  induction l as [|a l IH]; intros H; cbn [flat_map]; auto.
  rewrite (H a (or_introl eq_refl)), IH; auto.
  intros a' Ha'. apply H. now right.
Qed.

(** X6.  The index invents nothing.  After [process] has indexed a model,
    every identifier [y] that [getEntityRelations(model, x, name)] returns
    comes from a record of the model: either [name] is the role of the
    relating entity, [x] is the relating entity and [y] is one of the
    related, or [name] is the role of the related entities, [y] is the
    relating entity and [x] is one of the related.  An entity that takes
    part in no record has no relations under any name. *)
Theorem process_relations_from_records
    (relToAttributesMap : Z -> option RelAttributes)
    (this : IfcRelationsIndexer) (model : FragmentsGroup) :
  rolesSeparate relToAttributesMap = true ->
  hasProperties model = true ->
  JsObject.get (relationMaps this) (uuid model) = None ->
  exists m this',
    process relToAttributesMap this model = Ok (m, this') /\
    (forall x name l y,
       getEntityRelations this' model x name = Some l -> In y l ->
       exists rel r E a,
         In (rel, (r, E)) (allRecords model) /\
         relToAttributesMap rel = Some a /\
         ((name = forRelating a /\ x = r /\ In y E) \/
          (name = forRelated a /\ y = r /\ In x E))) /\
    (forall x,
       (forall rel r E a,
          In (rel, (r, E)) (allRecords model) ->
          relToAttributesMap rel = Some a -> x <> r /\ ~ In x E) ->
       forall name, getEntityRelations this' model x name = None).
Proof.
  intros Hsep Hp Hfresh.
  destruct (process_slots relToAttributesMap this model Hsep Hp Hfresh)
    as (m & Hm & Hget).
  exists m, (setRelationMap this model m). split; [exact Hm|]. split.
  - intros x name l y Hl Hy. rewrite Hget in Hl.
    destruct (Z.eqb_spec (indexOf _inverseAttributes name) (-1)) as [|Hne];
      [discriminate|].
    destruct (slotSpec_sound relToAttributesMap _ _ _ _ _ Hl Hy)
      as ([rel [r E]] & Hin & Hcase).
    cbn [fst snd] in Hcase. unfold relatingIndex, relatedIndex in Hcase.
    destruct (relToAttributesMap rel) as [a|] eqn:Ha; cbn [option_map] in Hcase.
    2:{ destruct Hcase as [[? _]|[? _]]; discriminate. }
    exists rel, r, E, a. split; [exact Hin|]. split; [exact Ha|].
    destruct Hcase as [([= Hi] & -> & HyE)|([= Hi] & -> & HxE)].
    + left. split; auto. symmetry. apply indexOf_inj; congruence.
    + right. split; auto. symmetry. apply indexOf_inj; congruence.
  - intros x Hout name. rewrite Hget.
    destruct (Z.eqb (indexOf _inverseAttributes name) (-1)); [reflexivity|].
    unfold slotSpec. rewrite lastForward_none.
    + unfold backRefs. rewrite flat_map_nil; [reflexivity|].
      intros [rel [r E]] Hin. cbn [fst snd]. unfold relatedIndex.
      destruct (relToAttributesMap rel) as [a|] eqn:Ha; cbn [option_map optZeqb];
        [|reflexivity].
      destruct (Hout rel r E a Hin Ha) as [_ Hn].
      apply (count_occ_not_In Z.eq_dec) in Hn. unfold count. rewrite Hn.
      now destruct (Z.eqb _ _).
    + intros [rel [r E]] Hin. unfold setsForward, relatingIndex. cbn [fst snd].
      destruct (relToAttributesMap rel) as [a|] eqn:Ha; cbn [option_map optZeqb];
        [|reflexivity].
      destruct (Hout rel r E a Hin Ha) as [Hn _].
      destruct (Z.eqb_spec r x); [congruence|]. apply andb_false_r.
Qed.

Lemma process_relations_from_records_witness :
  exists m this',
    process sampleRelToAttributesMap emptyIndexer twoAggregates = Ok (m, this') /\
    (forall x name l y,
       getEntityRelations this' twoAggregates x name = Some l -> In y l ->
       exists rel r E a,
         In (rel, (r, E)) (allRecords twoAggregates) /\
         sampleRelToAttributesMap rel = Some a /\
         ((name = forRelating a /\ x = r /\ In y E) \/
          (name = forRelated a /\ y = r /\ In x E))) /\
    (forall x,
       (forall rel r E a,
          In (rel, (r, E)) (allRecords twoAggregates) ->
          sampleRelToAttributesMap rel = Some a -> x <> r /\ ~ In x E) ->
       forall name, getEntityRelations this' twoAggregates x name = None).
Proof.
  apply (process_relations_from_records sampleRelToAttributesMap emptyIndexer
           twoAggregates); vm_compute; reflexivity.
Defined.

Lemma slotSpec_role (relToAttributesMap : Z -> option RelAttributes)
    (recs : list RelRecord) (x i : Z) (l : list Z) :
  slotSpec relToAttributesMap recs x i = Some l ->
  exists rec a,
    In rec recs /\ relToAttributesMap (fst rec) = Some a /\
    (i = indexOf _inverseAttributes (forRelating a) \/
     i = indexOf _inverseAttributes (forRelated a)).
Proof.
  unfold slotSpec. intros Hs.
  destruct (lastForward relToAttributesMap recs x i) as [E|] eqn:Hl.
  - apply lastForward_In in Hl. destruct Hl as (rec & Hin & Hset & _).
    unfold setsForward, relatingIndex in Hset.
    apply andb_prop in Hset. destruct Hset as [H1 _].
    destruct (relToAttributesMap (fst rec)) as [a|] eqn:Ha;
      cbn [option_map optZeqb] in H1; [|discriminate].
    apply Z.eqb_eq in H1. exists rec, a. auto.
  - destruct (backRefs relToAttributesMap recs x i) as [|y l'] eqn:Hb;
      [discriminate|].
    assert (Hy : In y (backRefs relToAttributesMap recs x i)).
    { rewrite Hb. now left. }
    unfold backRefs in Hy. apply in_flat_map in Hy.
    destruct Hy as (rec & Hin & Hy). unfold relatedIndex in Hy.
    destruct (relToAttributesMap (fst rec)) as [a|] eqn:Ha;
      cbn [option_map optZeqb] in Hy; [|destruct Hy].
    destruct (Z.eqb_spec (indexOf _inverseAttributes (forRelated a)) i);
      [|destruct Hy].
    exists rec, a. auto.
Qed.

(** X7.  Nothing indexed is out of reach.  When every role of the table
    is one of [_inverseAttributes], every list that [process] files in a
    slot of the relation map it returns is the answer of
    [getEntityRelations] for that entity under one of the fourteen
    relation names. *)
Theorem process_slots_reachable
    (relToAttributesMap : Z -> option RelAttributes)
    (this : IfcRelationsIndexer) (model : FragmentsGroup) :
  rolesSeparate relToAttributesMap = true ->
  rolesKnown relToAttributesMap = true ->
  hasProperties model = true ->
  JsObject.get (relationMaps this) (uuid model) = None ->
  exists m this',
    process relToAttributesMap this model = Ok (m, this') /\
    forall x i l,
      slot m x i = Some l ->
      exists name,
        In name _inverseAttributes /\
        indexOf _inverseAttributes name = i /\
        getEntityRelations this' model x name = Some l.
Proof.
  intros Hsep Hknown Hp Hfresh.
  destruct (indexAll_slots relToAttributesMap (allRecords model) Hsep
              (allRecords_rel model)) as (m & Hm & Hslots).
  exists m, (setRelationMap this model m). split.
  { rewrite process_fresh by assumption. rewrite Hm. reflexivity. }
  intros x i l Hl.
  assert (Hspec := Hl). rewrite Hslots in Hspec.
  destruct (slotSpec_role relToAttributesMap _ _ _ _ Hspec)
    as (rec & a & Hin & Ha & Hi).
  destruct (rolesKnown_spec relToAttributesMap (fst rec) a Hknown
              (allRecords_rel model rec Hin) Ha) as [Hk1 Hk2].
  assert (Hq : forall name,
            indexOf _inverseAttributes name = i ->
            Z.eqb (indexOf _inverseAttributes name) (-1) = false ->
            In name _inverseAttributes /\
            indexOf _inverseAttributes name = i /\
            getEntityRelations (setRelationMap this model m) model x name =
              Some l).
  { intros name Hn Hk. split; [|split; [exact Hn|]].
    - apply (indexOfFrom_In _ name 0). apply Z.eqb_neq in Hk. exact Hk.
    - rewrite (getEntityRelations_slot _ model m).
      + rewrite Hk, Hn. exact Hl.
      + unfold setRelationMap. cbn [relationMaps]. apply JsObject_get_set_eq. }
  destruct Hi as [Hi | Hi]; subst i; eexists; apply Hq; auto.
Qed.

Lemma process_slots_reachable_witness :
  exists m this',
    process sampleRelToAttributesMap emptyIndexer twoAggregates = Ok (m, this') /\
    forall x i l,
      slot m x i = Some l ->
      exists name,
        In name _inverseAttributes /\
        indexOf _inverseAttributes name = i /\
        getEntityRelations this' twoAggregates x name = Some l.
Proof.
  apply (process_slots_reachable sampleRelToAttributesMap emptyIndexer
           twoAggregates); vm_compute; reflexivity.
Defined.

(** X8.  The content of the index.  After [process] has indexed a model
    under a table that keeps the roles of relating and related entities
    in different slots, [getEntityRelations(model, x, name)] is [null] for
    a name that is not recognized; for a recognized name it is the related
    list of the last record that has [x] as relating entity under that
    name, when there is one; otherwise the relating entities of the
    records that list [x] as related under that name, in the order of the
    records and once per occurrence of [x]; and [null] when there is no
    such record either. *)
Theorem process_index_contents
    (relToAttributesMap : Z -> option RelAttributes)
    (this : IfcRelationsIndexer) (model : FragmentsGroup) :
  rolesSeparate relToAttributesMap = true ->
  hasProperties model = true ->
  JsObject.get (relationMaps this) (uuid model) = None ->
  exists m this',
    process relToAttributesMap this model = Ok (m, this') /\
    forall x name,
      getEntityRelations this' model x name =
      let i := indexOf _inverseAttributes name in
      if Z.eqb i (-1) then None
      else
        match lastForward relToAttributesMap (allRecords model) x i with
        | Some relatedIDs => Some relatedIDs
        | None =>
            match backRefs relToAttributesMap (allRecords model) x i with
            | [] => None
            | relatingIDs => Some relatingIDs
            end
        end.
Proof.
  intros Hsep Hp Hfresh.
  destruct (process_slots relToAttributesMap this model Hsep Hp Hfresh)
    as (m & Hm & Hget).
  exists m, (setRelationMap this model m). split; [exact Hm|].
  intros x name. rewrite Hget. reflexivity.
Qed.

Lemma process_index_contents_witness :
  exists m this',
    process sampleRelToAttributesMap emptyIndexer twoAggregates = Ok (m, this') /\
    forall x name,
      getEntityRelations this' twoAggregates x name =
      let i := indexOf _inverseAttributes name in
      if Z.eqb i (-1) then None
      else
        match lastForward sampleRelToAttributesMap (allRecords twoAggregates)
                          x i with
        | Some relatedIDs => Some relatedIDs
        | None =>
            match backRefs sampleRelToAttributesMap (allRecords twoAggregates)
                           x i with
            | [] => None
            | relatingIDs => Some relatingIDs
            end
        end.
Proof.
  apply (process_index_contents sampleRelToAttributesMap emptyIndexer
           twoAggregates); vm_compute; reflexivity.
Defined.

Lemma get_deleteProperty {V : Type} (o : JsObject.t V) (k k' : string) :
  JsObject.get (deleteProperty o k) k' =
  if String.eqb k k' then None else JsObject.get o k'.
Proof.
  unfold deleteProperty.
  induction o as [|[k0 v] o IH]; cbn [filter JsObject.get fst].
  - now destruct (String.eqb k k').
  - destruct (String.eqb_spec k0 k) as [Heq|Hne]; cbn [negb].
    + rewrite IH, Heq. destruct (String.eqb_spec k k'); reflexivity.
    + cbn [JsObject.get]. rewrite IH.
      destruct (String.eqb_spec k k') as [Hk|_]; [|reflexivity].
      rewrite <- Hk.
      destruct (String.eqb_spec k0 k); [contradiction|reflexivity].
Qed.

Lemma process_indexAll (relToAttributesMap : Z -> option RelAttributes)
    (this this' : IfcRelationsIndexer) (model : FragmentsGroup)
    (m : RelationsMap) :
  JsObject.get (relationMaps this) (uuid model) = None ->
  process relToAttributesMap this model = Ok (m, this') ->
  hasProperties model = true /\
  indexAll relToAttributesMap (allRecords model) JsMap.empty = Ok m /\
  this' = setRelationMap this model m.
Proof.
  intros Hfresh H.
  assert (Hp : hasProperties model = true).
  { unfold process in H. destruct (hasProperties model); [reflexivity|].
    discriminate. }
  rewrite process_fresh in H by assumption.
  destruct (indexAll _ _ _) as [m'| | |]; cbn [bind] in H; try discriminate.
  injection H as <- <-. auto.
Qed.

(** X9.  [onFragmentsDisposed] forgets the index of the group disposed
    and of no other: afterwards [getEntityRelations] and
    [serializeModelRelations] return [null] for a model with that uuid
    and answer as before for every other model.  A later [process] of the
    model does not find the old map: it indexes the records again,
    returns the same map as the first time and triggers
    [onRelationsIndexed] once more. *)
Theorem onFragmentsDisposed_forgets
    (relToAttributesMap : Z -> option RelAttributes)
    (this : IfcRelationsIndexer) (data : FragmentsDisposed) :
  (forall model x name,
     getEntityRelations (onFragmentsDisposed this data) model x name =
     if String.eqb (groupID data) (uuid model) then None
     else getEntityRelations this model x name) /\
  (forall model,
     serializeModelRelations (onFragmentsDisposed this data) model =
     if String.eqb (groupID data) (uuid model) then None
     else serializeModelRelations this model) /\
  (forall before model m,
     JsObject.get (relationMaps before) (uuid model) = None ->
     process relToAttributesMap before model = Ok (m, this) ->
     groupID data = uuid model ->
     process relToAttributesMap (onFragmentsDisposed this data) model =
     Ok (m, setRelationMap (onFragmentsDisposed this data) model m)).
Proof.
  split; [|split].
  - intros model x name. unfold getEntityRelations, onFragmentsDisposed.
    cbn [relationMaps]. rewrite get_deleteProperty.
    now destruct (String.eqb (groupID data) (uuid model)).
  - intros model. unfold serializeModelRelations, onFragmentsDisposed.
    cbn [relationMaps]. rewrite get_deleteProperty.
    now destruct (String.eqb (groupID data) (uuid model)).
  - intros before model m Hfresh Hm Hg.
    apply process_indexAll in Hm; [|assumption].
    destruct Hm as (Hp & Hm & _).
    rewrite process_fresh; auto.
    + now rewrite Hm.
    + unfold onFragmentsDisposed. cbn [relationMaps].
      rewrite get_deleteProperty, Hg. now rewrite String.eqb_refl.
Qed.

Lemma onFragmentsDisposed_forgets_witness :
  let data := {| groupID := uuid twoAggregates; fragmentIDs := [] |} in
  exists m this,
    process sampleRelToAttributesMap emptyIndexer twoAggregates = Ok (m, this) /\
    getEntityRelations this twoAggregates 1 "IsDecomposedBy" = Some [4; 2] /\
    getEntityRelations (onFragmentsDisposed this data) twoAggregates 1
                       "IsDecomposedBy" = None /\
    process sampleRelToAttributesMap (onFragmentsDisposed this data)
            twoAggregates =
    Ok (m, setRelationMap (onFragmentsDisposed this data) twoAggregates m).
Proof.
  intros data. eexists. eexists.
  assert (H : process sampleRelToAttributesMap emptyIndexer twoAggregates =
              Ok _) by (vm_compute; reflexivity).
  split; [exact H|]. split; [vm_compute; reflexivity|].
  split; [vm_compute; reflexivity|].
  refine (proj2 (proj2 (onFragmentsDisposed_forgets sampleRelToAttributesMap
                          _ data)) emptyIndexer twoAggregates _ _ H _);
    reflexivity.
Defined.

Lemma render_app (ts ts' : list token) :
  render (ts ++ ts') = (render ts ++ render ts')%string.
Proof.
  induction ts as [|t ts IH]; cbn [render app]; [reflexivity|].
  now rewrite IH, string_app_assoc.
Qed.

Lemma render_commaSeparated {A : Type} (f : A -> list token) (l : list A) :
  render (commaSeparated f l) = commaJoined (map (fun a => render (f a)) l).
Proof.
  induction l as [|a l IH]; [reflexivity|].
  destruct l as [|b l]; [reflexivity|].
  change (commaSeparated f (a :: b :: l))
    with (f a ++ TComma :: commaSeparated f (b :: l)).
  rewrite render_app. cbn [render renderToken]. rewrite IH. reflexivity.
Qed.

Lemma fold_set_appends {A V : Type} (key : A -> string) (val : A -> V)
    (l : list A) :
  NoDup (map key l) ->
  (forall a, In a l -> JsObject.arrayIndex (key a) = None) ->
  forall o : JsObject.t V,
    (forall a, In a l -> JsObject.get o (key a) = None) ->
    fold_left (fun o a => JsObject.set o (key a) (val a)) l o =
    o ++ map (fun a => (key a, val a)) l.
Proof.
  induction l as [|a l IH]; intros Hnd Hidx o Ho; cbn [fold_left map].
  - now rewrite app_nil_r.
  - inversion Hnd as [|? ? Hnotin Hnd']; subst.
    unfold JsObject.set at 2.
    rewrite (Ho a (or_introl eq_refl)), (Hidx a (or_introl eq_refl)).
    rewrite IH; auto.
    + now rewrite <- app_assoc.
    + intros a' Ha'. apply Hidx. now right.
    + intros a' Ha'. rewrite JsObject_get_app, (Ho a' (or_intror Ha')).
      cbn [JsObject.get].
      destruct (String.eqb_spec (key a) (key a')) as [Heq|]; [|reflexivity].
      exfalso. apply Hnotin. rewrite Heq. now apply in_map.
Qed.

(** X10.  [serializeAllRelations] writes one member per model of
    [relationMaps], in the order of the dictionary: the uuid as a JSON
    string, a colon, and the very text that [serializeRelations] writes
    for the map of that model, the members separated by commas and
    enclosed in braces; with no model indexed the text is the empty
    object.  Model identifiers are uuids, not array indices. *)
Theorem serializeAllRelations_members (this : IfcRelationsIndexer) :
  NoDup (JsObject.keys (relationMaps this)) ->
  (forall uuid, In uuid (JsObject.keys (relationMaps this)) ->
                JsObject.arrayIndex uuid = None) ->
  serializeAllRelations this =
  ("{" ++
   commaJoined
     (map (fun member =>
             renderToken (TStr (fst member)) ++ ":" ++
             serializeRelations (snd member))
          (relationMaps this)) ++
   "}")%string.
Proof.
  intros Hnd Hidx. unfold serializeAllRelations.
  match goal with
  | |- JSON_stringify_models (fold_left (fun jsonObject member => JsObject.set jsonObject (fst member) (@?val member)) _ _) = _ =>
      rewrite (fold_set_appends fst val)
  end; auto.
  - unfold JsObject.empty at 1. cbn [app].
    unfold JSON_stringify_models, modelsTokens.
    cbn [render renderToken]. rewrite render_app, render_commaSeparated.
    rewrite map_map. cbn [render renderToken append]. reflexivity.
  - intros a Ha. apply Hidx. unfold JsObject.keys. now apply in_map.
Qed.

Lemma serializeAllRelations_members_witness :
  serializeAllRelations twoModelsIndexer =
  ("{" ++
   commaJoined
     (map (fun member =>
             renderToken (TStr (fst member)) ++ ":" ++
             serializeRelations (snd member))
          (relationMaps twoModelsIndexer)) ++
   "}")%string.
Proof.
  apply (serializeAllRelations_members twoModelsIndexer).
  - repeat constructor; simpl; intuition discriminate.
  - intros uuid [<-|[<-|[]]]; vm_compute; reflexivity.
Defined.

(** The text written for [twoModelsIndexer], and for no model at all. *)
Example serializeAllRelations_demo :
  serializeAllRelations twoModelsIndexer =
    String "{"
      (renderToken (TStr "3f1c2a9e-5b7d-4c1e-9a60-2d8e4b6f0a11") ++
       ":{" ++ renderToken (TStr "3") ++ ":{" ++ renderToken (TStr "1") ++
       ":[9]}," ++ renderToken (TStr "5") ++ ":{" ++ renderToken (TStr "0") ++
       ":[1,2]," ++ renderToken (TStr "7") ++ ":[]}}," ++
       renderToken (TStr "7a0c5e12-9b44-4d0f-8e21-6c3f5a1b2d90") ++
       ":{" ++ renderToken (TStr "1") ++ ":{" ++ renderToken (TStr "7") ++
       ":[10]}}}")%string /\
  serializeAllRelations emptyIndexer = "{}".
Proof. split; vm_compute; reflexivity. Qed.

(** ** The [// forRelated] loop and the array it walks *)

(** X11.  The arrays of the index are never shared.  Run with the arrays
    kept by reference, as the source has them, the indexing of a sequence
    of records that returns a relation map ends, each loop within one
    turn more than the record has related entities, in a store where
    every slot holds an array of its own, whose content is the list that
    the relation map has in that slot: pushing a back-reference onto one
    slot changes no other slot, the forward slot set from [relatedIDs]
    included. *)
Theorem indexing_by_reference_agrees
    (relToAttributesMap : Z -> option RelAttributes)
    (recs : list RelRecord) (m : RelationsMap) :
  indexAll relToAttributesMap recs JsMap.empty = Ok m ->
  exists st,
    indexAllRef relToAttributesMap recs ([], JsMap.empty) = Some st /\
    storeOk st /\ represents m st.
Proof.
  intros Hm. destruct empty_store_ok as [Hok Hrep].
  exact (indexAllRef_agrees relToAttributesMap recs _ _ _ Hok Hrep Hm).
Qed.

Lemma indexing_by_reference_agrees_witness :
  exists m st,
    indexAll sampleRelToAttributesMap (allRecords twoAggregates) JsMap.empty =
      Ok m /\
    indexAllRef sampleRelToAttributesMap (allRecords twoAggregates)
                ([], JsMap.empty) = Some st /\
    storeOk st /\ represents m st.
Proof.
  assert (H : exists m,
            indexAll sampleRelToAttributesMap (allRecords twoAggregates)
                     JsMap.empty = Ok m).
  { eexists. vm_compute. reflexivity. }
  destruct H as (m & H). exists m.
  destruct (indexing_by_reference_agrees sampleRelToAttributesMap
              (allRecords twoAggregates) m H) as (st & H1 & H2 & H3).
  exists st. auto.
Defined.

(** X12.  When a table files both roles of a relation under the same
    slot and the relating entity of a record is among its related
    entities, the [// forRelated] loop pushes onto the array it walks:
    run with the arrays kept by reference, the indexing of the record
    ends within no number of turns. *)
Theorem indexing_by_reference_diverges (a : RelAttributes)
    (st : Store * RefMap) (relatingID : Z) (relatedIDs : list Z) :
  storeOk st ->
  indexOf _inverseAttributes (forRelating a) =
    indexOf _inverseAttributes (forRelated a) ->
  In relatingID relatedIDs ->
  forall fuel, indexRecordRef fuel a st relatingID relatedIDs = None.
Proof.
  intros Hok Hsame Hin. apply indexRecordRef_diverges; auto.
  unfold pushesOntoWalked. rewrite Hsame, Z.eqb_refl. cbn [andb].
  apply existsb_exists. exists relatingID. split; auto. apply Z.eqb_refl.
Qed.

Lemma indexing_by_reference_diverges_witness :
  In 1 [5; 1] /\
  forall fuel,
    indexRecordRef fuel sameRoleAttributes ([], JsMap.empty) 1 [5; 1] = None.
Proof.
  split; [right; now left|].
  apply (indexing_by_reference_diverges sameRoleAttributes ([], JsMap.empty)
           1 [5; 1]).
  - exact (proj1 empty_store_ok).
  - reflexivity.
  - right. now left.
Defined.

(** ** Serialization: the map read back is in normal form *)

Lemma arrayIndex_Some (k : string) (n : Z) :
  JsObject.arrayIndex k = Some n -> k = String_of_Z n /\ 0 <= n.
Proof.
  unfold JsObject.arrayIndex. destruct (Number k) as [z|]; [|discriminate].
  destruct (String.eqb_spec (String_of_Z z) k) as [Hk|]; [|discriminate].
  destruct (Z.leb_spec 0 z); [|discriminate].
  destruct (z <? 4294967295); [|discriminate].
  cbn [andb]. intros [= <-]. auto.
Qed.

Lemma insertIndex_end {V : Type} (o : JsObject.t V) (n : Z) (k : string) (v : V) :
  (forall k', In k' (JsObject.keys o) ->
     exists n', JsObject.arrayIndex k' = Some n' /\ n' < n) ->
  JsObject.insertIndex o n k v = o ++ [(k, v)].
Proof.
  induction o as [|[k' v'] o IH]; intros H; cbn [JsObject.insertIndex app];
    [reflexivity|].
  destruct (H k' (or_introl eq_refl)) as (n' & -> & Hlt).
  destruct (Z.ltb_spec n' n); [|lia].
  rewrite IH; [reflexivity|]. intros k0 Hk0. apply H. now right.
Qed.

Lemma nonIndexKeys_NoDup (ks : list string) :
  nonIndexKeys ks ->
  NoDup ks /\ forall k, In k ks -> JsObject.arrayIndex k = None.
Proof.
  induction ks as [|k ks IH]; cbn [nonIndexKeys].
  - intros _. split; [constructor|intros k []].
  - intros (Hk & Hnotin & Hks). destruct (IH Hks) as [Hnd Hall].
    split; [now constructor|]. intros k' [<-|Hin]; auto.
Qed.

Lemma nonIndexKeys_snoc (ks : list string) (k : string) :
  nonIndexKeys ks -> JsObject.arrayIndex k = None -> ~ In k ks ->
  nonIndexKeys (ks ++ [k]).
Proof.
  induction ks as [|k0 ks IH]; cbn [nonIndexKeys app]; intros Hks Hk Hnotin.
  - auto.
  - destruct Hks as (Hk0 & Hnotin0 & Hks). split; [exact Hk0|]. split.
    + intros Hin. apply in_app_or in Hin. destruct Hin as [Hin|[Heq|[]]]; auto.
      apply Hnotin. now left.
    + apply IH; auto. intros Hin. apply Hnotin. now right.
Qed.

Lemma canonicalKeys_snoc (ks : list string) (k : string) :
  forall lo,
    canonicalKeys lo ks -> JsObject.arrayIndex k = None -> ~ In k ks ->
    canonicalKeys lo (ks ++ [k]).
Proof.
  induction ks as [|k0 ks IH]; intros lo Hks Hk Hnotin.
  - cbn [app canonicalKeys]. rewrite Hk. cbn [nonIndexKeys]. auto.
  - cbn [app canonicalKeys] in *.
    destruct (JsObject.arrayIndex k0) as [n0|] eqn:Hk0.
    + destruct Hks as [Hlo Hks]. split; [exact Hlo|].
      apply IH; auto. intros Hin. apply Hnotin. now right.
    + apply (nonIndexKeys_snoc (k0 :: ks)); auto.
Qed.

Lemma canonicalKeys_insertIndex {V : Type} (o : JsObject.t V) (n : Z)
    (k : string) (v : V) :
  JsObject.arrayIndex k = Some n -> ~ In k (JsObject.keys o) ->
  forall lo,
    lo <= n -> canonicalKeys lo (JsObject.keys o) ->
    canonicalKeys lo (JsObject.keys (JsObject.insertIndex o n k v)).
Proof.
  intros Hk. induction o as [|[k' v'] o IH]; intros Hnotin lo Hlo Ho.
  - cbn [JsObject.insertIndex JsObject.keys map fst canonicalKeys]. rewrite Hk. auto.
  - cbn [JsObject.insertIndex].
    cbn [JsObject.keys map fst canonicalKeys] in Ho.
    destruct (JsObject.arrayIndex k') as [n'|] eqn:Hk'.
    + destruct Ho as [Hlo' Ho].
      destruct (Z.ltb_spec n' n).
      * cbn [JsObject.keys map fst canonicalKeys]. rewrite Hk'.
        split; [exact Hlo'|]. apply IH; auto; [|lia].
        intros Hin. apply Hnotin. now right.
      * cbn [JsObject.keys map fst canonicalKeys]. rewrite Hk, Hk'.
        split; [exact Hlo|]. split; [|exact Ho].
        destruct (Z.eq_dec n n') as [Heq|]; [|lia]. exfalso. apply Hnotin.
        left. cbn [fst].
        apply arrayIndex_Some in Hk. apply arrayIndex_Some in Hk'.
        destruct Hk as [-> _]. destruct Hk' as [-> _]. now rewrite Heq.
    + cbn [JsObject.keys map fst canonicalKeys]. rewrite Hk.
      split; [exact Hlo|]. cbn [canonicalKeys]. rewrite Hk'. exact Ho.
Qed.

Lemma canonicalKeys_set {V : Type} (o : JsObject.t V) (k : string) (v : V) :
  canonicalKeys 0 (JsObject.keys o) ->
  canonicalKeys 0 (JsObject.keys (JsObject.set o k v)).
Proof.
  intros Ho. unfold JsObject.set.
  destruct (JsObject.get o k) eqn:Hget.
  - now rewrite JsObject_keys_replace.
  - apply JsObject_get_None in Hget.
    destruct (JsObject.arrayIndex k) as [n|] eqn:Hk.
    + apply canonicalKeys_insertIndex; auto.
      now apply arrayIndex_Some in Hk.
    + unfold JsObject.keys. rewrite map_app. cbn [map fst].
      now apply canonicalKeys_snoc.
Qed.

Lemma canonicalKeys_listToObject {V : Type} (l : list (string * V)) :
  forall o : JsObject.t V,
    canonicalKeys 0 (JsObject.keys o) ->
    canonicalKeys 0 (JsObject.keys (listToObject l o)).
Proof.
  unfold listToObject.
  induction l as [|[k v] l IH]; intros o Ho; cbn [fold_left]; auto.
  apply IH. now apply canonicalKeys_set.
Qed.

(** Creating the properties of an object again, in its own order, gives
    the object back. *)
Lemma listToObject_canonical {V : Type} (o : JsObject.t V) :
  forall (lo : Z) (acc : JsObject.t V),
    canonicalKeys lo (JsObject.keys o) ->
    (forall k', In k' (JsObject.keys acc) ->
       exists n', JsObject.arrayIndex k' = Some n' /\ n' < lo) ->
    listToObject o acc = acc ++ o.
Proof.
  induction o as [|[k v] o IH]; intros lo acc Ho Hacc.
  - cbn. now rewrite app_nil_r.
  - cbn [JsObject.keys map fst canonicalKeys] in Ho.
    destruct (JsObject.arrayIndex k) as [n|] eqn:Hk.
    + destruct Ho as [Hlo Ho]. unfold listToObject. cbn [fold_left fst snd].
      assert (Hset : JsObject.set acc k v = acc ++ [(k, v)]).
      { unfold JsObject.set.
        destruct (JsObject.get acc k) eqn:Hget.
        - exfalso. apply JsObject_get_In in Hget.
          destruct (Hacc k) as (n' & Hn' & Hlt).
          { unfold JsObject.keys. change k with (fst (k, v0)). now apply in_map. }
          rewrite Hk in Hn'. injection Hn' as <-. lia.
        - rewrite Hk. apply insertIndex_end. intros k' Hk'.
          destruct (Hacc k' Hk') as (n' & Hn' & Hlt). exists n'. split; auto. lia. }
      rewrite Hset. fold (listToObject o (acc ++ [(k, v)])).
      rewrite (IH (n + 1)); auto.
      * now rewrite <- app_assoc.
      * intros k' Hk'. unfold JsObject.keys in Hk'. rewrite map_app in Hk'.
        apply in_app_or in Hk'. destruct Hk' as [Hk'|[<-|[]]].
        -- destruct (Hacc k' Hk') as (n' & Hn' & Hlt). exists n'. split; auto. lia.
        -- exists n. split; auto. lia.
    + apply nonIndexKeys_NoDup in Ho. destruct Ho as [Hnd Hidx].
      unfold listToObject.
      rewrite (fold_set_appends fst snd).
      * f_equal. rewrite <- (map_id ((k, v) :: o)) at 2.
        apply map_ext. now intros [k' v'].
      * exact Hnd.
      * intros a Ha. apply Hidx. apply (in_map fst) in Ha. exact Ha.
      * intros a Ha. apply JsObject_get_None. intros Hin.
        destruct (Hacc _ Hin) as (n' & Hn' & _).
        rewrite Hidx in Hn'; [discriminate|].
        apply (in_map fst) in Ha. exact Ha.
Qed.

Lemma listToObject_rebuild {V : Type} (o : JsObject.t V) :
  canonicalKeys 0 (JsObject.keys o) -> listToObject o JsObject.empty = o.
Proof.
  intros Ho. rewrite (listToObject_canonical o 0); auto.
  intros k' [].
Qed.

Lemma keyNumber_String_of_Z (z : Z) : keyNumber (String_of_Z z) = z.
Proof. unfold keyNumber. now rewrite Number_String_of_Z. Qed.

Lemma JsMap_get_app {V : Type} (m m' : JsMap.t V) (k : Z) :
  JsMap.get (m ++ m') k =
  match JsMap.get m k with Some v => Some v | None => JsMap.get m' k end.
Proof.
  induction m as [|[k0 v0] m IH]; cbn [app JsMap.get]; auto.
  destruct (Z.eqb k0 k); auto.
Qed.

Lemma JsMap_set_fresh {V : Type} (m : JsMap.t V) (k : Z) (v : V) :
  JsMap.get m k = None -> JsMap.set m k v = m ++ [(k, v)].
Proof.
  induction m as [|[k0 v0] m IH]; cbn [JsMap.get JsMap.set app]; auto.
  destruct (Z.eqb k0 k); [discriminate|]. intros H. now rewrite IH.
Qed.

(** Reading the properties of an object with numeric keys into a [Map]:
    one entry per property, appended in order. *)
Lemma forEach_set_appends {V W : Type} (val : V -> outcome W)
    (val' : V -> W) (l : JsObject.t V) :
  NoDup (JsObject.keys l) -> numericKeys l ->
  (forall member, In member l -> val (snd member) = Ok (val' (snd member))) ->
  forall rm0 : JsMap.t W,
    (forall k, In k (JsObject.keys l) -> JsMap.get rm0 (keyNumber k) = None) ->
    forEach
      (fun relationMap member =>
         w <- val (snd member) ;;
         match Number (fst member) with
         | Some n => Ok (JsMap.set relationMap n w)
         | None => Unmodelled
         end)
      l rm0 =
    Ok (rm0 ++ map (fun member => (keyNumber (fst member), val' (snd member))) l).
Proof.
  induction l as [|[k v] l IH]; intros Hnd Hnum Hval rm0 Hfresh.
  - cbn. now rewrite app_nil_r.
  - inversion Hnd as [|? ? Hk Hnd']; subst.
    destruct (Hnum k) as (n & ->); [now left|].
    cbn [forEach fst snd map].
    pose proof (Hval _ (or_introl eq_refl)) as Hv. cbn [snd] in Hv.
    rewrite Hv. cbn [bind].
    rewrite Number_String_of_Z, keyNumber_String_of_Z. cbn [bind].
    rewrite JsMap_set_fresh.
    2:{ rewrite <- (keyNumber_String_of_Z n). apply Hfresh. now left. }
    rewrite IH; auto.
    + now rewrite <- app_assoc.
    + intros k' Hk'. apply Hnum. now right.
    + intros member Hm. apply Hval. now right.
    + intros k' Hk'. rewrite JsMap_get_app, (Hfresh k' (or_intror Hk')).
      cbn [JsMap.get].
      destruct (Z.eqb_spec n (keyNumber k')) as [Heq|]; [|reflexivity].
      exfalso. apply Hk. destruct (Hnum k' (or_intror Hk')) as (n' & Hn').
      subst k'. rewrite keyNumber_String_of_Z in Heq. subst n. exact Hk'.
Qed.

Lemma numeric_key_back (k : string) :
  (exists z, k = String_of_Z z) -> String_of_Z (keyNumber k) = k.
Proof. intros (z & ->). now rewrite keyNumber_String_of_Z. Qed.

Lemma NoDup_keyNumber (ks : list string) :
  NoDup ks -> (forall k, In k ks -> exists z, k = String_of_Z z) ->
  NoDup (map keyNumber ks).
Proof.
  induction ks as [|k ks IH]; intros Hnd Hnum; cbn [map]; [constructor|].
  inversion Hnd as [|? ? Hk Hnd']; subst. constructor.
  - intros Hin. apply in_map_iff in Hin. destruct Hin as (k' & Heq & Hk').
    apply Hk.
    rewrite <- (numeric_key_back k), <- Heq, numeric_key_back; auto.
    + apply Hnum. now right.
    + apply Hnum. now left.
  - apply IH; auto. intros k' Hk'. apply Hnum. now right.
Qed.

Lemma get_of_numeric_object {V W : Type} (f : V -> W) (o : JsObject.t V)
    (z : Z) :
  numericKeys o ->
  JsMap.get (map (fun member => (keyNumber (fst member), f (snd member))) o) z =
  option_map f (JsObject.get o (String_of_Z z)).
Proof.
  induction o as [|[k v] o IH]; intros Hnum; [reflexivity|].
  cbn [map JsMap.get JsObject.get fst snd].
  destruct (Hnum k) as (n & ->); [now left|].
  rewrite keyNumber_String_of_Z.
  destruct (Z.eqb_spec n z) as [->|Hne].
  - now rewrite String.eqb_refl.
  - destruct (String.eqb_spec (String_of_Z n) (String_of_Z z)) as [Heq|_].
    + apply String_of_Z_inj in Heq. contradiction.
    + apply IH. intros k' Hk'. apply Hnum. now right.
Qed.

(** The object that [serializeRelations] builds for a relation map. *)
Lemma objectOfMap_facts (m : RelationsMap) :
  RelationsMapOk m ->
  NoDup (JsObject.keys (objectOfMap m)) /\
  numericKeys (objectOfMap m) /\
  canonicalKeys 0 (JsObject.keys (objectOfMap m)) /\
  (forall z, JsObject.get (objectOfMap m) (String_of_Z z) =
             option_map relationsObject (JsMap.get m z)) /\
  (forall k io, In (k, io) (objectOfMap m) ->
     NoDup (JsObject.keys io) /\ numericKeys io /\
     canonicalKeys 0 (JsObject.keys io)).
Proof.
  intros [Hnd Hinner].
  assert (H1 : NoDup (JsObject.keys (objectOfMap m))).
  { apply listToObject_NoDup. constructor. }
  assert (H2 : numericKeys (objectOfMap m)).
  { intros k Hk. apply listToObject_keys in Hk. destruct Hk as [Hk|[]].
    rewrite object_of_map_keys in Hk. apply in_map_iff in Hk.
    destruct Hk as (z & <- & _). eauto. }
  assert (H4 : forall z, JsObject.get (objectOfMap m) (String_of_Z z) =
                         option_map relationsObject (JsMap.get m z)).
  { intros z. unfold objectOfMap. rewrite listToObject_get.
    - rewrite object_of_map_get. now destruct (JsMap.get m z).
    - now apply object_of_map_NoDup. }
  split; [exact H1|]. split; [exact H2|]. split.
  { apply canonicalKeys_listToObject. exact I. }
  split; [exact H4|].
  intros k io Hio.
  assert (Hk : In k (JsObject.keys (objectOfMap m))).
  { change k with (fst (k, io)). unfold JsObject.keys. now apply in_map. }
  destruct (H2 k Hk) as (z & ->).
  apply JsObject_In_get in Hio; auto. rewrite H4 in Hio.
  destruct (JsMap.get m z) as [inner|] eqn:Hz; [|discriminate].
  injection Hio as <-.
  apply JsMap_get_In in Hz. apply Hinner in Hz.
  destruct (relationsObject_facts inner Hz) as (Hn1 & Hn2 & _).
  split; [exact Hn1|]. split; [exact Hn2|].
  apply canonicalKeys_listToObject. exact I.
Qed.

(** Reading back the text written for an object in normal form. *)
Lemma getRelationsMapFromJSON_exact (o : JsObject.t (JsObject.t (list Z))) :
  NoDup (JsObject.keys o) -> numericKeys o ->
  canonicalKeys 0 (JsObject.keys o) ->
  (forall k io, In (k, io) o ->
     NoDup (JsObject.keys io) /\ numericKeys io /\
     canonicalKeys 0 (JsObject.keys io)) ->
  getRelationsMapFromJSON (JSON_stringify o) = Ok (mapOfObject o).
Proof.
  intros Hnd Hnum Hcan Hinner. unfold getRelationsMapFromJSON.
  rewrite JSON_parse_stringify.
  2:{ intros member Hmem. split.
      - now apply (numericKeys_plain o).
      - destruct member as [k io]. cbn [fst snd].
        destruct (Hinner k io Hmem) as (_ & Hn & _).
        now apply numericKeys_plain. }
  cbn [bind].
  assert (Hparse : parseMembers o = o).
  { unfold parseMembers.
    rewrite (map_ext_in _ (fun member => member)).
    - rewrite map_id. now apply listToObject_rebuild.
    - intros [k io] Hio. cbn [fst snd]. f_equal.
      apply listToObject_rebuild. now destruct (Hinner k io Hio) as (_ & _ & ?). }
  rewrite Hparse.
  pose proof (forEach_set_appends
                (fun io : JsObject.t (list Z) =>
                   forEach
                     (fun relationMap rel =>
                        match Number (fst rel) with
                        | Some n => Ok (JsMap.set relationMap n (snd rel))
                        | None => Unmodelled
                        end)
                     io JsMap.empty)
                (fun io => map (fun im => (keyNumber (fst im), snd im)) io)
                o Hnd Hnum) as Houter.
  cbv beta in Houter. unfold mapOfObject.
  apply (Houter).
  - intros [k io] Hio. cbn [snd].
    destruct (Hinner k io Hio) as (Hn1 & Hn2 & _).
    pose proof (forEach_set_appends (fun l : list Z => Ok l) (fun l => l)
                  io Hn1 Hn2 (fun _ _ => eq_refl) JsMap.empty
                  (fun _ _ => eq_refl)) as Hin.
    exact Hin.
  - intros k _. reflexivity.
Qed.

(** Writing the map read from an object in normal form gives the text of
    that object. *)
Lemma serializeRelations_mapOfObject (o : JsObject.t (JsObject.t (list Z))) :
  NoDup (JsObject.keys o) -> numericKeys o ->
  canonicalKeys 0 (JsObject.keys o) ->
  (forall k io, In (k, io) o ->
     NoDup (JsObject.keys io) /\ numericKeys io /\
     canonicalKeys 0 (JsObject.keys io)) ->
  serializeRelations (mapOfObject o) = JSON_stringify o.
Proof.
  intros Hnd Hnum Hcan Hinner.
  rewrite serializeRelations_spec.
  2:{ unfold mapOfObject, JsMap.keys. rewrite map_map. cbn [fst].
      rewrite <- (map_map fst keyNumber). now apply NoDup_keyNumber. }
  f_equal. unfold mapOfObject. rewrite map_map. cbn [fst snd].
  rewrite (map_ext_in _ (fun member => member)).
  - rewrite map_id. now apply listToObject_rebuild.
  - intros [k io] Hio. cbn [fst snd].
    destruct (Hinner k io Hio) as (_ & Hn2 & Hn3).
    rewrite numeric_key_back.
    2:{ apply Hnum. change k with (fst (k, io)). unfold JsObject.keys.
        now apply in_map. }
    f_equal. unfold relationsObject. rewrite map_map. cbn [fst snd].
    rewrite (map_ext_in _ (fun im => im)).
    + rewrite map_id. now apply listToObject_rebuild.
    + intros [ik l] Hl. cbn [fst snd]. rewrite numeric_key_back; [reflexivity|].
      apply Hn2. change ik with (fst (ik, l)). unfold JsObject.keys.
      now apply in_map.
Qed.

Lemma roundtrip_exact (m : RelationsMap) :
  RelationsMapOk m ->
  getRelationsMapFromJSON (serializeRelations m) =
  Ok (mapOfObject (objectOfMap m)).
Proof.
  intros Hok. destruct (objectOfMap_facts m Hok) as (H1 & H2 & H3 & _ & H5).
  destruct Hok as [Hnd _]. rewrite serializeRelations_spec by assumption.
  now apply getRelationsMapFromJSON_exact.
Qed.

Lemma roundtrip_slots (m : RelationsMap) :
  RelationsMapOk m ->
  forall x i, slot (mapOfObject (objectOfMap m)) x i = slot m x i.
Proof.
  intros Hok x i. destruct (objectOfMap_facts m Hok) as (H1 & H2 & _ & H4 & H5).
  unfold slot, mapOfObject.
  rewrite (get_of_numeric_object
             (fun io : JsObject.t (list Z) =>
                map (fun im => (keyNumber (fst im), snd im)) io)) by assumption.
  rewrite H4. destruct (JsMap.get m x) as [inner|] eqn:Hx; cbn [option_map];
    [|reflexivity].
  destruct Hok as [_ Hinner]. apply JsMap_get_In in Hx. apply Hinner in Hx.
  destruct (relationsObject_facts inner Hx) as (_ & Hn2 & Hn3).
  rewrite (get_of_numeric_object (fun l : list Z => l)) by assumption.
  rewrite Hn3. now destruct (JsMap.get inner i).
Qed.

(** X13.  The map read back from the text of a relation map is in normal
    form: serializing it again writes the same text, character for
    character, and reading that text returns the very same map, entries
    and slots in the same order.  One round trip may reorder the entries
    of a map; a second one changes nothing. *)
Theorem serialize_roundtrip_stable (m : RelationsMap) :
  RelationsMapOk m ->
  exists m',
    getRelationsMapFromJSON (serializeRelations m) = Ok m' /\
    serializeRelations m' = serializeRelations m /\
    getRelationsMapFromJSON (serializeRelations m') = Ok m'.
Proof.
  intros Hok. exists (mapOfObject (objectOfMap m)).
  pose proof (roundtrip_exact m Hok) as Hfirst.
  destruct (objectOfMap_facts m Hok) as (H1 & H2 & H3 & _ & H5).
  assert (Htext : serializeRelations (mapOfObject (objectOfMap m)) =
                  serializeRelations m).
  { rewrite serializeRelations_mapOfObject by assumption.
    destruct Hok as [Hnd _]. now rewrite serializeRelations_spec. }
  split; [exact Hfirst|]. split; [exact Htext|].
  now rewrite Htext.
Qed.

Lemma serialize_roundtrip_stable_witness :
  exists m',
    getRelationsMapFromJSON (serializeRelations unorderedMap) = Ok m' /\
    serializeRelations m' = serializeRelations unorderedMap /\
    getRelationsMapFromJSON (serializeRelations m') = Ok m'.
Proof.
  apply (serialize_roundtrip_stable unorderedMap).
  split.
  - repeat constructor; simpl; intuition discriminate.
  - intros e inner [H|[H|[]]]; injection H as <- <-;
      repeat constructor; simpl; intuition discriminate.
Defined.

Lemma fold_left_invariant {A S : Type} (P : S -> Prop) (f : S -> A -> S)
    (l : list A) :
  (forall s a, In a l -> P s -> P (f s a)) ->
  forall s, P s -> P (fold_left f l s).
Proof.
  induction l as [|a l IH]; intros Hstep s Hs; cbn [fold_left]; auto.
  apply IH.
  - intros s' a' Hin. apply Hstep. now right.
  - apply Hstep; auto. now left.
Qed.

Lemma RelationsMapOk_set_slot (m : RelationsMap) (k j : Z) (v : list Z) :
  RelationsMapOk m ->
  RelationsMapOk
    (JsMap.set m k (JsMap.set (JsMap.get m k ?? JsMap.empty) j v)).
Proof.
  intros [Hnd Hinner]. split.
  - now apply JsMap_NoDup_set.
  - intros e inner Hin. apply JsMap_In_set in Hin.
    destruct Hin as [[_ ->]|Hin]; [|now apply (Hinner e)].
    apply JsMap_NoDup_set.
    destruct (JsMap.get m k) as [c|] eqn:Hk; cbn [orElse]; [|constructor].
    apply JsMap_get_In in Hk. now apply (Hinner k).
Qed.

Lemma indexAll_RelationsMapOk (relToAttributesMap : Z -> option RelAttributes)
    (recs : list RelRecord) (m0 m : RelationsMap) :
  RelationsMapOk m0 ->
  indexAll relToAttributesMap recs m0 = Ok m ->
  RelationsMapOk m.
Proof.
  unfold indexAll. apply forEach_invariant.
  intros s [rel [r E]] s' _ Hs. unfold process_callback. cbn [fst snd].
  destruct (relToAttributesMap rel) as [a|]; [|now intros [= <-]].
  unfold process_indexRecord. cbv zeta.
  destruct (pushesOntoWalked _ _ r E); [discriminate|].
  intros [= <-]. apply fold_left_invariant.
  - intros s0 id _ Hs0. unfold pushRelated. now apply RelationsMapOk_set_slot.
  - now apply RelationsMapOk_set_slot.
Qed.

(** X14.  Export and import.  The text that [serializeModelRelations]
    returns for a model that [process] has indexed is read by
    [getRelationsMapFromJSON] into a map which, installed with
    [setRelationMap] in any indexer under any model, answers every query
    of [getEntityRelations] as the original index does. *)
Theorem process_export_import
    (relToAttributesMap : Z -> option RelAttributes)
    (this this' other : IfcRelationsIndexer) (model model' : FragmentsGroup)
    (m : RelationsMap) :
  JsObject.get (relationMaps this) (uuid model) = None ->
  process relToAttributesMap this model = Ok (m, this') ->
  exists json m',
    serializeModelRelations this' model = Some json /\
    getRelationsMapFromJSON json = Ok m' /\
    forall x name,
      getEntityRelations (setRelationMap other model' m') model' x name =
      getEntityRelations this' model x name.
Proof.
  intros Hfresh Hm. apply process_indexAll in Hm; [|assumption].
  destruct Hm as (_ & Hm & ->).
  assert (Hok : RelationsMapOk m).
  { apply (indexAll_RelationsMapOk relToAttributesMap (allRecords model)
             JsMap.empty m); auto.
    split; [constructor|intros ? ? []]. }
  exists (serializeRelations m), (mapOfObject (objectOfMap m)).
  split; [|split].
  - unfold serializeModelRelations, setRelationMap. cbn [relationMaps].
    now rewrite JsObject_get_set_eq.
  - now apply roundtrip_exact.
  - intros x name.
    rewrite (getEntityRelations_slot _ model' (mapOfObject (objectOfMap m))).
    2:{ unfold setRelationMap. cbn [relationMaps]. apply JsObject_get_set_eq. }
    rewrite (getEntityRelations_slot _ model m).
    2:{ unfold setRelationMap. cbn [relationMaps]. apply JsObject_get_set_eq. }
    now rewrite roundtrip_slots.
Qed.

Lemma process_export_import_witness :
  exists m this' json m',
    process sampleRelToAttributesMap emptyIndexer twoAggregates = Ok (m, this') /\
    serializeModelRelations this' twoAggregates = Some json /\
    getRelationsMapFromJSON json = Ok m' /\
    forall x name,
      getEntityRelations (setRelationMap demoIndexer demoModel m') demoModel
                         x name =
      getEntityRelations this' twoAggregates x name.
Proof.
  assert (H : exists m this',
            process sampleRelToAttributesMap emptyIndexer twoAggregates =
            Ok (m, this')).
  { eexists. eexists. vm_compute. reflexivity. }
  destruct H as (m & this' & H). exists m, this'.
  destruct (process_export_import sampleRelToAttributesMap emptyIndexer this'
              demoIndexer twoAggregates demoModel m eq_refl H)
    as (json & m' & H1 & H2 & H3).
  exists json, m'. auto.
Defined.

(** ** The facet: results of [test], the evaluators, [getPsets] and the
    collector of [getEntities] *)

Lemma optProp_total (v : jsval) (k : string) : exists x, optProp v k = Ok x.
Proof. destruct v; cbn; eauto. Qed.

Lemma findKey_none {V : Type} (p : string -> bool) (o : list (string * V)) :
  (forall key, In key (map fst o) -> p key = false) -> findKey p o = None.
Proof.
  induction o as [|[k v] o IH]; intros H; cbn [findKey]; [reflexivity|].
  rewrite (H k (or_introl eq_refl)). apply IH. intros key Hk. apply H. now right.
Qed.

Lemma forallb_snoc_false (checks : list IDSCheck.t) (c : IDSCheck.t) :
  IDSCheck.pass c = false -> forallb IDSCheck.pass (checks ++ [c]) = false.
Proof.
  intros Hc. rewrite forallb_app. cbn [forallb]. rewrite Hc.
  now rewrite andb_false_r.
Qed.

Section FacetMore.

Variable evalRequirement :
  IDSProperty -> jsval -> IDSFacetParameter.t -> string ->
  option (list IDSCheck.t) -> bool * list IDSCheck.t.

Lemma test_entity_fields (this : IDSProperty) (indexer : IfcRelationsIndexer)
    (model : FragmentsGroup) (expressID : Z) (attrs : jsval)
    (r : IDSCheckResult.t) :
  test_entity evalRequirement this indexer model expressID attrs = Ok r ->
  IDSCheckResult.expressID r = expressID /\
  IDSCheckResult.cardinality r = cardinality this /\
  IDSCheckResult.pass r = forallb IDSCheck.pass (IDSCheckResult.checks r) /\
  exists globalId,
    prop attrs "GlobalId" = Ok globalId /\
    optProp globalId "value" = Ok (IDSCheckResult.guid r).
Proof.
  unfold test_entity. intros H.
  apply bind_Ok in H. destruct H as (globalId & Hg & H).
  apply bind_Ok in H. destruct H as (guid & Hguid & H).
  apply bind_Ok in H. destruct H as (sets & _ & H).
  apply bind_Ok in H. destruct H as ([matchingSets checks] & _ & H).
  cbn [fst snd] in H. destruct matchingSets as [|set matchingSets].
  - injection H as <-. cbn. repeat split; eauto.
    symmetry. now apply forallb_snoc_false.
  - apply bind_Ok in H. destruct H as (checks' & _ & [= <-]).
    cbn. repeat split; eauto.
Qed.

Lemma test_results (this : IDSProperty) (indexer : IfcRelationsIndexer)
    (entities : IfcProperties) (model : FragmentsGroup)
    (results : list IDSCheckResult.t) :
  test evalRequirement this indexer entities model = Ok results ->
  Forall2
    (fun entry r =>
       exists expressID,
         Number (fst entry) = Some expressID /\
         test_entity evalRequirement this indexer model expressID
           (JsObject.get entities (String_of_Z expressID) ?? JUndefined) = Ok r)
    entities results.
Proof.
  intros Htest. unfold test in Htest.
  set (f := fun entry : string * jsval =>
              expressID <- numberOfKey (fst entry) ;;
              test_entity evalRequirement this indexer model expressID
                (JsObject.get entities (String_of_Z expressID) ?? JUndefined))
    in *.
  rewrite (forEach_ext _ (fun acc x => r <- f x ;; Ok (acc ++ [r]))) in Htest.
  2:{ intros acc entry _. unfold f.
      destruct (numberOfKey (fst entry)); reflexivity. }
  apply forEach_push in Htest. destruct Htest as (rs & -> & Hall).
  cbn [app]. revert Hall. apply Forall2_impl. intros entry r Hr.
  unfold f in Hr. apply bind_Ok in Hr. destruct Hr as (expressID & Hn & Hr).
  exists expressID. split; [|exact Hr].
  unfold numberOfKey in Hn. destruct (Number (fst entry)); congruence.
Qed.

(** X15.  When [test] returns, it returns one result per entity handed
    in, in the order of the keys of [entities]; the result of an entity
    carries its express ID (the key read as a number), the cardinality of
    the facet, and as [guid] the value of its [GlobalId] attribute,
    [undefined] when there is none. *)
Theorem test_one_result_per_entity (this : IDSProperty)
    (indexer : IfcRelationsIndexer) (entities : IfcProperties)
    (model : FragmentsGroup) (results : list IDSCheckResult.t) :
  test evalRequirement this indexer entities model = Ok results ->
  List.length results = List.length entities /\
  Forall2
    (fun entry r =>
       Number (fst entry) = Some (IDSCheckResult.expressID r) /\
       IDSCheckResult.cardinality r = cardinality this /\
       exists globalId,
         prop (JsObject.get entities
                 (String_of_Z (IDSCheckResult.expressID r)) ?? JUndefined)
              "GlobalId" = Ok globalId /\
         optProp globalId "value" = Ok (IDSCheckResult.guid r))
    entities results.
Proof.
  intros Htest. apply test_results in Htest. split.
  - symmetry. apply (Forall2_length Htest).
  - revert Htest. apply Forall2_impl. intros entry r (expressID & Hn & Hr).
    apply test_entity_fields in Hr. destruct Hr as (<- & Hc & _ & Hg).
    auto.
Qed.

(** X16.  In every result that [test] returns, [pass] is the conjunction
    of the checks recorded for the entity; this holds also for an entity
    whose turn ends early, with no property set matching, where [pass]
    keeps its initial value [false] and the last check recorded is a
    failing one. *)
Theorem test_pass_is_every_check (this : IDSProperty)
    (indexer : IfcRelationsIndexer) (entities : IfcProperties)
    (model : FragmentsGroup) (results : list IDSCheckResult.t) :
  test evalRequirement this indexer entities model = Ok results ->
  Forall (fun r => IDSCheckResult.pass r =
                   forallb IDSCheck.pass (IDSCheckResult.checks r))
         results.
Proof.
  intros Htest. apply test_results in Htest.
  induction Htest as [|entry r l rs (expressID & _ & Hr) _ IH]; constructor; auto.
  now apply test_entity_fields in Hr.
Qed.

End FacetMore.

Lemma test_one_result_per_entity_witness :
  exists results,
    test specEvalRequirement (demoFacet required "Pset_Demo" "Width" None)
         demoIndexer demoEntities demoModel = Ok results /\
    List.length results = List.length demoEntities /\
    Forall2
      (fun entry r =>
         Number (fst entry) = Some (IDSCheckResult.expressID r) /\
         IDSCheckResult.cardinality r =
           cardinality (demoFacet required "Pset_Demo" "Width" None) /\
         exists globalId,
           prop (JsObject.get demoEntities
                   (String_of_Z (IDSCheckResult.expressID r)) ?? JUndefined)
                "GlobalId" = Ok globalId /\
           optProp globalId "value" = Ok (IDSCheckResult.guid r))
      demoEntities results.
Proof.
  eexists. split; [vm_compute; reflexivity|].
  apply (test_one_result_per_entity specEvalRequirement
           (demoFacet required "Pset_Demo" "Width" None)
           demoIndexer demoEntities demoModel).
  vm_compute. reflexivity.
Defined.

Lemma test_pass_is_every_check_witness :
  exists results,
    test specEvalRequirement
         (demoFacet required "Pset_Demo" "Width" (Some (simpleParameter (JNum 6))))
         demoIndexer demoEntities demoModel = Ok results /\
    Forall (fun r => IDSCheckResult.pass r =
                     forallb IDSCheck.pass (IDSCheckResult.checks r))
           results.
Proof.
  eexists. split; [vm_compute; reflexivity|].
  apply (test_pass_is_every_check specEvalRequirement
           (demoFacet required "Pset_Demo" "Width"
                      (Some (simpleParameter (JNum 6))))
           demoIndexer demoEntities demoModel).
  vm_compute. reflexivity.
Defined.

Section FacetItems.

Variable evalRequirement :
  IDSProperty -> jsval -> IDSFacetParameter.t -> string ->
  option (list IDSCheck.t) -> bool * list IDSCheck.t.

Lemma test_matchingItems_from (this : IDSProperty) (items : list jsval) :
  forall (matching0 : list jsval) (checks0 : list IDSCheck.t)
         (matching : list jsval) (checks : list IDSCheck.t),
    forEach
      (fun acc item =>
         let matchingItems := fst acc in
         let checks := snd acc in
         type <- prop item "type" ;;
         if includes _unsupportedTypes type then Ok (matchingItems, checks)
         else
           name <- nameOrNull item ;;
           let result :=
             fst (evalRequirement this name (baseName this) "BaseName" None) in
           if negb result then Ok (matchingItems, checks)
           else
             name <- prop item "Name" ;;
             currentValue <- prop name "value" ;;
             Ok (matchingItems ++ [item],
                 checks ++
                 [ {| IDSCheck.currentValue := currentValue;
                      IDSCheck.parameter := "BaseName";
                      IDSCheck.pass := true;
                      IDSCheck.requiredValue :=
                        IDSFacetParameter.parameter (baseName this) |} ]))
      items (matching0, checks0) = Ok (matching, checks) ->
    exists kept pushed,
      matching = matching0 ++ kept /\ checks = checks0 ++ pushed /\
      List.length pushed = List.length kept /\
      Forall (fun c => IDSCheck.pass c = true /\
                       IDSCheck.parameter c = "BaseName") pushed /\
      forall item, In item kept ->
        In item items /\
        exists type name,
          prop item "type" = Ok type /\
          includes _unsupportedTypes type = false /\
          nameOrNull item = Ok name /\
          fst (evalRequirement this name (baseName this) "BaseName" None) = true.
Proof.
  induction items as [|item items IH]; intros matching0 checks0 matching checks.
  - intros [= <- <-]. exists [], []. rewrite !app_nil_r.
    split; [reflexivity|]. split; [reflexivity|]. split; [reflexivity|].
    split; [constructor|]. intros item [].
  - cbn [forEach fst snd]. intros H.
    apply bind_Ok in H. destruct H as ([matching1 checks1] & Hbody & H).
    apply IH in H. destruct H as (kept & pushed & -> & -> & Hlen & Hall & Hkept).
    apply bind_Ok in Hbody. destruct Hbody as (type & Htype & Hbody).
    destruct (includes _unsupportedTypes type) eqn:Hinc.
    { injection Hbody as <- <-. exists kept, pushed.
      split; [reflexivity|]. split; [reflexivity|]. split; [exact Hlen|].
      split; [exact Hall|]. intros item0 Hin0.
      destruct (Hkept item0 Hin0) as [Hin Hrest]. split; [now right|exact Hrest]. }
    apply bind_Ok in Hbody. destruct Hbody as (name & Hname & Hbody).
    destruct (fst (evalRequirement this name (baseName this) "BaseName" None))
      eqn:Hres; cbn [negb] in Hbody.
    2:{ injection Hbody as <- <-. exists kept, pushed.
        split; [reflexivity|]. split; [reflexivity|]. split; [exact Hlen|].
        split; [exact Hall|]. intros item0 Hin0.
        destruct (Hkept item0 Hin0) as [Hin Hrest].
        split; [now right|exact Hrest]. }
    apply bind_Ok in Hbody. destruct Hbody as (name' & _ & Hbody).
    apply bind_Ok in Hbody. destruct Hbody as (currentValue & _ & Hbody).
    injection Hbody as <- <-.
    eexists (item :: kept), (_ :: pushed). rewrite <- !app_assoc.
    split; [reflexivity|]. split; [reflexivity|].
    split; [cbn [List.length]; now rewrite Hlen|].
    split; [constructor; auto|].
    intros item0 [<-|Hin].
    + split; [now left|]. exists type, name. auto.
    + destruct (Hkept item0 Hin) as [Hin' Hrest]. split; [now right|exact Hrest].
Qed.

(** X17.  The items that [test] keeps for a property set (the callback of
    [items.filter]) are items of the set whose type is neither
    [IFCCOMPLEXPROPERTY] nor [IFCPHYSICALCOMPLEXQUANTITY] and whose name
    [evalRequirement] accepts for [BaseName]; each item kept adds exactly
    one check, labelled [BaseName] and passing, and an item rejected adds
    none. *)
Theorem test_matchingItems_supported (this : IDSProperty) (items : list jsval)
    (checks : list IDSCheck.t) (matchingItems : list jsval)
    (checks' : list IDSCheck.t) :
  test_matchingItems evalRequirement this items checks =
    Ok (matchingItems, checks') ->
  (forall item, In item matchingItems ->
     In item items /\
     exists type name,
       prop item "type" = Ok type /\
       includes _unsupportedTypes type = false /\
       nameOrNull item = Ok name /\
       fst (evalRequirement this name (baseName this) "BaseName" None) = true) /\
  exists pushed,
    checks' = checks ++ pushed /\
    List.length pushed = List.length matchingItems /\
    Forall (fun c => IDSCheck.pass c = true /\
                     IDSCheck.parameter c = "BaseName") pushed.
Proof.
  unfold test_matchingItems. intros H.
  apply test_matchingItems_from in H.
  destruct H as (kept & pushed & -> & -> & Hlen & Hall & Hkept).
  cbn [app]. split; [exact Hkept|]. exists pushed. auto.
Qed.

End FacetItems.

Lemma test_matchingItems_supported_witness :
  exists matchingItems checks',
    test_matchingItems specEvalRequirement
      (demoFacet required "Pset_Demo" "Width" None)
      [demoComplex; demoWidth; demoNote] [] = Ok (matchingItems, checks') /\
    matchingItems = [demoWidth] /\
    (forall item, In item matchingItems ->
       In item [demoComplex; demoWidth; demoNote] /\
       exists type name,
         prop item "type" = Ok type /\
         includes _unsupportedTypes type = false /\
         nameOrNull item = Ok name /\
         fst (specEvalRequirement (demoFacet required "Pset_Demo" "Width" None)
                name (baseName (demoFacet required "Pset_Demo" "Width" None))
                "BaseName" None) = true) /\
    exists pushed,
      checks' = [] ++ pushed /\
      List.length pushed = List.length matchingItems /\
      Forall (fun c => IDSCheck.pass c = true /\
                       IDSCheck.parameter c = "BaseName") pushed.
Proof.
  eexists. eexists. split; [vm_compute; reflexivity|].
  split; [reflexivity|].
  apply (test_matchingItems_supported specEvalRequirement
           (demoFacet required "Pset_Demo" "Width" None)
           [demoComplex; demoWidth; demoNote] []).
  vm_compute. reflexivity.
Defined.

Lemma getItemsAttrName_cases (type : jsval) (name : string) :
  getItemsAttrName type = Some name ->
  name = "HasProperties" \/ name = "Quantities".
Proof.
  unfold getItemsAttrName.
  destruct (strictEq type (JNum IFCELEMENTQUANTITY));
    destruct (strictEq type (JNum IFCPROPERTYSET)); intros [= <-]; auto.
Qed.

Lemma resolved_items (model : FragmentsGroup) (handles : list jsval) :
  forall props props' : list jsval,
    forEach
      (fun props handle =>
         value <- prop handle "value" ;;
         propAttrs <- getPropertiesOf model value ;;
         Ok (if truthy propAttrs then props ++ [propAttrs] else props))
      handles props = Ok props' ->
    exists ids,
      Forall2 (fun handle id => prop handle "value" = Ok (JNum id)) handles ids /\
      props' = props ++ filter truthy (map (getProperties model) ids).
Proof.
  induction handles as [|handle handles IH]; intros props props'.
  - intros [= <-]. exists []. split; [constructor|]. cbn. now rewrite app_nil_r.
  - cbn [forEach]. intros H.
    apply bind_Ok in H. destruct H as (props1 & Hbody & H).
    apply bind_Ok in Hbody. destruct Hbody as (value & Hvalue & Hbody).
    apply bind_Ok in Hbody. destruct Hbody as (propAttrs & Hattrs & [= <-]).
    destruct value; cbn [getPropertiesOf] in Hattrs; try discriminate.
    injection Hattrs as <-.
    apply IH in H. destruct H as (ids & Hids & ->).
    exists (n :: ids). split; [now constructor|].
    cbn [map filter]. destruct (truthy (getProperties model n)).
    + now rewrite <- app_assoc.
    + reflexivity.
Qed.

(** X18.  Every set that [getPsets] returns is ready for [test].  It is
    the attribute bag of one of the definitions that [getEntityRelations]
    gives for [IsDefinedBy], of type [IFCPROPERTYSET] or
    [IFCELEMENTQUANTITY], so that [getItemsAttrName] names its list of
    items; and in place of the handles that list holds, in the order of
    the handles, the attribute bags that [model.getProperties] returns for
    the entities the handles point to, those that are not truthy being
    left out.  The branch of [test] for a set without a list of items is
    never taken for these sets. *)
Theorem getPsets_resolved (indexer : IfcRelationsIndexer)
    (model : FragmentsGroup) (expressID : Z) (sets : list jsval) :
  getPsets indexer model expressID = Ok sets ->
  forall set, In set sets ->
    exists type itemsAttrName items,
      prop set "type" = Ok type /\
      getItemsAttrName type = Some itemsAttrName /\
      prop set itemsAttrName = Ok (JArr items) /\
      Forall (fun item => truthy item = true) items /\
      exists definitions definitionID handles ids,
        getEntityRelations indexer model expressID "IsDefinedBy" =
          Some definitions /\
        In definitionID definitions /\
        prop (getProperties model definitionID) "type" = Ok type /\
        prop (getProperties model definitionID) itemsAttrName =
          Ok (JArr handles) /\
        Forall2 (fun handle id => prop handle "value" = Ok (JNum id))
                handles ids /\
        items = filter truthy (map (getProperties model) ids) /\
        set = setProp (getProperties model definitionID) itemsAttrName
                      (JArr items).
Proof.
  unfold getPsets.
  destruct (getEntityRelations indexer model expressID "IsDefinedBy")
    as [definitions|]; [|intros [= <-] set []].
  apply (forEach_invariant
           (fun sets => forall set, In set sets ->
              exists type itemsAttrName items,
                prop set "type" = Ok type /\
                getItemsAttrName type = Some itemsAttrName /\
                prop set itemsAttrName = Ok (JArr items) /\
                Forall (fun item => truthy item = true) items /\
                exists definitions' definitionID handles ids,
                  Some definitions = Some definitions' /\
                  In definitionID definitions' /\
                  prop (getProperties model definitionID) "type" = Ok type /\
                  prop (getProperties model definitionID) itemsAttrName =
                    Ok (JArr handles) /\
                  Forall2 (fun handle id => prop handle "value" = Ok (JNum id))
                          handles ids /\
                  items = filter truthy (map (getProperties model) ids) /\
                  set = setProp (getProperties model definitionID)
                                itemsAttrName (JArr items))).
  2:{ intros set []. }
  intros sets0 definitionID sets1 Hdef Hinv.
  destruct (truthy (getProperties model definitionID)); cbn [negb].
  2:{ now intros [= <-]. }
  intros H. apply bind_Ok in H. destruct H as (type & Htype & H).
  destruct (getItemsAttrName type) as [propsListName|] eqn:Hname.
  2:{ injection H as <-. exact Hinv. }
  pose proof (getItemsAttrName_cases _ _ Hname) as Hcases.
  pose proof Hname as Hnum.
  apply getItemsAttrName_Some in Hnum. destruct Hnum as (n & ->).
  pose proof Htype as Hobj.
  apply prop_Ok_inv in Hobj; [|discriminate]. destruct Hobj as (props & Hprops).
  apply bind_Ok in H. destruct H as (handlesAttr & Hattr & H).
  apply bind_Ok in H. destruct H as (handles & Hiter & H).
  apply bind_Ok in H. destruct H as (items & Hitems & [= <-]).
  assert (Harr : handlesAttr = JArr handles).
  { destruct handlesAttr; cbn [iterate] in Hiter; try discriminate.
    now injection Hiter as <-. }
  subst handlesAttr.
  apply resolved_items in Hitems. destruct Hitems as (ids & Hids & Hitems).
  cbn [app] in Hitems. subst items.
  intros set Hin. apply in_app_or in Hin. destruct Hin as [Hin|[<-|[]]]; auto.
  exists (JNum n), propsListName,
         (filter truthy (map (getProperties model) ids)).
  split; [|split; [exact Hname|split; [|split]]].
  - rewrite Hprops. cbn [setProp prop]. rewrite JsObject_get_set.
    destruct (String.eqb_spec propsListName "type") as [->|_].
    + destruct Hcases; discriminate.
    + rewrite Hprops in Htype. exact Htype.
  - rewrite Hprops. cbn [setProp prop]. now rewrite JsObject_get_set_eq.
  - apply Forall_forall. intros item Hitem. apply filter_In in Hitem.
    now destruct Hitem.
  - exists definitions, definitionID, handles, ids. repeat split; auto.
Qed.

Lemma getPsets_resolved_witness :
  exists sets,
    getPsets demoIndexer demoModel 1 = Ok sets /\
    sets =
      [ setProp demoPset "HasProperties"
          (JArr [demoWidth; demoFireRated; demoTags; demoNote]) ] /\
    forall set, In set sets ->
      exists type itemsAttrName items,
        prop set "type" = Ok type /\
        getItemsAttrName type = Some itemsAttrName /\
        prop set itemsAttrName = Ok (JArr items) /\
        Forall (fun item => truthy item = true) items /\
        exists definitions definitionID handles ids,
          getEntityRelations demoIndexer demoModel 1 "IsDefinedBy" =
            Some definitions /\
          In definitionID definitions /\
          prop (getProperties demoModel definitionID) "type" = Ok type /\
          prop (getProperties demoModel definitionID) itemsAttrName =
            Ok (JArr handles) /\
          Forall2 (fun handle id => prop handle "value" = Ok (JNum id))
                  handles ids /\
          items = filter truthy (map (getProperties demoModel) ids) /\
          set = setProp (getProperties demoModel definitionID) itemsAttrName
                        (JArr items).
Proof.
  eexists. split; [vm_compute; reflexivity|]. split; [reflexivity|].
  apply (getPsets_resolved demoIndexer demoModel 1).
  vm_compute. reflexivity.
Defined.

Section FacetEdges.

Variable evalRequirement :
  IDSProperty -> jsval -> IDSFacetParameter.t -> string ->
  option (list IDSCheck.t) -> bool * list IDSCheck.t.

Lemma getValueKey_none (props : JsObject.t jsval) :
  noValueKey props -> getValueKey (JObj props) = Ok None.
Proof.
  intros H. unfold getValueKey, findOwnKey. f_equal. apply findKey_none.
  intros key Hk. destruct (H key Hk) as [-> ->]. reflexivity.
Qed.

(** X19.  An item without a value attribute (no key ending with [Value]
    or [Values]): under a value constraint [evalValue] fails and records
    a [Value] check with [currentValue] [null]; without a value
    constraint it passes and records nothing. *)
Theorem evalValue_no_value_key (this : IDSProperty)
    (props : JsObject.t jsval) (checks : list IDSCheck.t) :
  noValueKey props ->
  evalValue evalRequirement this (JObj props) checks =
  match value this with
  | Some thisValue =>
      Ok (false,
          checks ++
          [ {| IDSCheck.parameter := "Value";
               IDSCheck.currentValue := JNull;
               IDSCheck.requiredValue := IDSFacetParameter.parameter thisValue;
               IDSCheck.pass := false |} ])
  | None => Ok (true, checks)
  end.
Proof.
  intros H. unfold evalValue. rewrite (getValueKey_none props H). cbn [bind].
  destruct (value this); reflexivity.
Qed.

(** X20.  With a [dataType] set on the facet, [evalDataType] throws a
    [TypeError] on an item without a value attribute: it reads [.name] of
    the [undefined] that [attrs[undefined]] yields. *)
Theorem evalDataType_no_value_key (this : IDSProperty)
    (props : JsObject.t jsval) (checks : list IDSCheck.t) (type : string) :
  dataType this = Some type -> type <> EmptyString ->
  noValueKey props ->
  JsObject.get props "undefined" = None ->
  evalDataType evalRequirement this (JObj props) checks = Throws TypeError.
Proof.
  intros Hd Hne Hno Hu. unfold evalDataType. rewrite Hd.
  destruct (String.eqb_spec type EmptyString) as [|_]; [contradiction|].
  rewrite (getValueKey_none props Hno). cbn [bind orElse prop].
  rewrite Hu. reflexivity.
Qed.

(** X21.  A label is compared as text.  Under a value constraint of type
    [simple], the value of an item whose value attribute is an
    [IFCLABEL] is matched against [String(parameter)], the text of the
    parameter of the facet, not against the parameter itself. *)
Theorem evalValue_label_as_text (this : IDSProperty)
    (thisValue : IDSFacetParameter.t) (attrs v x : jsval) (valueKey : string)
    (checks : list IDSCheck.t) :
  value this = Some thisValue ->
  IDSFacetParameter.type thisValue = "simple" ->
  getValueKey attrs = Ok (Some valueKey) ->
  prop attrs valueKey = Ok v ->
  (forall els, v <> JArr els) ->
  prop v "name" = Ok (JStr "IFCLABEL") ->
  prop v "value" = Ok x ->
  evalValue evalRequirement this attrs checks =
  Ok (evalRequirement this x
        {| IDSFacetParameter.type := "simple";
           IDSFacetParameter.parameter :=
             JStr (jsString (IDSFacetParameter.parameter thisValue)) |}
        "Value" (Some checks)).
Proof.
  intros Hv Ht Hk Hattr Harr Hname Hx. unfold evalValue.
  rewrite Hk. cbn [bind]. rewrite Hv, Hattr. cbn [bind].
  rewrite Hname. cbn [bind strictEq]. rewrite Ht. cbn [String.eqb andb].
  assert (Hobj : exists props, v = JObj props).
  { apply (prop_Ok_inv v "name" (JStr "IFCLABEL")); [exact Hname|discriminate]. }
  destruct Hobj as (props & ->).
  destruct (prop attrs "type") as [type| | |] eqn:Htype; cbn [bind].
  - rewrite Hx. reflexivity.
  - destruct attrs; cbn in Hattr, Htype; discriminate.
  - destruct attrs; cbn in Htype; discriminate.
  - destruct attrs; cbn in Htype; discriminate.
Qed.

End FacetEdges.

Lemma evalValue_no_value_key_witness :
  evalValue specEvalRequirement
    (demoFacet required "Pset_Demo" "Maker" (Some (simpleParameter (JStr "Acme"))))
    demoReference [] =
  Ok (false,
      [ {| IDSCheck.parameter := "Value";
           IDSCheck.currentValue := JNull;
           IDSCheck.requiredValue := JStr "Acme";
           IDSCheck.pass := false |} ]).
Proof.
  apply (evalValue_no_value_key specEvalRequirement
           (demoFacet required "Pset_Demo" "Maker"
                      (Some (simpleParameter (JStr "Acme"))))
           _ []).
  intros key [<-|[<-|[<-|[<-|[<-|[]]]]]]; split; reflexivity.
Defined.

Lemma evalDataType_no_value_key_witness :
  evalDataType specEvalRequirement
    (demoFacetTyped required "Pset_Demo" "Maker" None "IFCLABEL")
    demoReference [] = Throws TypeError.
Proof.
  apply (evalDataType_no_value_key specEvalRequirement
           (demoFacetTyped required "Pset_Demo" "Maker" None "IFCLABEL")
           _ [] "IFCLABEL").
  - reflexivity.
  - discriminate.
  - intros key [<-|[<-|[<-|[<-|[<-|[]]]]]]; split; reflexivity.
  - reflexivity.
Defined.

Lemma JsMap_get_key {V : Type} (m : JsMap.t V) (k : Z) (v : V) :
  In (k, v) m -> exists v', JsMap.get m k = Some v'.
Proof.
  induction m as [|[k0 v0] m IH]; intros Hin; [destruct Hin|].
  cbn [JsMap.get]. destruct (Z.eqb_spec k0 k) as [_|Hne]; eauto.
  destruct Hin as [H|Hin]; eauto. injection H as Hk _. contradiction.
Qed.

Section FacetUnindexed.

Variable evalRequirement :
  IDSProperty -> jsval -> IDSFacetParameter.t -> string ->
  option (list IDSCheck.t) -> bool * list IDSCheck.t.

Lemma test_entity_unindexed (this : IDSProperty) (indexer : IfcRelationsIndexer)
    (model : FragmentsGroup) (expressID : Z) (props : JsObject.t jsval) :
  getEntityRelations indexer model expressID "IsDefinedBy" = None ->
  exists guid,
    test_entity evalRequirement this indexer model expressID (JObj props) =
    Ok (missingSetResult this expressID guid).
Proof.
  intros Hnone.
  destruct (optProp_total (JsObject.get props "GlobalId" ?? JUndefined) "value")
    as (guid & Hguid).
  exists guid.
  apply (test_entity_missing_set evalRequirement this indexer model expressID
           (JObj props) (JsObject.get props "GlobalId" ?? JUndefined) guid []);
    auto.
  - unfold getPsets. now rewrite Hnone.
  - intros set name [].
Qed.

(** X22.  [test] on a model that the indexer has not indexed: whatever
    the facet and the matcher are, every entity comes back failed, with
    the single check [PropertySet] whose [currentValue] is [null]; no
    exception says that the index is missing.  The entities are attribute
    bags under the decimal text of their express IDs. *)
Theorem test_before_indexing (this : IDSProperty)
    (indexer : IfcRelationsIndexer) (model : FragmentsGroup)
    (bags : list (Z * JsObject.t jsval)) :
  JsObject.get (relationMaps indexer) (uuid model) = None ->
  exists results,
    test evalRequirement this indexer
         (map (fun bag => (String_of_Z (fst bag), JObj (snd bag))) bags)
         model = Ok results /\
    Forall2
      (fun bag r => exists guid, r = missingSetResult this (fst bag) guid)
      bags results.
Proof.
  intros Hnone. unfold test.
  set (entities := map (fun bag => (String_of_Z (fst bag), JObj (snd bag))) bags).
  assert (Hstep : forall bag, In bag bags ->
            exists guid, forall testResult,
              (expressID <- numberOfKey (String_of_Z (fst bag)) ;;
               result <- test_entity evalRequirement this indexer model expressID
                           (JsObject.get entities (String_of_Z expressID)
                            ?? JUndefined) ;;
               Ok (testResult ++ [result])) =
              Ok (testResult ++ [missingSetResult this (fst bag) guid])).
  { intros [id props] Hin. cbn [fst].
    destruct (JsMap_get_key bags id props Hin) as (props' & Hget).
    assert (Hattrs : JsObject.get entities (String_of_Z id) = Some (JObj props')).
    { unfold entities. rewrite (object_of_map_get JObj). now rewrite Hget. }
    destruct (test_entity_unindexed this indexer model id props') as (guid & Hr).
    { unfold getEntityRelations. now rewrite Hnone. }
    exists guid. intros testResult. unfold numberOfKey.
    rewrite Number_String_of_Z. cbn [bind]. rewrite Hattrs. cbn [orElse].
    rewrite Hr. reflexivity. }
  assert (Hgen : forall (l : list (Z * JsObject.t jsval)) acc,
            (forall bag, In bag l -> In bag bags) ->
            exists rs,
              forEach
                (fun testResult entry =>
                   expressID <- numberOfKey (fst entry) ;;
                   let attrs :=
                     JsObject.get entities (String_of_Z expressID)
                     ?? JUndefined in
                   result <- test_entity evalRequirement this indexer model
                               expressID attrs ;;
                   Ok (testResult ++ [result]))
                (map (fun bag => (String_of_Z (fst bag), JObj (snd bag))) l)
                acc = Ok (acc ++ rs) /\
              Forall2
                (fun bag r =>
                   exists guid, r = missingSetResult this (fst bag) guid)
                l rs).
  { induction l as [|bag l IH]; intros acc Hsub.
    - exists []. rewrite app_nil_r. split; [reflexivity|constructor].
    - destruct (Hstep bag (Hsub bag (or_introl eq_refl))) as (guid & Hbag).
      destruct (IH (acc ++ [missingSetResult this (fst bag) guid]))
        as (rs & Hrs & Hall).
      { intros b Hb. apply Hsub. now right. }
      exists (missingSetResult this (fst bag) guid :: rs).
      cbn [map forEach fst]. cbv zeta. rewrite Hbag. cbn [bind].
      cbv zeta in Hrs. rewrite Hrs, <- app_assoc.
      split; [reflexivity|]. constructor; eauto. }
  destruct (Hgen bags [] (fun bag H => H)) as (rs & Hrs & Hall).
  exists rs. split; [exact Hrs|exact Hall].
Qed.

End FacetUnindexed.

Lemma test_before_indexing_witness :
  exists results,
    test specEvalRequirement (demoFacet required "Pset_Demo" "Width" None)
         emptyIndexer
         (map (fun bag => (String_of_Z (fst bag), JObj (snd bag)))
              [ (1, [ ("expressID", JNum 1); ("type", JNum IFCWALL) ]) ])
         demoModel = Ok results /\
    Forall2
      (fun bag r =>
         exists guid,
           r = missingSetResult (demoFacet required "Pset_Demo" "Width" None)
                                (fst bag) guid)
      [ (1, [ ("expressID", JNum 1); ("type", JNum IFCWALL) ]) ] results.
Proof.
  apply (test_before_indexing specEvalRequirement
           (demoFacet required "Pset_Demo" "Width" None) emptyIndexer demoModel
           [ (1, [ ("expressID", JNum 1); ("type", JNum IFCWALL) ]) ]).
  reflexivity.
Defined.

Lemma forEach_push_map {A R : Type} (g : R -> R) (f f' : A -> outcome R)
    (l : list A) :
  (forall x, f' x = outcome_map g (f x)) ->
  forall acc,
    forEach (fun acc x => r <- f' x ;; Ok (acc ++ [r])) l (map g acc) =
    outcome_map (map g)
      (forEach (fun acc x => r <- f x ;; Ok (acc ++ [r])) l acc).
Proof.
  intros Hf. induction l as [|x l IH]; intros acc; cbn [forEach];
    [reflexivity|].
  rewrite Hf. destruct (f x) as [r| | |]; cbn [outcome_map bind]; auto.
  rewrite <- IH, map_app. reflexivity.
Qed.

Section FacetCardinality.

Variable evalRequirement :
  IDSProperty -> jsval -> IDSFacetParameter.t -> string ->
  option (list IDSCheck.t) -> bool * list IDSCheck.t.

Variable c : Cardinality.
Variable this : IDSProperty.

(** The matcher does not look at the cardinality of the facet. *)
Hypothesis evalRequirement_cardinality :
  evalRequirement (withCardinality c this) = evalRequirement this.

Lemma test_matchingSets_cardinality (sets : list jsval)
    (checks : list IDSCheck.t) :
  test_matchingSets evalRequirement (withCardinality c this) sets checks =
  test_matchingSets evalRequirement this sets checks.
Proof.
  unfold test_matchingSets. rewrite evalRequirement_cardinality. reflexivity.
Qed.

Lemma test_set_cardinality (checks : list IDSCheck.t) (set : jsval) :
  test_set evalRequirement (withCardinality c this) checks set =
  test_set evalRequirement this checks set.
Proof.
  unfold test_set, test_matchingItems, evalValue, evalDataType, baseNameMissing.
  rewrite evalRequirement_cardinality. reflexivity.
Qed.

Lemma test_entity_cardinality (indexer : IfcRelationsIndexer)
    (model : FragmentsGroup) (expressID : Z) (attrs : jsval) :
  test_entity evalRequirement (withCardinality c this) indexer model
              expressID attrs =
  outcome_map (resultWithCardinality c)
    (test_entity evalRequirement this indexer model expressID attrs).
Proof.
  unfold test_entity.
  destruct (prop attrs "GlobalId") as [globalId| | |]; cbn [bind outcome_map];
    auto.
  destruct (optProp globalId "value") as [guid| | |]; cbn [bind outcome_map];
    auto.
  destruct (getPsets indexer model expressID) as [sets| | |];
    cbn [bind outcome_map]; auto.
  rewrite test_matchingSets_cardinality.
  destruct (test_matchingSets evalRequirement this sets [])
    as [[matchingSets checks]| | |]; cbn [bind outcome_map fst snd]; auto.
  destruct matchingSets as [|set matchingSets]; [reflexivity|].
  rewrite (forEach_ext _ (test_set evalRequirement this))
    by (intros; apply test_set_cardinality).
  destruct (forEach _ _ _) as [checks'| | |]; reflexivity.
Qed.

(** X23.  [test] never consults the cardinality of the facet: for a
    matcher that does not depend on it, the facet with any other
    cardinality gives, entity by entity, the same checks and the same
    [pass]; the results differ only in the cardinality they carry.  A
    prohibited facet reports [pass] exactly where a required one does. *)
Theorem test_ignores_cardinality (indexer : IfcRelationsIndexer)
    (entities : IfcProperties) (model : FragmentsGroup) :
  test evalRequirement (withCardinality c this) indexer entities model =
  outcome_map (map (resultWithCardinality c))
    (test evalRequirement this indexer entities model).
Proof.
  unfold test.
  set (f := fun this (entry : string * jsval) =>
              expressID <- numberOfKey (fst entry) ;;
              test_entity evalRequirement this indexer model expressID
                (JsObject.get entities (String_of_Z expressID) ?? JUndefined)).
  rewrite (forEach_ext _ (fun acc x => r <- f (withCardinality c this) x ;;
                                       Ok (acc ++ [r]))).
  2:{ intros acc entry _. unfold f.
      destruct (numberOfKey (fst entry)); reflexivity. }
  rewrite (forEach_ext
             (fun testResult entry =>
                expressID <- numberOfKey (fst entry) ;;
                let attrs :=
                  JsObject.get entities (String_of_Z expressID) ?? JUndefined in
                result <- test_entity evalRequirement this indexer model
                            expressID attrs ;;
                Ok (testResult ++ [result]))
             (fun acc x => r <- f this x ;; Ok (acc ++ [r]))).
  2:{ intros acc entry _. unfold f.
      destruct (numberOfKey (fst entry)); reflexivity. }
  apply (forEach_push_map (resultWithCardinality c) (f this)
           (f (withCardinality c this)) entities) with (acc := []).
  intros entry. unfold f.
  destruct (numberOfKey (fst entry)) as [expressID| | |];
    cbn [bind outcome_map]; auto.
  apply test_entity_cardinality.
Qed.

End FacetCardinality.

Lemma test_ignores_cardinality_witness :
  test specEvalRequirement
       (withCardinality prohibited
          (demoFacet required "Pset_Demo" "Width" (Some (simpleParameter (JNum 5)))))
       demoIndexer demoEntities demoModel =
  outcome_map (map (resultWithCardinality prohibited))
    (test specEvalRequirement
          (demoFacet required "Pset_Demo" "Width" (Some (simpleParameter (JNum 5))))
          demoIndexer demoEntities demoModel).
Proof.
  apply (test_ignores_cardinality specEvalRequirement prohibited
           (demoFacet required "Pset_Demo" "Width"
                      (Some (simpleParameter (JNum 5))))).
  reflexivity.
Defined.

(** A prohibited property that is present with the prohibited value is
    reported as passing. *)
Example test_prohibited_present_passes :
  outcome_map (map IDSCheckResult.pass)
    (test specEvalRequirement
          (demoFacet prohibited "Pset_Demo" "Width"
                     (Some (simpleParameter (JNum 5))))
          demoIndexer demoEntities demoModel) = Ok [true].
Proof. vm_compute. reflexivity. Qed.

Lemma prop_truthy (attrs : jsval) (k : string) :
  truthy attrs = true -> exists x, prop attrs k = Ok x.
Proof. destruct attrs; cbn; try discriminate; eauto. Qed.

Lemma getEntities_set_no_match (this : IDSProperty) (model : FragmentsGroup)
    (matchingSets : list Z) (entry : string * jsval) :
  (forall name,
     strictEq name (IDSFacetParameter.parameter (propertySet this)) = false) ->
  Number (fst entry) <> None ->
  getEntities_set this model matchingSets entry = Ok matchingSets.
Proof.
  intros Hneq Hnum. unfold getEntities_set, numberOfKey.
  destruct (Number (fst entry)) as [setID|]; [|contradiction]. cbn [bind].
  destruct (truthy (getProperties model setID)) eqn:Ht; cbn [negb];
    [|reflexivity].
  destruct (prop_truthy _ "Name" Ht) as (name & ->). cbn [bind].
  destruct (optProp_total name "value") as (v & ->). cbn [bind].
  now rewrite Hneq.
Qed.

(** X24.  [getEntities] compares the name of a property set with the
    [propertySet] parameter by strict equality, so a parameter that is an
    array or an object (an enumeration, bounds, a length) selects no
    set: the call resolves to the empty array and leaves the collector as
    it was, whatever the model holds. *)
Theorem getEntities_restriction_selects_nothing (this : IDSProperty)
    (indexer : IfcRelationsIndexer) (model : FragmentsGroup)
    (collector : IfcProperties) :
  (exists els, IDSFacetParameter.parameter (propertySet this) = JArr els) \/
  (exists props, IDSFacetParameter.parameter (propertySet this) = JObj props) ->
  (forall key, In key (JsObject.keys (allSets model)) -> Number key <> None) ->
  getEntities this indexer model collector = Ok ([], collector).
Proof.
  intros Hparam Hkeys.
  assert (Hneq : forall name,
            strictEq name (IDSFacetParameter.parameter (propertySet this)) =
            false).
  { intros name. destruct Hparam as [(els & ->)|(props & ->)];
      now destruct name. }
  unfold getEntities. fold (allSets model).
  destruct (List.length (JsObject.keys (allSets model)) =? 0)%nat;
    [reflexivity|].
  rewrite (forEach_ext _ (fun s _ => Ok s)).
  - rewrite forEach_skip. reflexivity.
  - intros s entry Hin. apply getEntities_set_no_match; auto.
    apply Hkeys. unfold JsObject.keys. now apply in_map.
Qed.

Lemma getEntities_restriction_selects_nothing_witness :
  getEntities
    {| cardinality := required;
       propertySet :=
         {| IDSFacetParameter.type := "enumeration";
            IDSFacetParameter.parameter := JArr [JStr "Pset_Demo"] |};
       baseName := simpleParameter (JStr "Width");
       value := None;
       dataType := None |}
    demoIndexer demoModel JsObject.empty = Ok ([], JsObject.empty).
Proof.
  apply getEntities_restriction_selects_nothing.
  - left. eexists. reflexivity.
  - intros key [<-|[]]. vm_compute. discriminate.
Defined.

(** X25.  [getEntities] collects nothing.  Whenever it resolves, it
    resolves to the empty array and the collector is as it was.  When the
    scan of the property sets ends without a matching set it does
    resolve; when the scan finds a matching set, the call of
    [indexer.getEntitiesWithRelation], which the indexer does not have,
    throws a [TypeError] before any entity is looked at. *)
Theorem getEntities_collects_nothing (this : IDSProperty)
    (indexer : IfcRelationsIndexer) (model : FragmentsGroup)
    (collector : IfcProperties) (matchingSets : list Z) :
  forEach (getEntities_set this model) (allSets model) [] = Ok matchingSets ->
  getEntities this indexer model collector =
    match matchingSets with
    | [] => Ok ([], collector)
    | _ :: _ => Throws TypeError
    end /\
  forall result collector',
    getEntities this indexer model collector = Ok (result, collector') ->
    matchingSets = [] /\ result = [] /\ collector' = collector.
Proof.
  intros Hscan.
  assert (Hout : getEntities this indexer model collector =
                 match matchingSets with
                 | [] => Ok ([], collector)
                 | _ :: _ => Throws TypeError
                 end).
  { unfold getEntities. fold (allSets model).
    destruct (allSets model) as [|entry sets] eqn:Hsets.
    - injection Hscan as <-. reflexivity.
    - cbn [List.length JsObject.keys map Nat.eqb]. rewrite Hscan. cbn [bind].
      destruct matchingSets; reflexivity. }
  split; [exact Hout|].
  intros result collector' H. rewrite Hout in H.
  destruct matchingSets; [|discriminate]. injection H as <- <-. auto.
Qed.

Lemma getEntities_collects_nothing_witness :
  forEach (getEntities_set (demoFacet required "Pset_Demo" "Width" None)
                           demoModel)
          (allSets demoModel) [] = Ok [10] /\
  getEntities (demoFacet required "Pset_Demo" "Width" None) demoIndexer
              demoModel [ ("7", demoWall) ] =
    Throws TypeError /\
  forall result collector',
    getEntities (demoFacet required "Pset_Demo" "Width" None) demoIndexer
                demoModel [ ("7", demoWall) ] = Ok (result, collector') ->
    [10] = [] /\ result = [] /\ collector' = [ ("7", demoWall) ].
Proof.
  assert (H : forEach (getEntities_set
                         (demoFacet required "Pset_Demo" "Width" None)
                         demoModel)
                      (allSets demoModel) [] = Ok [10])
    by (vm_compute; reflexivity).
  split; [exact H|].
  exact (getEntities_collects_nothing
           (demoFacet required "Pset_Demo" "Width" None) demoIndexer demoModel
           [ ("7", demoWall) ] [10] H).
Defined.

Lemma evalValue_label_as_text_witness :
  evalValue specEvalRequirement
    (demoFacet required "Pset_Demo" "Code" (Some (simpleParameter (JNum 42))))
    (JObj [ ("type", JNum IFCPROPERTYSINGLEVALUE);
            ("Name", wrapped 1 (JStr "Code") "IFCIDENTIFIER");
            ("NominalValue", wrapped 1 (JStr "42") "IFCLABEL") ]) [] =
  Ok (specEvalRequirement
        (demoFacet required "Pset_Demo" "Code" (Some (simpleParameter (JNum 42))))
        (JStr "42")
        {| IDSFacetParameter.type := "simple";
           IDSFacetParameter.parameter := JStr (jsString (JNum 42)) |}
        "Value" (Some [])).
Proof.
  apply (evalValue_label_as_text specEvalRequirement
           (demoFacet required "Pset_Demo" "Code"
                      (Some (simpleParameter (JNum 42))))
           (simpleParameter (JNum 42)) _
           (wrapped 1 (JStr "42") "IFCLABEL") (JStr "42") "NominalValue" []);
    try reflexivity.
  discriminate.
Defined.

(** The number [42] as parameter matches the label with the text [42]. *)
Example evalValue_label_number :
  evalValue specEvalRequirement
    (demoFacet required "Pset_Demo" "Code" (Some (simpleParameter (JNum 42))))
    (JObj [ ("type", JNum IFCPROPERTYSINGLEVALUE);
            ("Name", wrapped 1 (JStr "Code") "IFCIDENTIFIER");
            ("NominalValue", wrapped 1 (JStr "42") "IFCLABEL") ]) [] =
  Ok (true, [ {| IDSCheck.parameter := "Value";
                 IDSCheck.currentValue := JStr "42";
                 IDSCheck.requiredValue := JStr "42";
                 IDSCheck.pass := true |} ]).
Proof. vm_compute. reflexivity. Qed.
